(** * The MIR record parser and its selection engine

    A shallow embedding of [pyuvdata/uvdata/mir_parser.py] (class
    [MirParser]) and of the selection stage of
    [pyuvdata/uvdata/mir.py] ([Mir.read_mir]), with the properties the
    specification states about them.

    Conventions of the embedding.
    - A Python exception is a value of [exn]; a call that may raise has
      type [result A].
    - NumPy integer columns are [Z]; where NumPy computes in a fixed
      width and a value of the column's type can overflow, the
      wrap-around is written out ([wrap16], [wrap32], [wrap64]).  The
      integer promotion rules are those of NumPy before 1.24, the only
      versions this code runs on (it names [np.bool]): an operation on
      two scalars promotes a Python [int] to [int64], an operation on an
      array and a Python [int] keeps the array's type.
    - One-dimensional NumPy arrays and Python lists are [list]s.
    - Dictionaries that are only looked up are [gmap]s; the offset index
      [in_start_dict], whose entry order is observable, is an
      association list in insertion order.
    - [np.single] values are IEEE binary32 numbers, [spec_float] with
      precision 24 and maximal exponent 128. *)

From Stdlib Require Import ZArith List Lia String QArith SpecFloat.
From coqutil Require Import Word.LittleEndianList Byte.
From stdpp Require Import base list option gmap strings sorting.

Open Scope string_scope.
Open Scope list_scope.
Open Scope Z_scope.

(** ** Python exceptions and the calls that may raise them *)

Inductive exn : Type :=
| KeyError
| IndexError (msg : string)
| ValueError
| TypeError
| OSError
| UnboundLocalError.

(** The outcome of a call.  [OutOfFuel] is not an outcome of the
    program: it says that the iteration budget given to a [while] loop
    of the model ran out before the loop ended. *)
Inductive result (A : Type) : Type :=
| Ok (a : A)
| Raise (e : exn)
| OutOfFuel.
Arguments Ok {A} a.
Arguments Raise {A} e.
Arguments OutOfFuel {A}.

#[global] Instance result_ret : MRet result := fun A a => Ok a.
#[global] Instance result_bind : MBind result := fun A B f m =>
  match m with
  | Ok a => f a
  | Raise e => Raise e
  | OutOfFuel => OutOfFuel
  end.
#[global] Instance result_fmap : FMap result := fun A B f m =>
  match m with
  | Ok a => Ok (f a)
  | Raise e => Raise e
  | OutOfFuel => OutOfFuel
  end.

(** [for x in l: ...] over a loop state: the body maps the state before
    an iteration to the state after it, or raises. *)
Fixpoint for_loop {A S : Type} (body : S -> A -> result S) (s : S)
    (l : list A) : result S :=
  match l with
  | [] => Ok s
  | x :: l' => s' ← body s x; for_loop body s' l'
  end.

(** The message NumPy attaches to an integer index that is out of range
    and to a boolean index of the wrong length; only the exception class
    matters below. *)
Definition out_of_bounds : exn := IndexError "index out of bounds".
Definition mask_mismatch : exn :=
  IndexError "boolean index did not match indexed array".

Module Py.

(** [d[key]] on a dictionary used as a lookup table. *)
Definition getitem `{Countable K} {V : Type} (d : gmap K V) (key : K)
  : result V :=
  match d !! key with
  | Some v => Ok v
  | None => Raise KeyError
  end.

(** [{key: value for key, value in pairs}]: a later pair overwrites an
    earlier one with the same key. *)
Definition dict_of `{Countable K} {V : Type} (pairs : list (K * V))
  : gmap K V :=
  foldl (fun d p => <[p.1 := p.2]> d) ∅ pairs.

(** [d.update(e)] where [e] was built from [pairs]. *)
Definition dict_update `{Countable K} {V : Type} (d : gmap K V)
    (pairs : list (K * V)) : gmap K V :=
  foldl (fun d p => <[p.1 := p.2]> d) d pairs.

(** [a[i]] for a list or a one-dimensional array and a non-negative
    position. *)
Definition item {A : Type} (a : list A) (i : nat) : result A :=
  match a !! i with
  | Some x => Ok x
  | None => Raise out_of_bounds
  end.

(** [a[i]] for an integer that may be negative: Python counts a negative
    index from the end. *)
Definition index {A : Type} (a : list A) (i : Z) : result A :=
  let n := Z.of_nat (length a) in
  if (0 <=? i) && (i <? n) then item a (Z.to_nat i)
  else if (- n <=? i) && (i <? 0) then item a (Z.to_nat (n + i))
  else Raise out_of_bounds.

(** The bound of a slice [a[i:j]], clipped as Python does. *)
Definition slice_bound (n i : Z) : Z :=
  if i <? 0 then Z.max 0 (n + i) else Z.min i n.

(** [a[i:j]]. *)
Definition slice {A : Type} (a : list A) (i j : Z) : list A :=
  let n := Z.of_nat (length a) in
  let lo := slice_bound n i in
  let hi := slice_bound n j in
  take (Z.to_nat (hi - lo)) (drop (Z.to_nat lo) a).

(** [range(n)]. *)
Definition range (n : nat) : list nat := seq 0 n.

(** A dictionary whose entries are iterated: the pairs in insertion
    order, each key once.  [assoc] is [d.get(key)] and [setitem] is
    [d[key] = v], which keeps the place of a key already present. *)
Fixpoint assoc {V : Type} (d : list (Z * V)) (key : Z) : option V :=
  match d with
  | [] => None
  | (k, v) :: d' => if k =? key then Some v else assoc d' key
  end.

Fixpoint setitem {V : Type} (d : list (Z * V)) (key : Z) (v : V)
  : list (Z * V) :=
  match d with
  | [] => [(key, v)]
  | (k, w) :: d' =>
      if k =? key then (k, v) :: d' else (k, w) :: setitem d' key v
  end.

Definition getitem_ordered {V : Type} (d : list (Z * V)) (key : Z)
  : result V :=
  match assoc d key with
  | Some v => Ok v
  | None => Raise KeyError
  end.

(** [sorted(l)] on integers. *)
Fixpoint insert_sorted (x : Z) (l : list Z) : list Z :=
  match l with
  | [] => [x]
  | y :: l' => if x <=? y then x :: y :: l' else y :: insert_sorted x l'
  end.

Definition sorted (l : list Z) : list Z := foldr insert_sorted [] l.

End Py.

(** An open binary file: its bytes and the position of its cursor. *)
Record file : Type := { content : list byte; pos : Z }.

Module Np.

(** Two's-complement wrap-around of the fixed-width integer types. *)
Definition wrap (bits : Z) (x : Z) : Z :=
  (x + 2 ^ (bits - 1)) mod 2 ^ bits - 2 ^ (bits - 1).
Definition wrap16 : Z -> Z := wrap 16.
Definition wrap32 : Z -> Z := wrap 32.
Definition wrap64 : Z -> Z := wrap 64.

(** [np.unique]: the distinct values in ascending order. *)
Fixpoint insert_unique (x : Z) (l : list Z) : list Z :=
  match l with
  | [] => [x]
  | y :: l' =>
      if x <? y then x :: y :: l'
      else if x =? y then y :: l'
      else y :: insert_unique x l'
  end.

Definition unique (l : list Z) : list Z := foldr insert_unique [] l.

(** [np.logical_and(a, b)] on one-dimensional arrays: elementwise, an
    array of length one being broadcast against the other. *)
Definition logical_and (a b : list bool) : result (list bool) :=
  if decide (length a = length b) then Ok (zip_with andb a b)
  else match a, b with
       | [x], _ => Ok (andb x <$> b)
       | _, [y] => Ok ((fun x => andb x y) <$> a)
       | _, _ => Raise ValueError
       end.

(** The rows of [a] at which [mask] is true. *)
Fixpoint compress {A : Type} (mask : list bool) (a : list A) : list A :=
  match mask, a with
  | b :: mask', x :: a' =>
      if b then x :: compress mask' a' else compress mask' a'
  | _, _ => []
  end.

(** [a[mask]] with a boolean array [mask], which must be as long as
    [a]. *)
Definition bool_index {A : Type} (a : list A) (mask : list bool)
  : result (list A) :=
  if decide (length mask = length a) then Ok (compress mask a)
  else Raise mask_mismatch.

(** [np.arange(0, n)]. *)
Definition arange (n : Z) : list Z := Z.of_nat <$> seq 0 (Z.to_nat n).

(** [np.diff] of an int64 array. *)
Definition diff (a : list Z) : list Z :=
  zip_with (fun next prev => wrap64 (next - prev)) (drop 1 a) a.

(** [np.zeros] and [np.ones] with a one-dimensional shape. *)
Definition zeros {A : Type} (zero : A) (n : Z) : result (list A) :=
  if n <? 0 then Raise ValueError else Ok (replicate (Z.to_nat n) zero).

Definition ones (n : nat) : list bool := replicate n true.

(** Little-endian fixed-width integers, as [np.fromfile] decodes them on
    the machines MIR data is read on. *)
Definition int16_of (bs : list byte) : Z := wrap16 (le_combine bs).
Definition int32_of (bs : list byte) : Z := wrap32 (le_combine bs).

(** Binary32: the [np.single] nearest to [m * 2 ^ e], to even on a
    tie, infinite on overflow. *)
Definition single (m e : Z) : spec_float := binary_normalize 24 128 m e false.

(** An integer converted to [np.single]. *)
Definition single_of_int (m : Z) : spec_float := single m 0.

(** [np.power(2.0, s, dtype=np.single)] for an integer [s]: the C
    library's [powf], exact on the powers of two binary32 holds, zero
    below them and infinite above. *)
Definition power2 (s : Z) : spec_float := single 1 s.

(** The product of two [np.single] values. *)
Definition mul (x y : spec_float) : spec_float := SFmul 24 128 x y.

(** An [np.single] read from its four bytes. *)
Definition single_of (bs : list byte) : spec_float :=
  let x := le_combine bs in
  let s := Z.testbit x 31 in
  let e := (x / 2 ^ 23) mod 2 ^ 8 in
  let mant := x mod 2 ^ 23 in
  if e =? 0 then
    if mant =? 0 then S754_zero s else S754_finite s (Z.to_pos mant) (-149)
  else if e =? 255 then
    if mant =? 0 then S754_infinity s else S754_nan
  else S754_finite s (Z.to_pos (mant + 2 ^ 23)) (e - 150).

(** [n] consecutive pieces of [size] elements each. *)
Fixpoint chunks {A : Type} (size n : nat) (l : list A) : list (list A) :=
  match n with
  | O => []
  | S n' => take size l :: chunks size n' (drop size l)
  end.

(** [np.fromfile(f, dtype, count, offset)] on an open binary file, for
    a [dtype] of [itemsize] bytes: the cursor moves by [offset], then up
    to [count] whole items are read, all that remain when [count] is
    negative.  A short read is not an error: fewer items come back and
    the cursor stops at the end of the file.  The result is the items,
    as stored, and the file with its cursor moved. *)
Definition fromfile (f : file) (itemsize count offset : Z)
  : result (list (list byte) * file) :=
  let start := pos f + offset in
  if start <? 0 then Raise OSError
  else
    let size := Z.of_nat (length (content f)) in
    let whole := Z.max 0 (size - start) / itemsize in
    let n := if count <? 0 then whole else Z.min count whole in
    let items :=
      chunks (Z.to_nat itemsize) (Z.to_nat n)
             (drop (Z.to_nat start) (content f)) in
    let stop :=
      if (0 <=? count) && (n <? count) then Z.max start size
      else start + n * itemsize in
    Ok (items, {| content := content f; pos := stop |}).

(** [open(path, "rb")]. *)
Definition open (bytes : list byte) : file := {| content := bytes; pos := 0 |}.

End Np.

(** ** Record layouts

    One record per table row.  The integer columns the parser reads are
    fields of their own; the columns it only carries along are kept as
    the bytes stored on disk. *)

Record in_row : Type := {
  in_inhid : Z;             (* int32 *)
  isource : Z;              (* int16 *)
  in_columns : list byte
}.

Record eng_row : Type := {
  eng_inhid : Z;            (* int32 *)
  eng_columns : list byte
}.

Record bl_row : Type := {
  blhid : Z;                (* int32 *)
  bl_inhid : Z;             (* int32 *)
  isb : Z;                  (* int16 *)
  ipol : Z;                 (* int16 *)
  irec : Z;                 (* int16 *)
  bl_columns : list byte
}.

Record sp_row : Type := {
  sphid : Z;                (* int32 *)
  sp_blhid : Z;             (* int32 *)
  sp_inhid : Z;             (* int32 *)
  nch : Z;                  (* int16 *)
  dataoff : Z;              (* int32 *)
  corrchunk : Z;            (* int16 *)
  sp_columns : list byte
}.

Record codes_row : Type := {
  v_name : list byte;
  icode : Z;
  code : list byte;
  ncode : Z
}.

Record we_row : Type := {
  scanNumber : Z;           (* int32 *)
  we_columns : list byte
}.

(** [ac_read_dtype]: a row of the index [scan_auto_data] builds. *)
Record ac_row : Type := {
  ac_inhid : Z;             (* int32 *)
  achid : Z;                (* int32 *)
  antenna : Z;              (* int32 *)
  nchunks : Z;              (* int32 *)
  datasize : Z;             (* int32 *)
  ac_dataoff : Z;           (* int64 *)
  dhrs : list byte          (* double, as stored *)
}.

Record antpos_row : Type := {
  ant_number : Z;
  xyz_pos : list byte
}.


(** A complex sample, [np.csingle]: two binary32 numbers. *)
Record csingle : Type := { re : spec_float; im : spec_float }.

(** ** The parser object

    The attributes of a [MirParser] instance, grouped by the role they
    play: what was read in, what the caller selects, what the filter
    engine derives, and what the decoder caches. *)

(** The full read-in tables, assigned once by [__init__]. *)
Record tables : Type := {
  in_read : list in_row;
  eng_read : list eng_row;
  bl_read : list bl_row;
  sp_read : list sp_row;
  codes_read : list codes_row;
  we_read : list we_row;
  ac_read : list ac_row;
  in_start_dict : list (Z * (Z * Z));
  antpos_data : list antpos_row
}.

(** The caller's selection. *)
Record masks : Type := {
  use_in : list bool;
  use_bl : list bool;
  use_sp : list bool
}.

(** The derived filters. *)
Record filters : Type := {
  in_filter : list bool;
  eng_filter : list bool;
  bl_filter : list bool;
  sp_filter : list bool;
  we_filter : list bool;
  ac_filter : list bool
}.

(** The filtered tables. *)
Record views : Type := {
  in_data : list in_row;
  eng_data : list eng_row;
  bl_data : list bl_row;
  sp_data : list sp_row;
  codes_data : list codes_row;
  we_data : list we_row;
  ac_data : list ac_row
}.

(** Identifier to position in the filtered tables. *)
Record lookups : Type := {
  inhid_dict : gmap Z nat;
  blhid_dict : gmap Z nat;
  sphid_dict : gmap Z nat
}.

(** The decoded payload; [None] is Python's [None], "not loaded".
    [auto_data] has shape (rows, windows, 2, 16384).  The two [_loaded]
    attributes do not exist until [load_data] first sets them. *)
Record payload : Type := {
  vis_data : option (list (list csingle));
  raw_data : option (list (list Z));
  auto_data : option (list (list (list (list spec_float))));
  raw_scale_fac : option (list Z);
  vis_data_loaded : option bool;
  raw_data_loaded : option bool
}.

(** The files of the data set the decoder goes back to ([filepath]). *)
Record folder : Type := {
  sch_read : list byte;
  autoCorrelations : list byte
}.

Record parser : Type := {
  filepath : folder;
  tabs : tables;
  sel : masks;
  flt : filters;
  data : views;
  dicts : lookups;
  cache : payload
}.

Module MirParser.

(** [[d[key] for key in keys]]. *)
Definition lookup_all {V : Type} (d : gmap Z V) (keys : list Z)
  : result (list V) :=
  mapM (Py.getitem d) keys.

(** [{key: value for key in keys}] with a constant value. *)
Definition dict_const {V : Type} (keys : list Z) (v : V) : list (Z * V) :=
  (fun key => (key, v)) <$> keys.

(** Lines 293 to 349 of [_update_filter]: the six derived filters, from
    the read-in tables and the [use_] masks. *)
Definition derive_filters (t : tables) (m : masks) : result filters :=
  let in_keys := in_inhid <$> in_read t in
  let bl_keys := blhid <$> bl_read t in
  (* Start with in-level records *)
  let inhid_filter_dict := Py.dict_of (zip in_keys (use_in m)) in
  (* Filter out de-selected bl records *)
  looked ← lookup_all inhid_filter_dict (bl_inhid <$> bl_read t);
  bl_filter1 ← Np.logical_and (use_bl m) looked;
  (* Build a dict of bl-level records *)
  let blhid_filter_dict := Py.dict_of (zip bl_keys bl_filter1) in
  (* Filter out de-selected sp records *)
  looked ← lookup_all blhid_filter_dict (sp_blhid <$> sp_read t);
  sp_filter' ← Np.logical_and (use_sp m) looked;
  (* Check for bl records that have no good sp records *)
  kept ← Np.bool_index (sp_blhid <$> sp_read t) sp_filter';
  let sp_bl_check :=
    Py.dict_update (Py.dict_of (dict_const bl_keys false))
                   (dict_const (Np.unique kept) true) in
  looked ← lookup_all sp_bl_check bl_keys;
  bl_filter' ← Np.logical_and bl_filter1 looked;
  (* Check for in records that have no good bl records *)
  kept ← Np.bool_index (bl_inhid <$> bl_read t) bl_filter';
  let bl_in_check :=
    Py.dict_update (Py.dict_of (dict_const in_keys false))
                   (dict_const (Np.unique kept) true) in
  looked ← lookup_all bl_in_check in_keys;
  in_filter' ← Np.logical_and (use_in m) looked;
  (* A temporary dictionary for filtering the remaining dtypes *)
  let inhid_filter_dict := Py.dict_of (zip in_keys in_filter') in
  eng_filter' ← lookup_all inhid_filter_dict (eng_inhid <$> eng_read t);
  we_filter' ← lookup_all inhid_filter_dict (scanNumber <$> we_read t);
  ac_filter' ← lookup_all inhid_filter_dict (ac_inhid <$> ac_read t);
  Ok {| in_filter := in_filter'; eng_filter := eng_filter';
        bl_filter := bl_filter'; sp_filter := sp_filter';
        we_filter := we_filter'; ac_filter := ac_filter' |}.

(** Lines 358 to 363: the filtered tables re-sliced from the full
    tables.  [codes_data] is not filtered. *)
Definition slice_views (t : tables) (f : filters) (old : views)
  : result views :=
  in_data' ← Np.bool_index (in_read t) (in_filter f);
  bl_data' ← Np.bool_index (bl_read t) (bl_filter f);
  sp_data' ← Np.bool_index (sp_read t) (sp_filter f);
  eng_data' ← Np.bool_index (eng_read t) (eng_filter f);
  we_data' ← Np.bool_index (we_read t) (we_filter f);
  ac_data' ← Np.bool_index (ac_read t) (ac_filter f);
  Ok {| in_data := in_data'; eng_data := eng_data'; bl_data := bl_data';
        sp_data := sp_data'; codes_data := codes_data old;
        we_data := we_data'; ac_data := ac_data' |}.

(** [{keys[idx]: idx for idx in range(len(keys))}]. *)
Definition position_dict (keys : list Z) : gmap Z nat :=
  Py.dict_of (zip keys (Py.range (length keys))).

(** Lines 367 to 375. *)
Definition index_views (v : views) : lookups :=
  {| inhid_dict := position_dict (in_inhid <$> in_data v);
     blhid_dict := position_dict (blhid <$> bl_data v);
     sphid_dict := position_dict (sphid <$> sp_data v) |}.

(** [np.array_equal] on two boolean arrays. *)
Definition array_equal (a b : list bool) : bool := bool_decide (a = b).

(** [_update_filter]: the parser after the call and the returned
    [filter_changed]. *)
Definition _update_filter (st : parser) : result (bool * parser) :=
  let old_in_filter := in_filter (flt st) in
  let old_bl_filter := bl_filter (flt st) in
  let old_sp_filter := sp_filter (flt st) in
  f ← derive_filters (tabs st) (sel st);
  let filter_changed :=
    negb (array_equal old_sp_filter (sp_filter f)
          && array_equal old_bl_filter (bl_filter f)
          && array_equal old_in_filter (in_filter f)) in
  v ← (if filter_changed then slice_views (tabs st) f (data st)
       else Ok (data st));
  Ok (filter_changed,
      {| filepath := filepath st; tabs := tabs st; sel := sel st;
         flt := f; data := v; dicts := index_views v;
         cache := cache st |}).

(** [unload_data]. *)
Definition unload_data (st : parser) : parser :=
  let c := cache st in
  let vis := if vis_data c is Some _ then None else vis_data c in
  let raw := if raw_data c is Some _ then None else raw_data c in
  let auto := if auto_data c is Some _ then None else auto_data c in
  {| filepath := filepath st; tabs := tabs st; sel := sel st;
     flt := flt st; data := data st; dicts := dicts st;
     cache := {| vis_data := vis; raw_data := raw; auto_data := auto;
                 raw_scale_fac := raw_scale_fac c;
                 vis_data_loaded := vis_data_loaded c;
                 raw_data_loaded := raw_data_loaded c |} |}.


(** *** The two index scans *)

(** [scan_int_start]: the loop over the record headers of [sch_read].
    [f] is the open file, [fuel] bounds the iterations. *)
Fixpoint scan_int_loop (fuel : nat) (file_size : Z) (f : file)
    (data_offset last_offset : Z) (in_offset_dict : list (Z * (Z * Z)))
  : result (list (Z * (Z * Z))) :=
  if data_offset <? file_size then
    match fuel with
    | O => OutOfFuel
    | S fuel' =>
        '(int_vals, f') ← Np.fromfile f 8 1 last_offset;
        let inhid_col := (fun b => Np.int32_of (take 4 b)) <$> int_vals in
        let insize_col := (fun b => Np.int32_of (drop 4 b)) <$> int_vals in
        insize ← Py.item insize_col 0;
        inhid ← Py.item inhid_col 0;
        let in_offset_dict' :=
          Py.setitem in_offset_dict inhid (insize + 8, data_offset) in
        let last_offset' := insize in
        (* int64 accumulation *)
        let data_offset' := Np.wrap64 (data_offset + (last_offset' + 8)) in
        scan_int_loop fuel' file_size f' data_offset' last_offset'
                      in_offset_dict'
    end
  else Ok in_offset_dict.

Definition scan_int_start (fuel : nat) (sch_read : list byte)
  : result (list (Z * (Z * Z))) :=
  let file_size := Z.of_nat (length sch_read) in
  scan_int_loop fuel file_size (Np.open sch_read) 0 0 [].

(** The size in bytes of the samples of one auto-correlation record. *)
Definition auto_samples_size (nchunks : Z) : Z := 4 * 2 ^ 14 * nchunks * 2.

Definition ac_zero : ac_row :=
  {| ac_inhid := 0; achid := 0; antenna := 0; nchunks := 0; datasize := 0;
     ac_dataoff := 0; dhrs := le_split 8 0 |}.

(** [scan_auto_data]: the loop over the records of [autoCorrelations].
    [ac_data] is [None] until the first iteration has allocated it. *)
Fixpoint scan_auto_loop (fuel : nat) (file_size : Z) (f : file)
    (data_offset last_offset nchunks : Z) (marker : nat)
    (ac_data : option (list ac_row)) : result (list ac_row) :=
  if data_offset <? file_size then
    match fuel with
    | O => OutOfFuel
    | S fuel' =>
        '(auto_vals, f') ← Np.fromfile f 20 1 last_offset;
        let antenna_col :=
          (fun b => Np.int32_of (take 4 b)) <$> auto_vals in
        let nChunks_col :=
          (fun b => Np.int32_of (take 4 (drop 4 b))) <$> auto_vals in
        let scan_col :=
          (fun b => Np.int32_of (take 4 (drop 8 b))) <$> auto_vals in
        let dhrs_col := (fun b => drop 12 b) <$> auto_vals in
        '(nchunks', last_offset', ac_data') ←
          (if data_offset =? 0 then
             nchunks1 ←
               (if file_size mod (auto_samples_size nchunks + 20) =? 0
                then Ok nchunks
                else
                  declared ← Py.item nChunks_col 0;
                  if file_size mod (auto_samples_size declared + 20) =? 0
                  then Ok declared
                  else Raise (IndexError
                    "Could not determine auto-correlation record size!"));
             (* How big the record is for each data set *)
             let last_offset1 := auto_samples_size nchunks1 in
             zeroed ← Np.zeros ac_zero
                        (file_size / (auto_samples_size nchunks1 + 20));
             Ok (nchunks1, last_offset1, Some zeroed)
           else Ok (nchunks, last_offset, ac_data));
        scan ← Py.item scan_col 0;
        ant ← Py.item antenna_col 0;
        hrs ← Py.item dhrs_col 0;
        rows ← (match ac_data' with
                | Some rows => Ok rows
                | None => Raise UnboundLocalError
                end);
        let row :=
          {| ac_inhid := scan;
             achid := Np.wrap32 (Z.of_nat marker + 1);
             antenna := ant;
             nchunks := Np.wrap32 nchunks';
             datasize := Np.wrap32 (last_offset' + 20);
             ac_dataoff := Np.wrap64 data_offset;
             dhrs := hrs |} in
        rows' ← (if decide (marker < length rows)%nat
                 then Ok (<[marker := row]> rows)
                 else Raise out_of_bounds);
        scan_auto_loop fuel' file_size f' (data_offset + (last_offset' + 20))
                       last_offset' nchunks' (S marker) (Some rows')
    end
  else
    match ac_data with
    | Some rows => Ok rows
    | None => Raise UnboundLocalError
    end.

Definition scan_auto_data (fuel : nat) (autoCorrelations : list byte)
    (nchunks : Z) : result (list ac_row) :=
  let file_size := Z.of_nat (length autoCorrelations) in
  scan_auto_loop fuel file_size (Np.open autoCorrelations) 0 0 nchunks 0%nat
                 None.

(** *** Reading payload blocks *)

(** A record of [sch_read] as [read_vis_data] decodes it. *)
Record vis_record : Type := {
  rec_inhid : Z;
  nbyt : Z;
  packdata : list Z        (* int16 *)
}.

Definition decode_vis_record (bs : list byte) : vis_record :=
  {| rec_inhid := Np.int32_of (take 4 bs);
     nbyt := Np.int32_of (take 4 (drop 4 bs));
     packdata :=
       Np.int16_of <$>
         Np.chunks 2 (Nat.div (length bs - 8) 2) (drop 8 bs) |}.

(** The state of the loop of [read_vis_data]. *)
Record vis_reader : Type := {
  visibilities_file : file;
  rd_last_offset : Z;
  rd_last_size : Z;
  rd_num_vals : Z;
  rd_del_offset : Z;
  inhid_list : list Z;
  in_data_dict : gmap Z vis_record
}.

(** [np.fromfile] of [count] records of the dtype registered for
    [size], zipped with [ids] into the result dictionary. *)
Definition read_group (in_dtype_dict : gmap Z Z) (r : vis_reader)
  : result vis_reader :=
  npack ← Py.getitem in_dtype_dict (rd_last_size r);
  '(items, f') ← Np.fromfile (visibilities_file r) (8 + 2 * npack)
                   (rd_num_vals r) (rd_del_offset r);
  Ok {| visibilities_file := f';
        rd_last_offset := rd_last_offset r;
        rd_last_size := rd_last_size r;
        rd_num_vals := rd_num_vals r;
        rd_del_offset := rd_del_offset r;
        inhid_list := inhid_list r;
        in_data_dict :=
          Py.dict_update (in_data_dict r)
            (zip (inhid_list r) (decode_vis_record <$> items)) |}.

Definition read_vis_step (in_start_dict : list (Z * (Z * Z)))
    (in_dtype_dict : gmap Z Z) (r : vis_reader) (ind_key : Z)
  : result vis_reader :=
  '(in_size, in_start) ← Py.getitem_ordered in_start_dict ind_key;
  r1 ←
    (if negb (in_size =? rd_last_size r)
        || negb (Np.wrap64 (rd_last_offset r
                            + Np.wrap64 (rd_last_size r * rd_num_vals r))
                 =? in_start)
     then
       r' ← (if negb (rd_num_vals r =? 0) && negb (rd_last_size r =? 0)
             then read_group in_dtype_dict r else Ok r);
       Ok {| visibilities_file := visibilities_file r';
             rd_last_offset := in_start;
             rd_last_size := in_size;
             rd_num_vals := 0;
             rd_del_offset :=
               Np.wrap64 (in_start
                          - Np.wrap64 (rd_last_offset r
                                       + Np.wrap64 (rd_num_vals r
                                                    * rd_last_size r)));
             inhid_list := [];
             in_data_dict := in_data_dict r' |}
     else Ok r);
  Ok {| visibilities_file := visibilities_file r1;
        rd_last_offset := rd_last_offset r1;
        rd_last_size := rd_last_size r1;
        rd_num_vals := rd_num_vals r1 + 1;
        rd_del_offset := rd_del_offset r1;
        inhid_list := inhid_list r1 ++ [ind_key];
        in_data_dict := in_data_dict r1 |}.

(** The dtype registered for each record size: the number of int16
    elements of its [packdata] field. *)
Definition register_dtypes (size_list : list Z) : result (gmap Z Z) :=
  for_loop (fun d in_size =>
            let npack := (in_size - 8) / 2 in
            if npack <? 0 then Raise ValueError
            else Ok (<[in_size := npack]> d))
         ∅ size_list.

(** [read_vis_data]. *)
Definition read_vis_data (sch_read : list byte)
    (in_start_dict : list (Z * (Z * Z))) : result (gmap Z vis_record) :=
  let size_list := Np.unique ((fun e => e.2.1) <$> in_start_dict) in
  in_dtype_dict ← register_dtypes size_list;
  let r0 := {| visibilities_file := Np.open sch_read;
               rd_last_offset := 0; rd_last_size := 0; rd_num_vals := 0;
               rd_del_offset := 0; inhid_list := [];
               in_data_dict := ∅ |} in
  r ← for_loop (read_vis_step in_start_dict in_dtype_dict) r0
        (Py.sorted (in_start_dict.*1));
  (* Because of loop construct, run this one last time at the end *)
  r' ← (if negb (rd_num_vals r =? 0) then read_group in_dtype_dict r
        else Ok r);
  Ok (in_data_dict r').

(** *** The payload decoder *)

(** [read_vis_data(filepath, {inhid: in_start_dict[inhid]})[inhid]
    ["packdata"]]: the payload block of one integration, as int16
    elements. *)
Definition read_packdata (sch_read : list byte)
    (in_start_dict : list (Z * (Z * Z))) (inhid : Z) : result (list Z) :=
  entry ← Py.getitem_ordered in_start_dict inhid;
  d ← read_vis_data sch_read [(inhid, entry)];
  r ← Py.getitem d inhid;
  Ok (packdata r).

(** [np.multiply(scale[:, None], np.array(rows), dtype=np.single)]: each
    row of int16 mantissas, converted to single precision, times the
    scale factor of the row.  Rows of unequal length make an object
    array, which does not cast. *)
Definition multiply_rows (scale : list spec_float) (rows : list (list Z))
  : result (list (list spec_float)) :=
  match rows with
  | [] => Ok []
  | r0 :: _ =>
      if forallb (fun r => Nat.eqb (length r) (length r0)) rows then
        Ok (zip_with
              (fun s r => (fun x => Np.mul s (Np.single_of_int x)) <$> r)
              scale rows)
      else Raise TypeError
  end.

(** Consecutive (real, imaginary) pairs. *)
Fixpoint pair_up (l : list spec_float) : list csingle :=
  match l with
  | x :: y :: l' => {| re := x; im := y |} :: pair_up l'
  | _ => []
  end.

(** [.view(dtype=np.csingle)] on rows of [np.single]: a row must hold
    an even number of values. *)
Definition view_csingle (rows : list (list spec_float))
  : result (list (list csingle)) :=
  mapM (fun r => if Nat.even (length r) then Ok (pair_up r)
                 else Raise ValueError) rows.

(** The body of the loop over [unique_nch] in [parse_vis_data]; the
    loop state is [(vis_list, sp_pos_list)]. *)
Definition parse_vis_group (packdata : list Z)
    (dataoff_subarr nch_subarr : list Z) (sp_pos_subarr : list nat)
    (scale_fac : list spec_float)
    (acc : list (list csingle) * list nat) (spec_size : Z)
  : result (list (list csingle) * list nat) :=
  let pick := (fun n => spec_size =? n) <$> nch_subarr in
  (* int32 array plus one *)
  let start_list := (fun o => o + 1) <$> Np.compress pick dataoff_subarr in
  (* [spec_size * 2] is a scalar product, in int64 *)
  let end_list := (fun s => s + spec_size * 2) <$> start_list in
  temp ← multiply_rows (Np.compress pick scale_fac)
           (zip_with (Py.slice packdata) start_list end_list);
  temp_data ← view_csingle temp;
  (* Record where the data _should_ go in the list *)
  Ok (acc.1 ++ temp_data, acc.2 ++ Np.compress pick sp_pos_subarr).

(** The body of the loop over [unique_inhid] in [parse_vis_data]. *)
Definition parse_vis_block (sch_read : list byte)
    (in_start_dict : list (Z * (Z * Z)))
    (inhid_arr nch_arr dataoff_arr : list Z) (sp_pos : list nat)
    (unique_nch : list Z)
    (acc : list (list csingle) * list nat) (inhid : Z)
  : result (list (list csingle) * list nat) :=
  packdata ← read_packdata sch_read in_start_dict inhid;
  let data_mask := (fun i => i =? inhid) <$> inhid_arr in
  let dataoff_subarr := Np.compress data_mask dataoff_arr in
  let nch_subarr := Np.compress data_mask nch_arr in
  let sp_pos_subarr := Np.compress data_mask sp_pos in
  scales ← mapM (Py.index packdata) dataoff_subarr;
  let scale_fac := Np.power2 <$> scales in
  for_loop (parse_vis_group packdata dataoff_subarr nch_subarr
              sp_pos_subarr scale_fac)
           acc unique_nch.

(** [parse_vis_data]. *)
Definition parse_vis_data (sch_read : list byte)
    (in_start_dict : list (Z * (Z * Z))) (sp_data : list sp_row)
  : result (list (list csingle)) :=
  (* Gather the needed metadata *)
  let inhid_arr := sp_inhid <$> sp_data in
  let nch_arr := nch <$> sp_data in
  let dataoff_arr := (fun r => dataoff r / 2) <$> sp_data in
  let sp_pos := Py.range (length dataoff_arr) in
  let unique_inhid := Np.unique inhid_arr in
  let unique_nch := Np.unique nch_arr in
  '(vis_list, sp_pos_list) ←
    for_loop (parse_vis_block sch_read in_start_dict inhid_arr nch_arr
                dataoff_arr sp_pos unique_nch)
             ([], []) unique_inhid;
  (* Do a bit of order swapping so that things match with sp_read *)
  let sp_pos_dict :=
    Py.dict_of (zip sp_pos_list (Py.range (length sp_pos_list))) in
  mapM (fun idx => k ← Py.getitem sp_pos_dict idx; Py.item vis_list k)
       (Py.range (length sp_pos_list)).

(** The body of the loop over [unique_inhid] in [parse_raw_data]; the
    loop state is [(vis_list, scale_fac_list)]. *)
Definition parse_raw_block (sch_read : list byte)
    (in_start_dict : list (Z * (Z * Z)))
    (inhid_arr nch_arr dataoff_arr : list Z)
    (acc : list (list Z) * list Z) (inhid : Z)
  : result (list (list Z) * list Z) :=
  packdata ← read_packdata sch_read in_start_dict inhid;
  let data_mask := (fun i => i =? inhid) <$> inhid_arr in
  let dataoff_subarr := Np.compress data_mask dataoff_arr in
  let nch_subarr := Np.compress data_mask nch_arr in
  scales ← mapM (Py.index packdata) dataoff_subarr;
  let start_list := (fun o => o + 1) <$> dataoff_subarr in
  (* [nch_subarr * 2] is an int16 array times a Python int: int16 *)
  let end_list :=
    zip_with (fun s n => s + Np.wrap16 (n * 2)) start_list nch_subarr in
  Ok (acc.1 ++ zip_with (Py.slice packdata) start_list end_list,
      acc.2 ++ scales).

(** [parse_raw_data]. *)
Definition parse_raw_data (sch_read : list byte)
    (in_start_dict : list (Z * (Z * Z))) (sp_data : list sp_row)
  : result (list (list Z) * list Z) :=
  let inhid_arr := sp_inhid <$> sp_data in
  let nch_arr := nch <$> sp_data in
  let dataoff_arr := (fun r => dataoff r / 2) <$> sp_data in
  let unique_inhid := Np.unique inhid_arr in
  for_loop (parse_raw_block sch_read in_start_dict inhid_arr nch_arr
              dataoff_arr)
           ([], []) unique_inhid.

(** [.reshape((c, 2, 2 ** 14))] of a flat array; [-1] asks NumPy to
    infer the first dimension. *)
Definition reshape_chunks (c : Z) (vals : list spec_float)
  : result (list (list (list spec_float))) :=
  let n := Z.of_nat (length vals) in
  c' ← (if c =? -1 then
          if n mod 2 ^ 15 =? 0 then Ok (n / 2 ^ 15) else Raise ValueError
        else if c <? 0 then Raise ValueError
        else if c * 2 ^ 15 =? n then Ok c
        else Raise ValueError);
  Ok (Np.chunks 2 (Z.to_nat c')
        (Np.chunks (Z.to_nat (2 ^ 14)) (2 * Z.to_nat c') vals)).

(** [read_auto_data]; [winsel] is an integer array or [None]. *)
Definition read_auto_data (autoCorrelations : list byte)
    (ac_data : list ac_row) (winsel : option (list Z))
  : result (list (list (list (list spec_float)))) :=
  winsel ← (match winsel with
            | None => n ← Py.item (nchunks <$> ac_data) 0; Ok (Np.arange n)
            | Some w => Ok w
            end);
  let dataoff := ac_dataoff <$> ac_data in
  let datasize := datasize <$> ac_data in
  first ← Py.item dataoff 0;
  let del_offset :=
    first :: zip_with (fun d s => Np.wrap64 (d - s)) (Np.diff dataoff)
               (Py.slice datasize 0 (-1)) in
  let nvals :=
    (fun r => Np.wrap32 (Np.wrap32 (nchunks r * 2) * 2 ^ 14)) <$> ac_data in
  let nchunks := nchunks <$> ac_data in
  '(_, auto_data) ←
    for_loop
      (fun '(auto_file, auto_data) idx =>
         count ← Py.item nvals idx;
         del ← Py.item del_offset idx;
         c ← Py.item nchunks idx;
         '(items, auto_file') ←
           Np.fromfile auto_file 4 count (Np.wrap64 (20 + del));
         cube ← reshape_chunks c (Np.single_of <$> items);
         picked ← mapM (Py.index cube) winsel;
         Ok (auto_file', auto_data ++ [picked]))
      (Np.open autoCorrelations, []) (Py.range (length dataoff));
  Ok auto_data.

(** *** Loading and construction *)

Definition with_cache (st : parser) (c : payload) : parser :=
  {| filepath := filepath st; tabs := tabs st; sel := sel st;
     flt := flt st; data := data st; dicts := dicts st; cache := c |}.

(** [load_data]. *)
Definition load_data (st : parser) (load_vis load_raw load_auto : bool)
  : result parser :=
  '(_, st) ← _update_filter st;
  let sch := sch_read (filepath st) in
  c1 ← (if load_vis then
          vis ← parse_vis_data sch (in_start_dict (tabs st))
                  (sp_data (data st));
          Ok {| vis_data := Some vis;
                raw_data := raw_data (cache st);
                auto_data := auto_data (cache st);
                raw_scale_fac := raw_scale_fac (cache st);
                vis_data_loaded := Some true;
                raw_data_loaded := raw_data_loaded (cache st) |}
        else Ok (cache st));
  c2 ← (if load_raw then
          '(raw, fac) ← parse_raw_data sch (in_start_dict (tabs st))
                          (sp_data (data st));
          Ok {| vis_data := vis_data c1;
                raw_data := Some raw;
                auto_data := auto_data c1;
                raw_scale_fac := Some fac;
                vis_data_loaded := vis_data_loaded c1;
                raw_data_loaded := Some true |}
        else Ok c1);
  c3 ← (if load_auto then
          let winsel := Np.unique (corrchunk <$> sp_data (data st)) in
          let winsel :=
            (fun w => w - 1) <$> filter (fun w => w ≠ 0) winsel in
          auto ← read_auto_data (autoCorrelations (filepath st))
                   (ac_data (data st)) (Some winsel);
          Ok {| vis_data := vis_data c2;
                raw_data := raw_data c2;
                auto_data := Some auto;
                raw_scale_fac := raw_scale_fac c2;
                vis_data_loaded := vis_data_loaded c2;
                raw_data_loaded := raw_data_loaded c2 |}
        else Ok c2);
  Ok (with_cache st c3).

(** A data set on disk: the rows [np.fromfile] decodes from the six
    table files under their fixed layouts, the antenna positions, and
    the bytes of the two files that are scanned and decoded on
    demand. *)
Record dataset : Type := {
  in_file : list in_row;
  eng_file : list eng_row;
  bl_file : list bl_row;
  sp_file : list sp_row;
  codes_file : list codes_row;
  we_file : list we_row;
  antennas : list antpos_row;
  blobs : folder
}.

(** The parser [__init__] builds before it calls [load_data]: masks and
    filters all true, views equal to the tables, nothing loaded. *)
Definition fresh (ds : dataset) (ac : list ac_row)
    (index : list (Z * (Z * Z))) : parser :=
  {| filepath := blobs ds;
     tabs := {| in_read := in_file ds; eng_read := eng_file ds;
                bl_read := bl_file ds; sp_read := sp_file ds;
                codes_read := codes_file ds; we_read := we_file ds;
                ac_read := ac; in_start_dict := index;
                antpos_data := antennas ds |};
     sel := {| use_in := Np.ones (length (in_file ds));
               use_bl := Np.ones (length (bl_file ds));
               use_sp := Np.ones (length (sp_file ds)) |};
     flt := {| in_filter := Np.ones (length (in_file ds));
               eng_filter := Np.ones (length (eng_file ds));
               bl_filter := Np.ones (length (bl_file ds));
               sp_filter := Np.ones (length (sp_file ds));
               we_filter := Np.ones (length (we_file ds));
               ac_filter := Np.ones (length ac) |};
     data := {| in_data := in_file ds; eng_data := eng_file ds;
                bl_data := bl_file ds; sp_data := sp_file ds;
                codes_data := codes_file ds; we_data := we_file ds;
                ac_data := ac |};
     dicts := {| inhid_dict := ∅; blhid_dict := ∅; sphid_dict := ∅ |};
     cache := {| vis_data := None; raw_data := None; auto_data := None;
                 raw_scale_fac := None; vis_data_loaded := None;
                 raw_data_loaded := None |} |}.

(** [__init__]. *)
Definition __init__ (fuel : nat) (ds : dataset)
    (load_vis load_raw load_auto : bool) : result parser :=
  ac ← scan_auto_data fuel (autoCorrelations (blobs ds)) 8;
  index ← scan_int_start fuel (sch_read (blobs ds));
  load_data (fresh ds ac index) load_vis load_raw load_auto.

End MirParser.

Module Mir.

(** [{key: key in chosen for key in full_list}]. *)
Definition membership_dict (full_list chosen : list Z) : gmap Z bool :=
  Py.dict_of ((fun key => (key, bool_decide (key ∈ chosen))) <$> full_list).

(** [l.remove(0) if 0 in l else None]: the first zero taken out. *)
Fixpoint remove_zero (l : list Z) : list Z :=
  match l with
  | [] => []
  | x :: l' => if x =? 0 then l' else x :: remove_zero l'
  end.

(** [read_mir], lines 62 to 128: the parser is built, the keyword
    arguments are turned into the three [use_] masks, the filters are
    updated and an empty result is refused.  The value is the parser
    handed on to the mapping into the [UVData] attributes, which is not
    part of this model.  The keyword arguments carry the suffix [_kw];
    [None] is an argument left at its default. *)
Definition read_mir (fuel : nat) (ds : MirParser.dataset)
    (isource_kw : option (list Z)) (irec_kw : option Z)
    (isb_kw : option (list Z)) (corrchunk_kw : option (list Z))
    (pseudo_cont : bool) : result parser :=
  (* Use the mir_parser to read in metadata *)
  mir_data ← MirParser.__init__ fuel ds false false false;
  let t := tabs mir_data in
  let isource_full_list := Np.unique (isource <$> in_read t) in
  let isource_sel :=
    match isource_kw with None => isource_full_list | Some l => l end in
  (* Grab the list of sources we want to select on *)
  let isource_dict := membership_dict isource_full_list isource_sel in
  if Nat.eqb (size isource_dict) 0 then
    Raise (IndexError "No valid sources selected!")
  else
    (* Select out the receiver that we want to deal with *)
    irec_sel ← (match irec_kw with
                | None => Py.item (irec <$> bl_read t) 0
                | Some r => Ok r
                end);
    let isb_full_list := Np.unique (isb <$> bl_read t) in
    let isb_sel :=
      match isb_kw with None => isb_full_list | Some l => l end in
    let isb_dict := membership_dict isb_full_list isb_sel in
    if Nat.eqb (length isb_sel) 0 then
      Raise (IndexError "No valid sidebands selected!")
    else if negb (forallb (fun key => bool_decide (key ∈ isb_full_list))
                           isb_sel)
    then Raise (IndexError "isb values contain invalid entries")
    else
      let corrchunk_full_list := Np.unique (corrchunk <$> sp_read t) in
      let corrchunk_sel :=
        match corrchunk_kw with
        | None => if pseudo_cont then [0]
                  else remove_zero corrchunk_full_list
        | Some l => l
        end in
      let corrchunk_dict := membership_dict corrchunk_full_list corrchunk_sel
      in
      use_in' ← MirParser.lookup_all isource_dict (isource <$> in_read t);
      by_isb ← MirParser.lookup_all isb_dict (isb <$> bl_read t);
      by_rec ← Np.logical_and ((fun r => irec r =? irec_sel) <$> bl_read t)
                              ((fun r => ipol r =? 0) <$> bl_read t);
      use_bl' ← Np.logical_and by_rec by_isb;
      use_sp' ← MirParser.lookup_all corrchunk_dict
                  (corrchunk <$> sp_read t);
      let selected :=
        {| filepath := filepath mir_data; tabs := tabs mir_data;
           sel := {| use_in := use_in'; use_bl := use_bl';
                     use_sp := use_sp' |};
           flt := flt mir_data; data := data mir_data;
           dicts := dicts mir_data; cache := cache mir_data |} in
      (* Update the filters *)
      '(_, mir_data) ← MirParser._update_filter selected;
      if Nat.eqb (length (in_data (data mir_data))) 0 then
        Raise (IndexError "No valid records matching those selections!")
      else Ok mir_data.

End Mir.

(** ** Notions used to state the properties *)

(** A key resolves to row [k] of a key column when a dictionary built
    from the column maps the key to that row: [k] is the last row that
    carries the key, and the only one when keys are unique. *)
Definition resolves {K : Type} (keys : list K) (key : K) (k : nat) : Prop :=
  keys !! k = Some key /\ forall k', (k < k')%nat -> keys !! k' <> Some key.

(** The [use_] masks have the length of the table they select from. *)
Definition masks_fit (t : tables) (m : masks) : Prop :=
  length (use_in m) = length (in_read t) /\
  length (use_bl m) = length (bl_read t) /\
  length (use_sp m) = length (sp_read t).

(** The run of [derive_filters] in which no lookup fails, step by step:
    the four lookup lists and the first baseline filter it passes
    through on the way to the filters [f]. *)
Inductive derivation (t : tables) (m : masks) (f : filters) : Prop :=
| Derivation (looked1 bl_filter1 looked2 looked3 looked4 : list bool)
    (step1 :
       MirParser.lookup_all
         (Py.dict_of (zip (in_inhid <$> in_read t) (use_in m)))
         (bl_inhid <$> bl_read t) = Ok looked1)
    (step2 : bl_filter1 = zip_with andb (use_bl m) looked1)
    (step3 :
       MirParser.lookup_all
         (Py.dict_of (zip (blhid <$> bl_read t) bl_filter1))
         (sp_blhid <$> sp_read t) = Ok looked2)
    (step4 : sp_filter f = zip_with andb (use_sp m) looked2)
    (step5 :
       MirParser.lookup_all
         (Py.dict_update
            (Py.dict_of (MirParser.dict_const (blhid <$> bl_read t) false))
            (MirParser.dict_const
               (Np.unique
                  (Np.compress (sp_filter f) (sp_blhid <$> sp_read t)))
               true))
         (blhid <$> bl_read t) = Ok looked3)
    (step6 : bl_filter f = zip_with andb bl_filter1 looked3)
    (step7 :
       MirParser.lookup_all
         (Py.dict_update
            (Py.dict_of (MirParser.dict_const (in_inhid <$> in_read t) false))
            (MirParser.dict_const
               (Np.unique
                  (Np.compress (bl_filter f) (bl_inhid <$> bl_read t)))
               true))
         (in_inhid <$> in_read t) = Ok looked4)
    (step8 : in_filter f = zip_with andb (use_in m) looked4)
    (step_eng :
       MirParser.lookup_all
         (Py.dict_of (zip (in_inhid <$> in_read t) (in_filter f)))
         (eng_inhid <$> eng_read t) = Ok (eng_filter f))
    (step_we :
       MirParser.lookup_all
         (Py.dict_of (zip (in_inhid <$> in_read t) (in_filter f)))
         (scanNumber <$> we_read t) = Ok (we_filter f))
    (step_ac :
       MirParser.lookup_all
         (Py.dict_of (zip (in_inhid <$> in_read t) (in_filter f)))
         (ac_inhid <$> ac_read t) = Ok (ac_filter f)).

(** The caller assigns the three [use_] masks. *)
Definition select (st : parser) (m : masks) : parser :=
  {| filepath := filepath st; tabs := tabs st; sel := m; flt := flt st;
     data := data st; dicts := dicts st; cache := cache st |}.

(** The parsers a caller can hold: the one [__init__] builds for a data
    set, and those obtained from it by assigning the masks and by calls
    of [_update_filter], [load_data] and [unload_data] that return. *)
Inductive reachable : parser -> Prop :=
| reach_fresh ds ac index : reachable (MirParser.fresh ds ac index)
| reach_select st m : reachable st -> reachable (select st m)
| reach_update st changed st' :
    reachable st ->
    MirParser._update_filter st = Ok (changed, st') -> reachable st'
| reach_load st load_vis load_raw load_auto st' :
    reachable st ->
    MirParser.load_data st load_vis load_raw load_auto = Ok st' ->
    reachable st'
| reach_unload st : reachable st -> reachable (MirParser.unload_data st).

(** The filtered tables are the slices of the full tables by the
    current filters; for the three tables filtered through [in_filter]
    the slice is by the filter [in_filter] determines. *)
Definition views_current (st : parser) : Prop :=
  let t := tabs st in
  let d := Py.dict_of (zip (in_inhid <$> in_read t) (in_filter (flt st))) in
  Np.bool_index (in_read t) (in_filter (flt st)) = Ok (in_data (data st)) /\
  Np.bool_index (bl_read t) (bl_filter (flt st)) = Ok (bl_data (data st)) /\
  Np.bool_index (sp_read t) (sp_filter (flt st)) = Ok (sp_data (data st)) /\
  (forall ef, MirParser.lookup_all d (eng_inhid <$> eng_read t) = Ok ef ->
              eng_data (data st) = Np.compress ef (eng_read t)) /\
  (forall wf, MirParser.lookup_all d (scanNumber <$> we_read t) = Ok wf ->
              we_data (data st) = Np.compress wf (we_read t)) /\
  (forall af, MirParser.lookup_all d (ac_inhid <$> ac_read t) = Ok af ->
              ac_data (data st) = Np.compress af (ac_read t)) /\
  codes_data (data st) = codes_read t.

(** Raw mantissas turned into visibilities by hand: each mantissa times
    two to the power of the scale factor of its record, in single
    precision, consecutive values paired into complex samples. *)
Definition rescale (raw : list (list Z)) (scale_fac : list Z)
  : list (list csingle) :=
  zip_with
    (fun row s =>
       MirParser.pair_up
         ((fun x => Np.mul (Np.power2 s) (Np.single_of_int x)) <$> row))
    raw scale_fac.

(** The payload block of an integration: the index places a record of
    [size] bytes at [start], inside the file, and the block is the
    int16 elements of its payload. *)
Definition block_at (sch_read : list byte) (index : list (Z * (Z * Z)))
    (inhid : Z) (block : list Z) : Prop :=
  exists size start,
    Py.assoc index inhid = Some (size, start) /\
    0 <= start /\ 8 <= size /\
    start + size <= Z.of_nat (length sch_read) /\
    block =
      Np.int16_of <$>
        Np.chunks 2 (Z.to_nat ((size - 8) / 2))
          (drop (Z.to_nat (start + 8)) sch_read).

(** The element of a block at which the packed data of a spectral
    record start: its byte offset halved. *)
Definition first_element (r : sp_row) : nat := Z.to_nat (dataoff r / 2).

(** The packed data of a spectral record lie inside a block: the scale
    factor and the [2 * nch] mantissas are all there. *)
Definition placed (block : list Z) (r : sp_row) : Prop :=
  0 <= dataoff r / 2 /\ 0 <= nch r /\
  dataoff r / 2 + 1 + 2 * nch r <= Z.of_nat (length block).

(** The rational a binary32 number stands for; infinities and NaN stand
    for none. *)
Definition value (x : spec_float) : option Q :=
  match x with
  | S754_zero _ => Some 0%Q
  | S754_finite s m e =>
      Some (inject_Z (if s then Z.neg m else Z.pos m) * Qpower 2 e)%Q
  | _ => None
  end.

(** A binary32 number is exactly the rational [q]. *)
Definition exactly (x : spec_float) (q : Q) : Prop :=
  exists v, value x = Some v /\ Qeq v q.

(** The product of two to the power [s] and the mantissa [x], in
    single precision, is the rational [x * 2 ^ s]: decided. *)
Definition exact_product (s x : Z) : bool :=
  match value (Np.mul (Np.power2 s) (Np.single_of_int x)) with
  | Some v => Qeq_bool v (inject_Z x * 2 ^ s)%Q
  | None => false
  end.

(** The visibilities of a spectral record, read off its block: the
    mantissas after the scale factor, each times two to the scale
    factor, paired. *)
Definition spectrum (block : list Z) (r : sp_row) : list csingle :=
  let s := default 0 (block !! first_element r) in
  MirParser.pair_up
    ((fun x => Np.mul (Np.power2 s) (Np.single_of_int x)) <$>
       take (2 * Z.to_nat (nch r)) (drop (S (first_element r)) block)).

(** The rows of a table with their positions. *)
Definition indexed {A : Type} (l : list A) : list (nat * A) :=
  zip (seq 0 (length l)) l.

(** The block [read_packdata] finds for an integration, empty when the
    call raises. *)
Definition block_of (sch_read : list byte) (index : list (Z * (Z * Z)))
    (inhid : Z) : list Z :=
  match MirParser.read_packdata sch_read index inhid with
  | Ok block => block
  | _ => []
  end.

(** The spectral records [parse_vis_data] decodes together: those of
    one integration with one channel count, with their positions. *)
Definition batch (rows : list (nat * sp_row)) (inhid spec_size : Z)
  : list (nat * sp_row) :=
  filter (fun ir => nch ir.2 = spec_size)
         (filter (fun ir => sp_inhid ir.2 = inhid) rows).

(** The order in which [parse_vis_data] decodes the records. *)
Definition decode_order (rows : list (nat * sp_row)) : list (nat * sp_row) :=
  Np.unique ((fun ir => sp_inhid ir.2) <$> rows) ≫= fun inhid =>
  Np.unique ((fun ir => nch ir.2) <$> rows) ≫= fun spec_size =>
  batch rows inhid spec_size.

(** ** Synthetic files

    The on-disk form of the two blobs, used to state the properties of
    the scans and to build the sample data set. *)

Module Blob.

(** A record of [sch_read]: the integration id, the payload size in
    bytes, the payload. *)
Definition vis_record_bytes (r : Z * list byte) : list byte :=
  le_split 4 r.1 ++ le_split 4 (Z.of_nat (length r.2)) ++ r.2.

(** The file made of the given records, in order. *)
Definition vis_blob (records : list (Z * list byte)) : list byte :=
  concat (vis_record_bytes <$> records).

(** The offset index of a blob whose first record starts at [start]:
    for each record, in file order, its id, its size with the header,
    and its offset. *)
Fixpoint index_from (start : Z) (records : list (Z * list byte))
  : list (Z * (Z * Z)) :=
  match records with
  | [] => []
  | r :: rest =>
      (r.1, (Z.of_nat (length r.2) + 8, start))
        :: index_from (start + (Z.of_nat (length r.2) + 8)) rest
  end.

Definition index_of (records : list (Z * list byte)) : list (Z * (Z * Z)) :=
  index_from 0 records.

(** An id that fits int32 and a payload whose size does. *)
Definition record_fits (r : Z * list byte) : Prop :=
  - 2 ^ 31 <= r.1 < 2 ^ 31 /\ Z.of_nat (length r.2) < 2 ^ 31.

(** The sizes and the offsets an index records. *)
Definition sizes (index : list (Z * (Z * Z))) : list Z :=
  (fun e => e.2.1) <$> index.
Definition offsets (index : list (Z * (Z * Z))) : list Z :=
  (fun e => e.2.2) <$> index.
Definition total (l : list Z) : Z := foldr Z.add 0 l.

(** The packed data of one spectral record: the scale factor and the
    mantissas, as int16. *)
Definition packed (values : list Z) : list byte :=
  concat (le_split 2 <$> values).

(** A record of [autoCorrelations]: the header and the samples. *)
Definition auto_record_bytes (antenna nChunks scan : Z)
    (samples : list byte) : list byte :=
  le_split 4 antenna ++ le_split 4 nChunks ++ le_split 4 scan
    ++ le_split 8 0 ++ samples.

End Blob.

(** ** A sample data set

    Two integrations, one baseline each, two spectral records of two
    channels per baseline. *)

Module Sample.

Definition in_rows : list in_row :=
  [ {| in_inhid := 1; isource := 1; in_columns := [] |};
    {| in_inhid := 2; isource := 1; in_columns := [] |} ].

Definition eng_rows : list eng_row :=
  [ {| eng_inhid := 1; eng_columns := [] |};
    {| eng_inhid := 2; eng_columns := [] |} ].

Definition bl_rows : list bl_row :=
  [ {| blhid := 1; bl_inhid := 1; isb := 0; ipol := 0; irec := 0;
       bl_columns := [] |};
    {| blhid := 2; bl_inhid := 2; isb := 0; ipol := 0; irec := 0;
       bl_columns := [] |} ].

Definition sp_rows : list sp_row :=
  [ {| sphid := 1; sp_blhid := 1; sp_inhid := 1; nch := 2; dataoff := 0;
       corrchunk := 1; sp_columns := [] |};
    {| sphid := 2; sp_blhid := 1; sp_inhid := 1; nch := 2; dataoff := 10;
       corrchunk := 2; sp_columns := [] |};
    {| sphid := 3; sp_blhid := 2; sp_inhid := 2; nch := 2; dataoff := 0;
       corrchunk := 1; sp_columns := [] |};
    {| sphid := 4; sp_blhid := 2; sp_inhid := 2; nch := 2; dataoff := 10;
       corrchunk := 2; sp_columns := [] |} ].

Definition we_rows : list we_row :=
  [ {| scanNumber := 1; we_columns := [] |};
    {| scanNumber := 2; we_columns := [] |} ].

(** The visibility blob: per integration the two packed spectra. *)
Definition vis_records : list (Z * list byte) :=
  [ (1, Blob.packed [0; 3; -2; 1; 1] ++ Blob.packed [4; 3; -2; 0; 5]);
    (2, Blob.packed [-3; 3; -2; 7; 7] ++ Blob.packed [1; -1; 2; -3; 4]) ].

(** The auto-correlation blob: one antenna per integration, eight
    chunks of zero samples. *)
Definition zero_samples (nChunks : Z) : list byte :=
  replicate (Z.to_nat (MirParser.auto_samples_size nChunks)) Byte.x00.

Definition auto_blob : list byte :=
  Blob.auto_record_bytes 1 8 1 (zero_samples 8)
    ++ Blob.auto_record_bytes 1 8 2 (zero_samples 8).

Definition files : folder :=
  {| sch_read := Blob.vis_blob vis_records; autoCorrelations := auto_blob |}.

Definition ds : MirParser.dataset :=
  {| MirParser.in_file := in_rows; MirParser.eng_file := eng_rows;
     MirParser.bl_file := bl_rows; MirParser.sp_file := sp_rows;
     MirParser.codes_file := []; MirParser.we_file := we_rows;
     MirParser.antennas := []; MirParser.blobs := files |}.

(** What the two scans find in the sample files. *)
Definition ac_rows : list ac_row :=
  [ {| ac_inhid := 1; achid := 1; antenna := 1; nchunks := 8;
       datasize := 1048596; ac_dataoff := 0; dhrs := le_split 8 0 |};
    {| ac_inhid := 2; achid := 2; antenna := 1; nchunks := 8;
       datasize := 1048596; ac_dataoff := 1048596; dhrs := le_split 8 0 |} ].

Definition index : list (Z * (Z * Z)) := [(1, (28, 0)); (2, (28, 28))].

(** The parser as constructed, and after the caller has deselected the
    two spectral records of the first baseline. *)
Definition constructed : parser := MirParser.fresh ds ac_rows index.

Definition deselected : parser :=
  select constructed
    {| use_in := [true; true]; use_bl := [true; true];
       use_sp := [false; false; true; true] |}.

(** The filters the engine derives for [deselected]: the first baseline
    and the first integration lose all their records and drop out. *)
Definition narrowed : filters :=
  {| in_filter := [false; true]; eng_filter := [false; true];
     bl_filter := [false; true]; sp_filter := [false; false; true; true];
     we_filter := [false; true]; ac_filter := [false; true] |}.

Definition narrowed_views : views :=
  {| in_data := drop 1 in_rows; eng_data := drop 1 eng_rows;
     bl_data := drop 1 bl_rows; sp_data := drop 2 sp_rows;
     codes_data := []; we_data := drop 1 we_rows;
     ac_data := drop 1 ac_rows |}.

Definition filtered : parser :=
  {| filepath := files; tabs := tabs constructed; sel := sel deselected;
     flt := narrowed; data := narrowed_views;
     dicts := MirParser.index_views narrowed_views;
     cache := cache constructed |}.

(** An auto-correlation file of two records of three chunks each, and
    the same file with its headers declaring four chunks. *)
Definition auto_three_chunks : list byte :=
  Blob.auto_record_bytes 1 3 1 (zero_samples 3)
    ++ Blob.auto_record_bytes 2 3 1 (zero_samples 3).

Definition auto_misdeclared : list byte :=
  Blob.auto_record_bytes 1 4 1 (zero_samples 3)
    ++ Blob.auto_record_bytes 2 4 1 (zero_samples 3).

(** An auto-correlation file whose header declares minus one chunk and
    whose size is a multiple of the record size that follows from it,
    and a file that ends inside its first header. *)
Definition auto_negative : list byte :=
  Blob.auto_record_bytes 1 (-1) 1 (replicate (Z.to_nat 131032) Byte.x00).

Definition auto_stub : list byte := replicate 10 Byte.x00.

(** A blob cut short: the header declares 100 bytes of payload and 10
    follow. *)
Definition truncated : list byte :=
  le_split 4 1 ++ le_split 4 100 ++ replicate 10 Byte.x00.

(** The spectral-record table with the second integration listed
    first. *)
Definition sp_rows_swapped : list sp_row := drop 2 sp_rows ++ take 2 sp_rows.

(** One integration with one single-channel record whose scale factor
    is 127 and whose mantissas are 3 and -2. *)
Definition vis_records_large : list (Z * list byte) :=
  [ (1, Blob.packed [127; 3; -2]) ].

Definition sp_rows_large : list sp_row :=
  [ {| sphid := 1; sp_blhid := 1; sp_inhid := 1; nch := 1; dataoff := 0;
       corrchunk := 1; sp_columns := [] |} ].

End Sample.

(** ** Further notions *)

(** The record of [sch_read] the offset index points at for an
    integration, decoded: the bytes from the entry's offset, as many as
    the entry's size. *)
Definition record_at (sch_read : list byte) (index : list (Z * (Z * Z)))
    (inhid : Z) : option MirParser.vis_record :=
  match Py.assoc index inhid with
  | Some (size, start) =>
      Some (MirParser.decode_vis_record
              (take (Z.to_nat size) (drop (Z.to_nat start) sch_read)))
  | None => None
  end.

(** An entry of the offset index that points at a whole record inside
    the file, of an even number of bytes. *)
Definition entry_fits (sch_read : list byte) (e : Z * (Z * Z)) : Prop :=
  8 <= e.2.1 /\ e.2.1 mod 2 = 0 /\ 0 <= e.2.2 /\
  e.2.2 + e.2.1 <= Z.of_nat (length sch_read).

(** The state of the loop of [read_vis_data] after the keys
    [flushed ++ pend]: the records of [flushed] are in the dictionary,
    those of [pend] are consecutive in the file, of one size, and
    waiting to be read in one go from where the cursor will be moved
    to. *)
Definition reader_inv (sch_read : list byte) (index : list (Z * (Z * Z)))
    (flushed pend : list Z) (r : MirParser.vis_reader) : Prop :=
  content (MirParser.visibilities_file r) = sch_read /\
  MirParser.inhid_list r = pend /\
  MirParser.rd_num_vals r = Z.of_nat (length pend) /\
  pos (MirParser.visibilities_file r) + MirParser.rd_del_offset r
    = MirParser.rd_last_offset r /\
  (pend = [] ->
   MirParser.rd_last_size r = 0 /\ MirParser.rd_last_offset r = 0 /\
   pos (MirParser.visibilities_file r) = 0) /\
  (forall j key, pend !! j = Some key ->
     Py.assoc index key =
       Some (MirParser.rd_last_size r,
             MirParser.rd_last_offset r
             + Z.of_nat j * MirParser.rd_last_size r)) /\
  (forall k, MirParser.in_data_dict r !! k =
             if decide (k ∈ flushed) then record_at sch_read index k
             else None).

(** The order in which [parse_raw_data] returns the spectral records:
    integration by integration in ascending id, and within an
    integration in the order of the table. *)
Definition raw_order (table : list sp_row) : list sp_row :=
  Np.unique (sp_inhid <$> table) ≫= fun inhid =>
  filter (fun r => sp_inhid r = inhid) table.

(** ** Further data sets *)

Module Example.

(** The sample data set with one more weather row, whose scan number
    is the id of no integration. *)
Definition ds_stray_weather : MirParser.dataset :=
  {| MirParser.in_file := Sample.in_rows;
     MirParser.eng_file := Sample.eng_rows;
     MirParser.bl_file := Sample.bl_rows;
     MirParser.sp_file := Sample.sp_rows;
     MirParser.codes_file := [];
     MirParser.we_file :=
       Sample.we_rows ++ [ {| scanNumber := 9; we_columns := [] |} ];
     MirParser.antennas := [];
     MirParser.blobs := Sample.files |}.

Definition stray_weather : parser :=
  MirParser.fresh ds_stray_weather Sample.ac_rows Sample.index.

(** A visibility blob in which the integration id 1 comes twice. *)
Definition vis_records_repeated : list (Z * list byte) :=
  [ (1, Blob.packed [0; 3; -2]);
    (2, Blob.packed [1; 5; 5]);
    (1, Blob.packed [4; 1; 1; 2; 2]) ].

End Example.

(** * Properties *)

(** ** The result monad *)

Lemma bind_Ok {A B : Type} (m : result A) (f : A -> result B) (b : B) :
  m ≫= f = Ok b -> exists a, m = Ok a /\ f a = Ok b.
Proof. destruct m as [a|e|]; [eauto | discriminate | discriminate]. Qed.

Ltac inv_bind H :=
  let a := fresh "x" in
  let E := fresh "E" in
  apply bind_Ok in H; destruct H as (a & E & H).

Ltac inv_binds H :=
  repeat (apply bind_Ok in H;
          let a := fresh "x" in
          let E := fresh "E" in
          destruct H as (a & E & H)).

Lemma mapM_Ok {A B : Type} (f : A -> result B) (l : list A) (r : list B) :
  mapM f l = Ok r <-> Forall2 (fun x y => f x = Ok y) l r.
Proof.
  revert r. induction l as [|x l IH]; intros r; simpl.
  - split.
    + intros [= <-]. constructor.
    + intros H. inversion H. reflexivity.
  - split.
    + intros H. inv_bind H. inv_bind H. injection H as <-.
      constructor; [assumption | by apply IH].
    + intros H. inversion H as [|? y ? k Hy Hk]; subst.
      rewrite Hy. simpl. apply IH in Hk. rewrite Hk. reflexivity.
Qed.

Lemma lookup_all_Ok {V : Type} (d : gmap Z V) keys (r : list V) :
  MirParser.lookup_all d keys = Ok r ->
  length r = length keys /\
  forall i key, keys !! i = Some key -> exists v, r !! i = Some v /\ d !! key = Some v.
Proof.
  unfold MirParser.lookup_all. rewrite mapM_Ok. intros H. split.
  - symmetry. eapply Forall2_length, H.
  - intros i key Hi. destruct (Forall2_lookup_l _ _ _ _ _ H Hi) as (v & Hv & Hg).
    exists v. split; [assumption|]. unfold Py.getitem in Hg.
    destruct (d !! key); congruence.
Qed.

Lemma getitem_Some {V : Type} (d : gmap Z V) key v :
  d !! key = Some v -> Py.getitem d key = Ok v.
Proof. intros H. unfold Py.getitem. by rewrite H. Qed.

Lemma getitem_nat {V : Type} (d : gmap nat V) key v :
  d !! key = Some v -> Py.getitem d key = Ok v.
Proof. intros H. unfold Py.getitem. by rewrite H. Qed.

Lemma lookup_all_total {V : Type} (d : gmap Z V) keys :
  (forall key, key ∈ keys -> is_Some (d !! key)) ->
  exists r, MirParser.lookup_all d keys = Ok r.
Proof.
  induction keys as [|key keys IH]; intros H.
  - exists []. reflexivity.
  - destruct (H key) as [v Hv]; [left|].
    destruct IH as [r Hr]; [intros; apply H; by right|].
    exists (v :: r). apply mapM_Ok. constructor.
    + by apply getitem_Some.
    + by apply mapM_Ok.
Qed.

(** ** NumPy helpers *)

Lemma logical_and_fit (a b : list bool) :
  length a = length b -> Np.logical_and a b = Ok (zip_with andb a b).
Proof. intros H. unfold Np.logical_and. by rewrite decide_True. Qed.

Lemma zip_with_andb_true (a b : list bool) i :
  zip_with andb a b !! i = Some true <->
  a !! i = Some true /\ b !! i = Some true.
Proof.
  rewrite lookup_zip_with_Some. split.
  - intros (x & y & Hxy & Hx & Hy). symmetry in Hxy.
    apply andb_true_iff in Hxy as [-> ->]. auto.
  - intros [Ha Hb]. exists true, true. auto.
Qed.

Lemma bool_index_Ok {A : Type} (a : list A) mask r :
  Np.bool_index a mask = Ok r -> length mask = length a /\ r = Np.compress mask a.
Proof.
  unfold Np.bool_index. case_decide; [|discriminate]. intros [= <-]. auto.
Qed.

Lemma bool_index_fit {A : Type} (a : list A) mask :
  length mask = length a -> Np.bool_index a mask = Ok (Np.compress mask a).
Proof. intros H. unfold Np.bool_index. by rewrite decide_True. Qed.

Lemma elem_of_compress {A : Type} (mask : list bool) (a : list A) x :
  x ∈ Np.compress mask a <->
  exists i, mask !! i = Some true /\ a !! i = Some x.
Proof.
  revert a. induction mask as [|b mask IH]; intros [|y a]; simpl.
  - split; [by intros ?%elem_of_nil | by intros (i & ? & ?)].
  - split; [by intros ?%elem_of_nil | by intros (i & ? & ?)].
  - split; [by intros ?%elem_of_nil | by intros (i & ? & ?)].
  - destruct b.
    + rewrite elem_of_cons, IH. split.
      * intros [->|(i & ? & ?)]; [by exists 0%nat | by exists (S i)].
      * intros ([|i] & Hm & Ha); simpl in *; [left; congruence | right; eauto].
    + rewrite IH. split.
      * intros (i & ? & ?). by exists (S i).
      * intros ([|i] & Hm & Ha); simpl in *; [discriminate | eauto].
Qed.

Lemma compress_all_true {A : Type} (a : list A) :
  Np.compress (replicate (length a) true) a = a.
Proof. induction a as [|x a IH]; simpl; [reflexivity | by rewrite IH]. Qed.

Lemma elem_of_insert_unique x y l :
  x ∈ Np.insert_unique y l <-> x = y \/ x ∈ l.
Proof.
  induction l as [|z l IH]; simpl.
  - rewrite list_elem_of_singleton. rewrite elem_of_nil. tauto.
  - destruct (Z.ltb_spec y z).
    + rewrite !elem_of_cons. tauto.
    + destruct (Z.eqb_spec y z) as [->|Hne].
      * rewrite !elem_of_cons. tauto.
      * rewrite !elem_of_cons, IH. tauto.
Qed.

Lemma elem_of_unique x l : x ∈ Np.unique l <-> x ∈ l.
Proof.
  induction l as [|y l IH]; simpl.
  - reflexivity.
  - unfold Np.unique in *. simpl. rewrite elem_of_insert_unique, IH, elem_of_cons.
    reflexivity.
Qed.

(** ** Dictionaries *)

Lemma dict_update_snoc `{Countable K} {V : Type} (d : gmap K V) pairs key v :
  Py.dict_update d (pairs ++ [(key, v)]) = <[key := v]> (Py.dict_update d pairs).
Proof. unfold Py.dict_update. by rewrite foldl_app. Qed.

Lemma dict_of_snoc `{Countable K} {V : Type} (pairs : list (K * V)) key v :
  Py.dict_of (pairs ++ [(key, v)]) = <[key := v]> (Py.dict_of pairs).
Proof. unfold Py.dict_of. by rewrite foldl_app. Qed.

Lemma dict_of_update `{Countable K} {V : Type} (pairs : list (K * V)) :
  Py.dict_of pairs = Py.dict_update ∅ pairs.
Proof. reflexivity. Qed.

(** A dictionary updated with constant pairs. *)
Lemma dict_update_const {V : Type} (d : gmap Z V) keys (v : V) key :
  Py.dict_update d (MirParser.dict_const keys v) !! key =
  if decide (key ∈ keys) then Some v else d !! key.
Proof.
  induction keys as [|k keys IH] using rev_ind.
  - destruct (decide (key ∈ [])) as [H|H]; [by apply elem_of_nil in H | reflexivity].
  - unfold MirParser.dict_const in *. rewrite fmap_app. simpl.
    rewrite dict_update_snoc. destruct (decide (k = key)) as [->|Hne].
    + rewrite lookup_insert_eq. rewrite decide_True; [reflexivity|].
      apply elem_of_app. right. by apply list_elem_of_singleton.
    + rewrite lookup_insert_ne by assumption. rewrite IH.
      destruct (decide (key ∈ keys)) as [Hin|Hnin].
      * rewrite decide_True; [reflexivity|]. apply elem_of_app. by left.
      * rewrite decide_False; [reflexivity|]. rewrite elem_of_app, list_elem_of_singleton.
        intros [?|?]; [tauto | congruence].
Qed.

(** The check dictionaries of the two back-propagation steps. *)
Lemma check_dict_lookup keys kept key :
  Py.dict_update (Py.dict_of (MirParser.dict_const keys false))
                 (MirParser.dict_const (Np.unique kept) true) !! key =
  if decide (key ∈ kept) then Some true
  else if decide (key ∈ keys) then Some false else None.
Proof.
  rewrite dict_update_const. rewrite dict_of_update, dict_update_const.
  rewrite lookup_empty.
  destruct (decide (key ∈ Np.unique kept)) as [H|H];
    rewrite elem_of_unique in H.
  - by rewrite decide_True.
  - by rewrite (decide_False (P := key ∈ kept)).
Qed.

Lemma resolves_lt {K : Type} (keys : list K) key k :
  resolves keys key k -> (k < length keys)%nat.
Proof. intros [H _]. by apply lookup_lt_Some in H. Qed.

Lemma resolves_exists `{EqDecision K} (keys : list K) key :
  key ∈ keys -> exists k, resolves keys key k.
Proof.
  induction keys as [|x keys IH] using rev_ind.
  - by intros ?%elem_of_nil.
  - intros Hin. destruct (decide (x = key)) as [->|Hne].
    + exists (length keys). split.
      * by rewrite lookup_app_r, Nat.sub_diag.
      * intros k' Hk' Hl. apply lookup_lt_Some in Hl.
        rewrite length_app in Hl. simpl in Hl. lia.
    + apply elem_of_app in Hin as [Hin|Hin%list_elem_of_singleton]; [|congruence].
      destruct (IH Hin) as (k & Hk & Hlast). exists k. split.
      * by apply lookup_app_l_Some.
      * intros k' Hk' Hl. apply lookup_app_Some in Hl as [Hl|[_ Hl]].
        -- by apply (Hlast k').
        -- apply list_lookup_singleton_Some in Hl as [_ ?]. congruence.
Qed.

Lemma resolves_unique {K : Type} (keys : list K) key k :
  NoDup keys -> keys !! k = Some key -> resolves keys key k.
Proof.
  intros Hnd Hk. split; [assumption|]. intros k' Hlt Hk'.
  pose proof (NoDup_lookup _ _ _ _ Hnd Hk Hk'). lia.
Qed.

(** Looking a key up in [dict(zip(keys, vals))] reads [vals] at the row
    the key resolves to. *)
Lemma dict_of_zip_lookup `{Countable K} {V : Type} (keys : list K)
    (vals : list V) key v :
  length keys = length vals ->
  Py.dict_of (zip keys vals) !! key = Some v <->
  exists k, resolves keys key k /\ vals !! k = Some v.
Proof.
  revert vals. induction keys as [|x keys IH] using rev_ind; intros vals Hlen.
  - change (Py.dict_of (zip [] vals)) with (∅ : gmap K V).
    rewrite lookup_empty. split; [discriminate|].
    intros (k & [Hk _] & _). by rewrite lookup_nil in Hk.
  - rewrite length_app in Hlen. simpl in Hlen.
    destruct vals as [|y vals' _] using rev_ind; [simpl in Hlen; lia|].
    rewrite length_app in Hlen. simpl in Hlen.
    assert (Hl : length keys = length vals') by lia.
    rewrite zip_with_app by assumption. simpl. rewrite dict_of_snoc.
    destruct (decide (x = key)) as [->|Hne].
    + rewrite lookup_insert_eq. split.
      * intros [= ->]. exists (length keys). split.
        -- split; [by rewrite lookup_app_r, Nat.sub_diag|].
           intros k' Hk' Hl'. apply lookup_lt_Some in Hl'.
           rewrite length_app in Hl'. simpl in Hl'. lia.
        -- by rewrite Hl, lookup_app_r, Nat.sub_diag.
      * intros (k & [Hk Hlast] & Hv).
        destruct (decide (k = length keys)) as [->|Hk'].
        -- rewrite Hl, lookup_app_r, Nat.sub_diag in Hv by lia. simpl in Hv. congruence.
        -- exfalso. apply (Hlast (length keys)).
           ++ apply lookup_lt_Some in Hk. rewrite length_app in Hk. simpl in Hk. lia.
           ++ by rewrite lookup_app_r, Nat.sub_diag.
    + rewrite lookup_insert_ne by assumption. rewrite IH by assumption. split.
      * intros (k & [Hk Hlast] & Hv). exists k. split.
        -- split; [by apply lookup_app_l_Some|].
           intros k' Hk' Hl'. apply lookup_app_Some in Hl' as [Hl'|[_ Hl']].
           ++ by apply (Hlast k').
           ++ apply list_lookup_singleton_Some in Hl' as [_ ?]. congruence.
        -- by apply lookup_app_l_Some.
      * intros (k & [Hk Hlast] & Hv).
        apply lookup_app_Some in Hk as [Hk|[_ Hk]].
        -- exists k. split.
           ++ split; [assumption|]. intros k' Hk' Hl'.
              apply (Hlast k' Hk'). by apply lookup_app_l_Some.
           ++ apply lookup_lt_Some in Hk.
              by rewrite lookup_app_l in Hv by lia.
        -- apply list_lookup_singleton_Some in Hk as [_ ?]. congruence.
Qed.

(** ** The filter engine *)

Section FilterEngine.

Variable t : tables.
Variable m : masks.
Hypothesis Hfit : masks_fit t m.

Lemma derive_filters_inv f :
  MirParser.derive_filters t m = Ok f -> derivation t m f.
Proof using Hfit.
  destruct Hfit as (Hin & Hbl & Hsp).
  unfold MirParser.derive_filters. intros H.
  inv_bind H. rename x into looked1, E into E1.
  pose proof (lookup_all_Ok _ _ _ E1) as [L1 _]. rewrite length_fmap in L1.
  rewrite logical_and_fit in H by lia. simpl in H.
  inv_bind H. rename x into looked2, E into E2.
  pose proof (lookup_all_Ok _ _ _ E2) as [L2 _]. rewrite length_fmap in L2.
  rewrite logical_and_fit in H by lia. simpl in H.
  inv_bind H. apply bool_index_Ok in E as [_ ->].
  inv_bind H. rename x into looked3, E into E3.
  pose proof (lookup_all_Ok _ _ _ E3) as [L3 _]. rewrite length_fmap in L3.
  rewrite logical_and_fit in H
    by (rewrite length_zip_with; lia). simpl in H.
  inv_bind H. apply bool_index_Ok in E as [_ ->].
  inv_bind H. rename x into looked4, E into E4.
  pose proof (lookup_all_Ok _ _ _ E4) as [L4 _]. rewrite length_fmap in L4.
  rewrite logical_and_fit in H by lia. simpl in H.
  inv_bind H. inv_bind H. inv_bind H. injection H as <-.
  by econstructor.
Qed.

Lemma derivation_lengths f :
  derivation t m f ->
  length (in_filter f) = length (in_read t) /\
  length (bl_filter f) = length (bl_read t) /\
  length (sp_filter f) = length (sp_read t) /\
  length (eng_filter f) = length (eng_read t) /\
  length (we_filter f) = length (we_read t) /\
  length (ac_filter f) = length (ac_read t).
Proof using Hfit.
  destruct Hfit as (Hin & Hbl & Hsp). intros [].
  repeat match goal with
         | H : MirParser.lookup_all _ _ = Ok _ |- _ =>
             apply lookup_all_Ok in H as [H _]; rewrite length_fmap in H
         end.
  subst. rewrite step4, step6, step8.
  rewrite !length_zip_with. lia.
Qed.

(** An included spectral record sees its baseline included. *)
Lemma derivation_sp_bl f j sp :
  derivation t m f ->
  sp_read t !! j = Some sp ->
  sp_filter f !! j = Some true ->
  exists k, resolves (blhid <$> bl_read t) (sp_blhid sp) k /\
            bl_filter f !! k = Some true.
Proof using Hfit.
  destruct Hfit as (Hin & Hbl & Hsp). intros D Hj Hf.
  destruct D as [looked1 bl_filter1 looked2 looked3 looked4
                 S1 S2 S3 S4 S5 S6 S7 S8 _ _ _].
  pose proof Hf as Hf'.
  rewrite S4 in Hf'. apply zip_with_andb_true in Hf' as [_ Hl2].
  destruct (lookup_all_Ok _ _ _ S3) as [_ Hk2].
  destruct (Hk2 j (sp_blhid sp)) as (v & Hv & Hd).
  { by rewrite list_lookup_fmap, Hj. }
  assert (v = true) as -> by congruence.
  destruct (lookup_all_Ok _ _ _ S1) as [L1 _].
  rewrite length_fmap in L1.
  apply dict_of_zip_lookup in Hd as (k & Hres & Hk).
  2:{ subst bl_filter1. rewrite length_fmap, length_zip_with. lia. }
  exists k. split; [assumption|].
  rewrite S6. apply zip_with_andb_true. split; [assumption|].
  destruct (lookup_all_Ok _ _ _ S5) as [_ Hk3].
  destruct (Hk3 k (sp_blhid sp) (proj1 Hres)) as (w & Hw & Hc).
  rewrite check_dict_lookup in Hc. rewrite decide_True in Hc; [congruence|].
  apply elem_of_compress. exists j. split; [assumption|].
  by rewrite list_lookup_fmap, Hj.
Qed.

(** An included baseline sees its integration included. *)
Lemma derivation_bl_in f k bl :
  derivation t m f ->
  bl_read t !! k = Some bl ->
  bl_filter f !! k = Some true ->
  exists r, resolves (in_inhid <$> in_read t) (bl_inhid bl) r /\
            in_filter f !! r = Some true.
Proof using Hfit.
  destruct Hfit as (Hin & Hbl & Hsp). intros D Hk Hf.
  destruct D as [looked1 bl_filter1 looked2 looked3 looked4
                 S1 S2 S3 S4 S5 S6 S7 S8 _ _ _].
  pose proof Hf as Hf'.
  rewrite S6 in Hf'. apply zip_with_andb_true in Hf' as [Hb1 _].
  rewrite S2 in Hb1. apply zip_with_andb_true in Hb1 as [_ Hl1].
  destruct (lookup_all_Ok _ _ _ S1) as [_ Hk1].
  destruct (Hk1 k (bl_inhid bl)) as (v & Hv & Hd).
  { by rewrite list_lookup_fmap, Hk. }
  assert (v = true) as -> by congruence.
  apply dict_of_zip_lookup in Hd as (r & Hres & Hr).
  2:{ rewrite length_fmap. lia. }
  exists r. split; [assumption|].
  rewrite S8. apply zip_with_andb_true. split; [assumption|].
  destruct (lookup_all_Ok _ _ _ S7) as [_ Hk4].
  destruct (Hk4 r (bl_inhid bl) (proj1 Hres)) as (w & Hw & Hc).
  rewrite check_dict_lookup in Hc. rewrite decide_True in Hc; [congruence|].
  apply elem_of_compress. exists k. split; [assumption|].
  by rewrite list_lookup_fmap, Hk.
Qed.

(** A derived filter is below the mask it was derived from. *)
Lemma derivation_below f :
  derivation t m f ->
  (forall i, in_filter f !! i = Some true -> use_in m !! i = Some true) /\
  (forall i, bl_filter f !! i = Some true -> use_bl m !! i = Some true) /\
  (forall i, sp_filter f !! i = Some true -> use_sp m !! i = Some true).
Proof.
  intros [looked1 bl_filter1 looked2 looked3 looked4
          S1 S2 S3 S4 S5 S6 S7 S8 _ _ _].
  split; [|split]; intros i Hi.
  - rewrite S8 in Hi. by apply zip_with_andb_true in Hi as [? _].
  - rewrite S6 in Hi. apply zip_with_andb_true in Hi as [Hi _].
    rewrite S2 in Hi. by apply zip_with_andb_true in Hi as [? _].
  - rewrite S4 in Hi. by apply zip_with_andb_true in Hi as [? _].
Qed.

End FilterEngine.

Lemma update_filter_inv st changed st' :
  MirParser._update_filter st = Ok (changed, st') ->
  exists f v,
    MirParser.derive_filters (tabs st) (sel st) = Ok f /\
    changed =
      negb (MirParser.array_equal (sp_filter (flt st)) (sp_filter f)
            && MirParser.array_equal (bl_filter (flt st)) (bl_filter f)
            && MirParser.array_equal (in_filter (flt st)) (in_filter f)) /\
    (if changed then MirParser.slice_views (tabs st) f (data st)
     else Ok (data st)) = Ok v /\
    st' = {| filepath := filepath st; tabs := tabs st; sel := sel st;
             flt := f; data := v; dicts := MirParser.index_views v;
             cache := cache st |}.
Proof.
  unfold MirParser._update_filter. intros H.
  inv_bind H. inv_bind H. injection H as <- <-. eauto 10.
Qed.

Lemma sample_update_filter :
  MirParser._update_filter Sample.deselected = Ok (true, Sample.filtered).
Proof. reflexivity. Qed.

Lemma sample_masks_fit :
  masks_fit (tabs Sample.deselected) (sel Sample.deselected).
Proof. repeat split. Qed.

Lemma dict_of_zip_is_Some {V : Type} (keys : list Z) (vals : list V) key :
  length keys = length vals -> key ∈ keys ->
  is_Some (Py.dict_of (zip keys vals) !! key).
Proof.
  intros Hl Hk.
  destruct (resolves_exists _ _ Hk) as (k & Hres).
  destruct (lookup_lt_is_Some_2 vals k) as [v Hv].
  { rewrite <- Hl. by eapply resolves_lt. }
  exists v. apply dict_of_zip_lookup; eauto.
Qed.

Lemma check_dict_is_Some (keys kept : list Z) key :
  key ∈ keys ->
  is_Some (Py.dict_update
             (Py.dict_of (MirParser.dict_const keys false))
             (MirParser.dict_const (Np.unique kept) true) !! key).
Proof.
  intros Hk. rewrite check_dict_lookup.
  destruct (decide (key ∈ kept)); [eauto|]. rewrite decide_True; eauto.
Qed.

(** When every foreign key resolves, [_update_filter] returns. *)
Lemma update_filter_returns (st : parser) :
  masks_fit (tabs st) (sel st) ->
  (forall key, key ∈ bl_inhid <$> bl_read (tabs st) ->
               key ∈ in_inhid <$> in_read (tabs st)) ->
  (forall key, key ∈ sp_blhid <$> sp_read (tabs st) ->
               key ∈ blhid <$> bl_read (tabs st)) ->
  (forall key, key ∈ (eng_inhid <$> eng_read (tabs st))
                       ++ (scanNumber <$> we_read (tabs st))
                       ++ (ac_inhid <$> ac_read (tabs st)) ->
               key ∈ in_inhid <$> in_read (tabs st)) ->
  exists changed st', MirParser._update_filter st = Ok (changed, st').
Proof.
  intros (Hin & Hbl & Hsp) Hbi Hsb Hrest.
  pose proof (@dict_of_zip_is_Some bool) as Hzip.
  pose proof check_dict_is_Some as Hchk.
  unfold MirParser._update_filter, MirParser.derive_filters.
  destruct (lookup_all_total
              (Py.dict_of (zip (in_inhid <$> in_read (tabs st))
                               (use_in (sel st))))
              (bl_inhid <$> bl_read (tabs st))) as [l1 E1].
  { intros key Hk. apply Hzip; [rewrite length_fmap; lia | auto]. }
  rewrite E1. cbn [mbind result_bind].
  pose proof (lookup_all_Ok _ _ _ E1) as [L1 _]. rewrite length_fmap in L1.
  rewrite logical_and_fit by lia. cbn [mbind result_bind].
  destruct (lookup_all_total
              (Py.dict_of (zip (blhid <$> bl_read (tabs st))
                               (zip_with andb (use_bl (sel st)) l1)))
              (sp_blhid <$> sp_read (tabs st))) as [l2 E2].
  { intros key Hk. apply Hzip; [|auto].
    rewrite length_fmap, length_zip_with. lia. }
  rewrite E2. cbn [mbind result_bind].
  pose proof (lookup_all_Ok _ _ _ E2) as [L2 _]. rewrite length_fmap in L2.
  rewrite logical_and_fit by lia. cbn [mbind result_bind].
  rewrite bool_index_fit by (rewrite length_fmap, length_zip_with; lia).
  cbn [mbind result_bind].
  match goal with
  | |- context [MirParser.lookup_all ?d (blhid <$> _)] =>
      destruct (lookup_all_total d (blhid <$> bl_read (tabs st))) as [l3 E3];
      [intros key Hk; by apply Hchk|]
  end.
  rewrite E3. cbn [mbind result_bind].
  pose proof (lookup_all_Ok _ _ _ E3) as [L3 _]. rewrite length_fmap in L3.
  rewrite logical_and_fit by (rewrite length_zip_with; lia). cbn [mbind result_bind].
  rewrite bool_index_fit by (rewrite length_fmap, !length_zip_with; lia).
  cbn [mbind result_bind].
  match goal with
  | |- context [MirParser.lookup_all ?d (in_inhid <$> _)] =>
      destruct (lookup_all_total d (in_inhid <$> in_read (tabs st)))
        as [l4 E4]; [intros key Hk; by apply Hchk|]
  end.
  rewrite E4. cbn [mbind result_bind].
  pose proof (lookup_all_Ok _ _ _ E4) as [L4 _]. rewrite length_fmap in L4.
  rewrite logical_and_fit by lia. cbn [mbind result_bind].
  set (d := Py.dict_of _).
  assert (Hd : forall key, key ∈ in_inhid <$> in_read (tabs st) ->
                           is_Some (d !! key)).
  { intros key Hk. apply Hzip; [|auto].
    rewrite length_fmap, length_zip_with. lia. }
  destruct (lookup_all_total d (eng_inhid <$> eng_read (tabs st))) as [le Ee].
  { intros key Hk. apply Hd, Hrest. rewrite !elem_of_app. auto. }
  destruct (lookup_all_total d (scanNumber <$> we_read (tabs st))) as [lw Ew].
  { intros key Hk. apply Hd, Hrest. rewrite !elem_of_app. auto. }
  destruct (lookup_all_total d (ac_inhid <$> ac_read (tabs st))) as [la Ea].
  { intros key Hk. apply Hd, Hrest. rewrite !elem_of_app. auto. }
  rewrite Ee, Ew, Ea. cbn [mbind result_bind].
  pose proof (lookup_all_Ok _ _ _ Ee) as [Le _]. rewrite length_fmap in Le.
  pose proof (lookup_all_Ok _ _ _ Ew) as [Lw _]. rewrite length_fmap in Lw.
  pose proof (lookup_all_Ok _ _ _ Ea) as [La _]. rewrite length_fmap in La.
  match goal with
  | |- context [if ?c then _ else _] => destruct c
  end; cbn [mbind result_bind negb]; [|eauto].
  unfold MirParser.slice_views. cbn [in_filter bl_filter sp_filter
    eng_filter we_filter ac_filter].
  rewrite !bool_index_fit by (rewrite ?length_zip_with; lia).
  cbn [mbind result_bind]. eauto.
Qed.

(** C2, mask monotonicity: after [_update_filter] returns, a derived
    filter is true at a row only if the caller's mask is true there, in
    each of the integration, baseline and spectral-record tables; a row
    the caller excluded is never included again. *)
Theorem mask_monotonicity (st : parser) (changed : bool) (st' : parser) :
  masks_fit (tabs st) (sel st) ->
  MirParser._update_filter st = Ok (changed, st') ->
  (forall i, in_filter (flt st') !! i = Some true ->
             use_in (sel st') !! i = Some true) /\
  (forall i, bl_filter (flt st') !! i = Some true ->
             use_bl (sel st') !! i = Some true) /\
  (forall i, sp_filter (flt st') !! i = Some true ->
             use_sp (sel st') !! i = Some true).
Proof.
  intros Hfit H.
  apply update_filter_inv in H as (f & v & Hf & _ & _ & ->). simpl.
  apply derive_filters_inv in Hf; [|assumption].
  exact (derivation_below _ _ _ Hf).
Qed.

Lemma mask_monotonicity_witness :
  (forall i, in_filter (flt Sample.filtered) !! i = Some true ->
             use_in (sel Sample.filtered) !! i = Some true) /\
  (forall i, bl_filter (flt Sample.filtered) !! i = Some true ->
             use_bl (sel Sample.filtered) !! i = Some true) /\
  (forall i, sp_filter (flt Sample.filtered) !! i = Some true ->
             use_sp (sel Sample.filtered) !! i = Some true).
Proof.
  apply (mask_monotonicity Sample.deselected true Sample.filtered).
  - repeat split.
  - reflexivity.
Defined.

(** C1, hierarchy consistency: after [_update_filter] returns, every
    spectral record whose [sp_filter] entry is true has a true
    [bl_filter] entry at the baseline row its [blhid] resolves to, and
    every baseline whose [bl_filter] entry is true has a true
    [in_filter] entry at the integration row its [inhid] resolves to.
    That the keys resolve follows from the call having returned. *)
Theorem hierarchy_consistency (st : parser) (changed : bool) (st' : parser) :
  masks_fit (tabs st) (sel st) ->
  MirParser._update_filter st = Ok (changed, st') ->
  (forall j sp,
      sp_read (tabs st') !! j = Some sp ->
      sp_filter (flt st') !! j = Some true ->
      exists k, resolves (blhid <$> bl_read (tabs st')) (sp_blhid sp) k /\
                bl_filter (flt st') !! k = Some true) /\
  (forall k bl,
      bl_read (tabs st') !! k = Some bl ->
      bl_filter (flt st') !! k = Some true ->
      exists r, resolves (in_inhid <$> in_read (tabs st')) (bl_inhid bl) r /\
                in_filter (flt st') !! r = Some true).
Proof.
  intros Hfit H.
  apply update_filter_inv in H as (f & v & Hf & _ & _ & ->). simpl.
  apply derive_filters_inv in Hf; [|assumption]. split.
  - intros j sp. by apply (derivation_sp_bl _ (sel st)).
  - intros k bl. by apply (derivation_bl_in _ (sel st)).
Qed.

Lemma hierarchy_consistency_witness :
  (forall j sp,
      sp_read (tabs Sample.filtered) !! j = Some sp ->
      sp_filter (flt Sample.filtered) !! j = Some true ->
      exists k, resolves (blhid <$> bl_read (tabs Sample.filtered))
                         (sp_blhid sp) k /\
                bl_filter (flt Sample.filtered) !! k = Some true) /\
  (forall k bl,
      bl_read (tabs Sample.filtered) !! k = Some bl ->
      bl_filter (flt Sample.filtered) !! k = Some true ->
      exists r, resolves (in_inhid <$> in_read (tabs Sample.filtered))
                         (bl_inhid bl) r /\
                in_filter (flt Sample.filtered) !! r = Some true).
Proof.
  apply (hierarchy_consistency Sample.deselected true Sample.filtered).
  - repeat split.
  - reflexivity.
Defined.

(** *** Idempotence and purity *)

Lemma array_equal_refl a : MirParser.array_equal a a = true.
Proof. unfold MirParser.array_equal. by apply bool_decide_eq_true. Qed.

Lemma array_equal_true a b : MirParser.array_equal a b = true -> a = b.
Proof. unfold MirParser.array_equal. by intros ?%bool_decide_eq_true. Qed.

(** A second call right after a call that returned changes nothing and
    reports no change. *)
Lemma update_filter_twice (st : parser) (changed : bool) (st' : parser) :
  MirParser._update_filter st = Ok (changed, st') ->
  MirParser._update_filter st' = Ok (false, st').
Proof.
  intros H. apply update_filter_inv in H as (f & v & Hf & _ & _ & ->).
  unfold MirParser._update_filter. cbn [tabs sel flt data cache filepath].
  rewrite Hf. cbn [mbind result_bind].
  rewrite !array_equal_refl. reflexivity.
Qed.

Lemma derive_filters_tail t m f :
  MirParser.derive_filters t m = Ok f ->
  let d := Py.dict_of (zip (in_inhid <$> in_read t) (in_filter f)) in
  MirParser.lookup_all d (eng_inhid <$> eng_read t) = Ok (eng_filter f) /\
  MirParser.lookup_all d (scanNumber <$> we_read t) = Ok (we_filter f) /\
  MirParser.lookup_all d (ac_inhid <$> ac_read t) = Ok (ac_filter f).
Proof.
  unfold MirParser.derive_filters. intros H.
  do 13 inv_bind H. injection H as <-. auto.
Qed.

Lemma dict_of_lookup_elem {V : Type} (pairs : list (Z * V)) key v :
  Py.dict_of pairs !! key = Some v -> (key, v) ∈ pairs.
Proof.
  induction pairs as [|[k w] pairs IH] using rev_ind.
  - change (Py.dict_of []) with (∅ : gmap Z V). by rewrite lookup_empty.
  - rewrite dict_of_snoc, elem_of_app, list_elem_of_singleton.
    destruct (decide (k = key)) as [->|Hne].
    + rewrite lookup_insert_eq. intros [= ->]. by right.
    + rewrite lookup_insert_ne by assumption. auto.
Qed.

Lemma dict_of_zip_ones (keys : list Z) n key v :
  Py.dict_of (zip keys (Np.ones n)) !! key = Some v -> v = true.
Proof.
  intros H%dict_of_lookup_elem. apply elem_of_zip_r in H.
  unfold Np.ones in H. by apply elem_of_replicate in H as [-> _].
Qed.

Lemma lookup_all_ones (keys : list Z) n targets r :
  MirParser.lookup_all (Py.dict_of (zip keys (Np.ones n))) targets = Ok r ->
  r = Np.ones (length targets).
Proof.
  intros H. apply lookup_all_Ok in H as [Hl Hr].
  apply list_eq_same_length with (length targets); [|assumption|].
  { unfold Np.ones. by rewrite length_replicate. }
  intros i x y Hi Hx Hy. unfold Np.ones in Hy.
  apply lookup_replicate in Hy as [-> _].
  destruct (lookup_lt_is_Some_2 targets i Hi) as [key Hk].
  destruct (Hr i key Hk) as (v & Hv & Hd).
  apply dict_of_zip_ones in Hd. congruence.
Qed.

Lemma fresh_views_current ds ac index :
  views_current (MirParser.fresh ds ac index).
Proof.
  unfold views_current. cbn [MirParser.fresh tabs flt data in_read bl_read
    sp_read eng_read we_read ac_read codes_read in_filter bl_filter sp_filter
    in_data bl_data sp_data eng_data we_data ac_data codes_data].
  unfold Np.ones at 1 2 3.
  rewrite !bool_index_fit by (by rewrite length_replicate).
  rewrite !compress_all_true.
  repeat split; try reflexivity.
  - intros ef ->%lookup_all_ones. unfold Np.ones.
    by rewrite length_fmap, compress_all_true.
  - intros ef ->%lookup_all_ones. unfold Np.ones.
    by rewrite length_fmap, compress_all_true.
  - intros ef ->%lookup_all_ones. unfold Np.ones.
    by rewrite length_fmap, compress_all_true.
Qed.

Lemma slice_views_inv t f old v :
  MirParser.slice_views t f old = Ok v ->
  Np.bool_index (in_read t) (in_filter f) = Ok (in_data v) /\
  Np.bool_index (bl_read t) (bl_filter f) = Ok (bl_data v) /\
  Np.bool_index (sp_read t) (sp_filter f) = Ok (sp_data v) /\
  Np.bool_index (eng_read t) (eng_filter f) = Ok (eng_data v) /\
  Np.bool_index (we_read t) (we_filter f) = Ok (we_data v) /\
  Np.bool_index (ac_read t) (ac_filter f) = Ok (ac_data v) /\
  codes_data v = codes_data old.
Proof.
  unfold MirParser.slice_views. intros H.
  do 6 inv_bind H. injection H as <-. simpl. auto 10.
Qed.

(** What a call of [_update_filter] that returns leaves in the views,
    given that the views were current before the call. *)
Lemma update_filter_views st changed st' :
  views_current st ->
  MirParser._update_filter st = Ok (changed, st') ->
  exists f,
    MirParser.derive_filters (tabs st) (sel st) = Ok f /\
    flt st' = f /\ tabs st' = tabs st /\
    dicts st' = MirParser.index_views (data st') /\
    Np.bool_index (in_read (tabs st)) (in_filter f) = Ok (in_data (data st')) /\
    Np.bool_index (bl_read (tabs st)) (bl_filter f) = Ok (bl_data (data st')) /\
    Np.bool_index (sp_read (tabs st)) (sp_filter f) = Ok (sp_data (data st')) /\
    eng_data (data st') = Np.compress (eng_filter f) (eng_read (tabs st)) /\
    we_data (data st') = Np.compress (we_filter f) (we_read (tabs st)) /\
    ac_data (data st') = Np.compress (ac_filter f) (ac_read (tabs st)) /\
    codes_data (data st') = codes_read (tabs st).
Proof.
  intros (Ci & Cb & Cs & Ce & Cw & Ca & Cc) H.
  apply update_filter_inv in H as (f & v & Hf & Hc & Hv & ->).
  exists f. cbn [flt tabs data dicts].
  destruct (derive_filters_tail _ _ _ Hf) as (Te & Tw & Ta).
  repeat (split; [done|]).
  destruct changed.
  - apply slice_views_inv in Hv as (Vi & Vb & Vs & Ve & Vw & Va & Vc).
    apply bool_index_Ok in Ve as [_ ->].
    apply bool_index_Ok in Vw as [_ ->].
    apply bool_index_Ok in Va as [_ ->].
    rewrite Vc. auto 10.
  - injection Hv as <-. symmetry in Hc. apply negb_false_iff in Hc.
    apply andb_true_iff in Hc as [Hc Hi%array_equal_true].
    apply andb_true_iff in Hc as [Hs%array_equal_true Hb%array_equal_true].
    rewrite <- Hi, <- Hb, <- Hs. rewrite <- Hi in Te, Tw, Ta.
    repeat (split; [done|]). auto.
Qed.

Lemma update_filter_current st changed st' :
  views_current st ->
  MirParser._update_filter st = Ok (changed, st') ->
  views_current st'.
Proof.
  intros Hc H.
  destruct (update_filter_views _ _ _ Hc H)
    as (f & Hf & Hfl & Ht & _ & Vi & Vb & Vs & Ve & Vw & Va & Vc).
  destruct (derive_filters_tail _ _ _ Hf) as (Te & Tw & Ta).
  unfold views_current. rewrite Ht, Hfl. cbn zeta.
  repeat (split; [done|]).
  split; [|split; [|split]]; try done.
  - intros ef Hef. congruence.
  - intros ef Hef. congruence.
  - intros ef Hef. congruence.
Qed.

Lemma load_data_inv st lv lr la st' :
  MirParser.load_data st lv lr la = Ok st' ->
  exists changed st1 c,
    MirParser._update_filter st = Ok (changed, st1) /\
    st' = MirParser.with_cache st1 c.
Proof.
  unfold MirParser.load_data. intros H.
  inv_bind H. destruct x as [changed st1].
  do 3 inv_bind H. injection H as <-. eauto.
Qed.

Lemma reachable_views_current st : reachable st -> views_current st.
Proof.
  induction 1 as [ds ac index | st m _ IH | st changed st' _ IH H
                 | st lv lr la st' _ IH H | st _ IH].
  - apply fresh_views_current.
  - exact IH.
  - by eapply update_filter_current.
  - apply load_data_inv in H as (changed & st1 & c & H & ->).
    by apply (update_filter_current _ _ _ IH) in H.
  - exact IH.
Qed.

(** C3, idempotence: when a call of [_update_filter] has returned, a
    second call with the [use_] masks left alone returns [False] and
    leaves the parser as the first call left it, so the filters and the
    filtered tables [in_data], [bl_data], [sp_data], [eng_data],
    [we_data] and [ac_data] are identical after each call.  The result
    is a function of the read-in tables and the masks alone: on any
    other parser a caller can hold with the same tables and masks the
    call returns too, with the same filters, filtered tables and
    position dictionaries. *)
Theorem update_filter_idempotent (a b : parser) (changed : bool)
    (a' : parser) :
  reachable a -> reachable b ->
  tabs b = tabs a -> sel b = sel a ->
  MirParser._update_filter a = Ok (changed, a') ->
  MirParser._update_filter a' = Ok (false, a') /\
  exists changed_b b',
    MirParser._update_filter b = Ok (changed_b, b') /\
    flt b' = flt a' /\ data b' = data a' /\ dicts b' = dicts a'.
Proof.
  intros Ra Rb Ht Hs Ha. split; [by eapply update_filter_twice|].
  apply reachable_views_current in Ra, Rb.
  destruct (update_filter_views _ _ _ Ra Ha)
    as (f & Hf & Hfa & _ & Hda & Vi & Vb & Vs & Ve & Vw & Va & Vc).
  assert (exists changed_b b',
             MirParser._update_filter b = Ok (changed_b, b')) as (cb & b' & Hb).
  { unfold MirParser._update_filter. rewrite Ht, Hs, Hf.
    cbn [mbind result_bind].
    match goal with
    | |- context [negb ?c] => destruct c eqn:Hc
    end; cbn [negb mbind result_bind]; [eauto|].
    unfold MirParser.slice_views.
    apply bool_index_Ok in Vi as [Li _].
    apply bool_index_Ok in Vb as [Lb _].
    apply bool_index_Ok in Vs as [Ls _].
    destruct (derive_filters_tail _ _ _ Hf) as (Te & Tw & Ta).
    apply lookup_all_Ok in Te as [Le _]. rewrite length_fmap in Le.
    apply lookup_all_Ok in Tw as [Lw _]. rewrite length_fmap in Lw.
    apply lookup_all_Ok in Ta as [La _]. rewrite length_fmap in La.
    rewrite !bool_index_fit by assumption.
    cbn [mbind result_bind]. eauto. }
  exists cb, b'. split; [assumption|].
  destruct (update_filter_views _ _ _ Rb Hb)
    as (f' & Hf' & Hfb & _ & Hdb & Wi & Wb & Ws & We & Ww & Wa & Wc).
  rewrite Ht, Hs, Hf in Hf'. injection Hf' as <-.
  rewrite Ht in *.
  assert (data b' = data a') as Hd.
  { destruct (data b'), (data a'). simpl in *. f_equal; congruence. }
  split; [congruence|]. split; [assumption|]. congruence.
Qed.

Lemma update_filter_idempotent_witness :
  MirParser._update_filter Sample.filtered = Ok (false, Sample.filtered) /\
  exists changed_b b',
    MirParser._update_filter Sample.filtered = Ok (changed_b, b') /\
    flt b' = flt Sample.filtered /\ data b' = data Sample.filtered /\
    dicts b' = dicts Sample.filtered.
Proof.
  apply (update_filter_idempotent Sample.deselected Sample.filtered true
           Sample.filtered).
  - apply reach_select, reach_fresh.
  - apply (reach_update Sample.deselected true).
    + apply reach_select, reach_fresh.
    + reflexivity.
  - reflexivity.
  - reflexivity.
  - reflexivity.
Defined.

(** ** Unloading *)

(** What [unload_data] does, on every parser: the three payload arrays
    are cleared and nothing else is touched, the scale factors of the
    raw data included. *)
Lemma unload_data_effect (st : parser) :
  let st' := MirParser.unload_data st in
  vis_data (cache st') = None /\
  raw_data (cache st') = None /\
  auto_data (cache st') = None /\
  raw_scale_fac (cache st') = raw_scale_fac (cache st) /\
  vis_data_loaded (cache st') = vis_data_loaded (cache st) /\
  raw_data_loaded (cache st') = raw_data_loaded (cache st) /\
  filepath st' = filepath st /\ tabs st' = tabs st /\ sel st' = sel st /\
  flt st' = flt st /\ data st' = data st /\ dicts st' = dicts st.
Proof.
  unfold MirParser.unload_data. cbn.
  destruct (vis_data (cache st)), (raw_data (cache st)),
    (auto_data (cache st)); auto 15.
Qed.

(** C9, on the sample data set: after [load_data(load_vis=True,
    load_raw=True)] the parser holds the raw data and their scale
    factors; [unload_data] clears [raw_data] and leaves
    [raw_scale_fac] loaded, where [__init__] has it [None] in the
    metadata-only state. *)
Theorem unload_data_keeps_scale_factors :
  exists st,
    MirParser.load_data Sample.constructed true true false = Ok st /\
    raw_data (cache st) =
      Some [[3; -2; 1; 1]; [3; -2; 0; 5]; [3; -2; 7; 7]; [-1; 2; -3; 4]] /\
    raw_scale_fac (cache st) = Some [0; 4; -3; 1] /\
    raw_data (cache (MirParser.unload_data st)) = None /\
    raw_scale_fac (cache (MirParser.unload_data st)) = Some [0; 4; -3; 1] /\
    raw_scale_fac (cache Sample.constructed) = None.
Proof.
  assert (H : (fun st => (raw_data (cache st), raw_scale_fac (cache st)))
                <$> MirParser.load_data Sample.constructed true true false
              = Ok (Some [[3; -2; 1; 1]; [3; -2; 0; 5]; [3; -2; 7; 7];
                          [-1; 2; -3; 4]],
                    Some [0; 4; -3; 1])).
  { vm_compute. reflexivity. }
  destruct (MirParser.load_data Sample.constructed true true false)
    as [st|e|]; [|discriminate|discriminate].
  injection H as Hraw Hfac. exists st.
  destruct (unload_data_effect st) as (_ & Hr & _ & Hs & _).
  rewrite Hr, Hs, Hraw, Hfac. auto 10.
Qed.

(** ** The selection stage of [read_mir] *)

(** The dictionary [read_mir] tests has one entry per source of the
    data set, whatever was selected: it is empty only when the data set
    has no integration at all. *)
Lemma membership_dict_keys (full chosen : list Z) key :
  is_Some (Mir.membership_dict full chosen !! key) <-> key ∈ full.
Proof.
  unfold Mir.membership_dict.
  induction full as [|k full IH] using rev_ind.
  - change (Py.dict_of _) with (∅ : gmap Z bool).
    rewrite lookup_empty, elem_of_nil. split; [by intros [? ?]|done].
  - rewrite fmap_app. simpl. rewrite dict_of_snoc, elem_of_app,
      list_elem_of_singleton.
    destruct (decide (k = key)) as [->|Hne].
    + rewrite lookup_insert_eq. split; eauto.
    + rewrite lookup_insert_ne by assumption. rewrite IH. split.
      * auto.
      * intros [?|?]; [assumption | congruence].
Qed.

Lemma membership_dict_empty (full chosen : list Z) :
  size (Mir.membership_dict full chosen) = 0%nat <-> full = [].
Proof.
  rewrite map_size_empty_iff. split.
  - intros H. destruct full as [|k full]; [reflexivity|].
    assert (Hk : is_Some (Mir.membership_dict (k :: full) chosen !! k)).
    { apply membership_dict_keys. by left. }
    rewrite H, lookup_empty in Hk. by destruct Hk.
  - intros ->. reflexivity.
Qed.

(** C10, on the sample data set, whose integrations all have source 1:
    selecting source 2, which matches no source, does not raise "No
    valid sources selected!"; the empty selection is only found after
    filtering and reported as "No valid records matching those
    selections!".  The empty sideband selection and a selection that
    leaves no integration are reported as the claim says. *)
Theorem read_mir_unmatched_source :
  Mir.read_mir 10 Sample.ds (Some [2]) None None None false =
    Raise (IndexError "No valid records matching those selections!") /\
  Mir.read_mir 10 Sample.ds None None (Some []) None false =
    Raise (IndexError "No valid sidebands selected!") /\
  Mir.read_mir 10 Sample.ds None None None (Some [7]) false =
    Raise (IndexError "No valid records matching those selections!").
Proof. split; [|split]; vm_compute; reflexivity. Qed.

(** ** Raw and visibility decoding, side by side *)

(** C5, on the sample blob with the spectral records of the second
    integration listed first: [parse_vis_data] returns the spectra in
    the order of the table, [parse_raw_data] returns them by ascending
    integration id, so the two lists do not match position by
    position.  At position 0 the raw mantissas (3, -2) with scale
    factor 0 stand against the visibility of the record with scale
    factor -3. *)
Theorem raw_order_differs :
  exists raw fac vis,
    MirParser.parse_raw_data (sch_read Sample.files) Sample.index
      Sample.sp_rows_swapped = Ok (raw, fac) /\
    MirParser.parse_vis_data (sch_read Sample.files) Sample.index
      Sample.sp_rows_swapped = Ok vis /\
    raw = [[3; -2; 1; 1]; [3; -2; 0; 5]; [3; -2; 7; 7]; [-1; 2; -3; 4]] /\
    fac = [0; 4; -3; 1] /\
    rescale raw fac !! 0%nat =
      Some [ {| re := Np.single 3 0; im := Np.single (-2) 0 |};
             {| re := Np.single 1 0; im := Np.single 1 0 |} ] /\
    vis !! 0%nat =
      Some [ {| re := Np.single 3 (-3); im := Np.single (-2) (-3) |};
             {| re := Np.single 7 (-3); im := Np.single 7 (-3) |} ] /\
    rescale raw fac !! 0%nat <> vis !! 0%nat.
Proof.
  eexists _, _, _. split; [vm_compute; reflexivity|].
  split; [vm_compute; reflexivity|].
  split; [reflexivity|]. split; [reflexivity|].
  split; [vm_compute; reflexivity|].
  split; [vm_compute; reflexivity|].
  vm_compute. discriminate.
Qed.

(** ** The scan of the visibility blob *)

Lemma wrap_small bits x :
  0 < bits -> - 2 ^ (bits - 1) <= x < 2 ^ (bits - 1) -> Np.wrap bits x = x.
Proof.
  intros Hb Hx. unfold Np.wrap.
  assert (H2 : 2 ^ bits = 2 * 2 ^ (bits - 1)).
  { rewrite <- Z.pow_succ_r by lia. f_equal. lia. }
  rewrite H2. set (h := 2 ^ (bits - 1)) in *.
  rewrite Z.mod_small by lia. lia.
Qed.

Lemma wrap64_small x : - 2 ^ 63 <= x < 2 ^ 63 -> Np.wrap64 x = x.
Proof. intros H. apply wrap_small; [lia | exact H]. Qed.

Lemma int32_of_le_split z :
  - 2 ^ 31 <= z < 2 ^ 31 -> Np.int32_of (le_split 4 z) = z.
Proof.
  intros Hz. unfold Np.int32_of, Np.wrap32, Np.wrap.
  rewrite le_combine_split.
  change (Z.of_nat 4 * 8) with 32. change (32 - 1) with 31.
  rewrite Zplus_mod_idemp_l.
  rewrite Z.mod_small by lia. lia.
Qed.

Lemma fromfile_one (f : file) (pre item rest : list byte) (offset : Z) :
  content f = pre ++ item ++ rest ->
  pos f + offset = Z.of_nat (length pre) ->
  (0 < length item)%nat ->
  Np.fromfile f (Z.of_nat (length item)) 1 offset =
    Ok ([item],
        {| content := content f;
           pos := Z.of_nat (length pre) + Z.of_nat (length item) |}).
Proof.
  intros Hc Hp Hi. unfold Np.fromfile. rewrite Hp.
  destruct (Z.ltb_spec (Z.of_nat (length pre)) 0) as [?|_]; [lia|].
  pose proof (f_equal (@length byte) Hc) as Hl. rewrite !length_app in Hl.
  set (k := Z.of_nat (length item)).
  set (size := Z.of_nat (length (content f))) in *.
  assert (Hw : 1 <= Z.max 0 (size - Z.of_nat (length pre)) / k).
  { apply Z.div_le_lower_bound; lia. }
  change (1 <? 0) with false. cbv iota.
  rewrite Z.min_l by lia.
  change (0 <=? 1) with true. rewrite Z.ltb_irrefl. cbn [andb].
  rewrite Nat2Z.id. change (Z.to_nat 1) with 1%nat. cbn [Np.chunks].
  rewrite Hc at 1. rewrite drop_app_length. subst k.
  rewrite Nat2Z.id, take_app_length.
  do 3 f_equal. lia.
Qed.

Lemma fromfile_short (f : file) (itemsize offset : Z) :
  0 <= pos f + offset ->
  0 < itemsize ->
  Z.of_nat (length (content f)) - (pos f + offset) < itemsize ->
  exists f', Np.fromfile f itemsize 1 offset = Ok ([], f').
Proof.
  intros H0 Hi Hs. unfold Np.fromfile.
  destruct (Z.ltb_spec (pos f + offset) 0) as [?|_]; [lia|].
  change (1 <? 0) with false. cbv iota.
  replace (Z.max 0 (Z.of_nat (length (content f)) - (pos f + offset))
           / itemsize) with 0.
  2:{ symmetry. apply Z.div_small. lia. }
  rewrite Z.min_r by lia. change (Z.to_nat 0) with 0%nat. cbn [Np.chunks].
  eauto.
Qed.

Lemma scan_int_loop_done fuel file_size f data_offset last_offset d :
  file_size <= data_offset ->
  MirParser.scan_int_loop fuel file_size f data_offset last_offset d = Ok d.
Proof.
  intros H. destruct fuel; simpl;
    destruct (Z.ltb_spec data_offset file_size); (lia || reflexivity).
Qed.

(** One iteration of the scan at a whole header. *)
Lemma scan_int_loop_header fuel (f : file) (pre hdr rest : list byte)
    last_offset d :
  content f = pre ++ hdr ++ rest ->
  length hdr = 8%nat ->
  pos f + last_offset = Z.of_nat (length pre) ->
  let file_size := Z.of_nat (length (content f)) in
  let inhid := Np.int32_of (take 4 hdr) in
  let insize := Np.int32_of (drop 4 hdr) in
  MirParser.scan_int_loop (S fuel) file_size f (Z.of_nat (length pre))
    last_offset d =
  MirParser.scan_int_loop fuel file_size
    {| content := content f; pos := Z.of_nat (length pre) + 8 |}
    (Np.wrap64 (Z.of_nat (length pre) + (insize + 8))) insize
    (Py.setitem d inhid (insize + 8, Z.of_nat (length pre))).
Proof.
  intros Hc Hh Hp file_size inhid insize. cbn [MirParser.scan_int_loop].
  assert (Hlt : Z.of_nat (length pre) < file_size).
  { subst file_size. rewrite Hc, !length_app. lia. }
  destruct (Z.ltb_spec (Z.of_nat (length pre)) file_size) as [_|?]; [|lia].
  pose proof (fromfile_one f pre hdr rest last_offset Hc Hp) as Hf.
  rewrite Hh in Hf. change (Z.of_nat 8) with 8 in Hf.
  rewrite Hf by lia. reflexivity.
Qed.

Lemma vis_blob_cons r records :
  Blob.vis_blob (r :: records) =
  le_split 4 r.1 ++ le_split 4 (Z.of_nat (length r.2)) ++ r.2
    ++ Blob.vis_blob records.
Proof.
  unfold Blob.vis_blob, Blob.vis_record_bytes.
  rewrite fmap_cons. cbn [concat]. by rewrite <- !app_assoc.
Qed.

Lemma length_vis_blob_cons r records :
  Z.of_nat (length (Blob.vis_blob (r :: records))) =
  Z.of_nat (length r.2) + 8 + Z.of_nat (length (Blob.vis_blob records)).
Proof.
  rewrite vis_blob_cons, !length_app, !length_le_split. lia.
Qed.

(** The scan walks over whole records: after as many iterations as
    there are records it stands behind them, with their entries
    stored. *)
Lemma scan_int_loop_records (records : list (Z * list byte)) :
  forall fuel (f : file) (pre rest : list byte) last_offset d,
    content f = pre ++ Blob.vis_blob records ++ rest ->
    pos f + last_offset = Z.of_nat (length pre) ->
    Forall Blob.record_fits records ->
    Z.of_nat (length (content f)) < 2 ^ 62 ->
    exists f' last_offset',
      content f' = content f /\
      pos f' + last_offset' =
        Z.of_nat (length pre) + Z.of_nat (length (Blob.vis_blob records)) /\
      MirParser.scan_int_loop (length records + fuel)
        (Z.of_nat (length (content f))) f (Z.of_nat (length pre))
        last_offset d =
      MirParser.scan_int_loop fuel (Z.of_nat (length (content f))) f'
        (Z.of_nat (length pre)
         + Z.of_nat (length (Blob.vis_blob records)))
        last_offset'
        (foldl (fun d e => Py.setitem d e.1 e.2) d
               (Blob.index_from (Z.of_nat (length pre)) records)).
Proof.
  induction records as [|r records IH];
    intros fuel f pre rest last_offset d Hc Hp Hfit Hsize.
  - exists f, last_offset. simpl. rewrite Z.add_0_r. auto.
  - apply Forall_cons in Hfit as [[Hid Hlen] Hfit].
    rewrite vis_blob_cons in Hc. rewrite <- !app_assoc in Hc.
    pose proof Hc as Hc'.
    rewrite (app_assoc (le_split 4 r.1)) in Hc'.
    pose proof (f_equal (@length byte) Hc) as Hl.
    rewrite !length_app, !length_le_split in Hl.
    cbn [length Nat.add].
    assert (Hh : length (le_split 4 r.1
                         ++ le_split 4 (Z.of_nat (length r.2))) = 8%nat)
      by (by rewrite length_app, !length_le_split).
    pose proof (scan_int_loop_header (length records + fuel) f pre _ _
                  last_offset d Hc' Hh Hp) as Hstep.
    cbv zeta in Hstep. rewrite Hstep. clear Hstep.
    rewrite take_app_length', drop_app_length' by (by rewrite length_le_split).
    rewrite !int32_of_le_split by lia.
    rewrite wrap64_small by lia.
    destruct (IH fuel
                {| content := content f; pos := Z.of_nat (length pre) + 8 |}
                (pre ++ Blob.vis_record_bytes r) rest
                (Z.of_nat (length r.2))
                (Py.setitem d r.1
                   (Z.of_nat (length r.2) + 8, Z.of_nat (length pre))))
      as (f' & lo' & Hcf & Hpf & Hrun).
    + cbn [content]. rewrite Hc. unfold Blob.vis_record_bytes.
      by rewrite <- !app_assoc.
    + cbn [pos]. unfold Blob.vis_record_bytes.
      rewrite !length_app, !length_le_split. lia.
    + assumption.
    + assumption.
    + cbn [content] in *.
      assert (Hpre : Z.of_nat (length (pre ++ Blob.vis_record_bytes r)) =
                     Z.of_nat (length pre) + (Z.of_nat (length r.2) + 8)).
      { unfold Blob.vis_record_bytes.
        rewrite !length_app, !length_le_split. lia. }
      rewrite Hpre in Hpf, Hrun.
      exists f', lo'. split; [assumption|]. split.
      * rewrite length_vis_blob_cons. lia.
      * rewrite Hrun. cbn [Blob.index_from foldl fst snd].
        rewrite length_vis_blob_cons. f_equal. lia.
Qed.

Lemma assoc_None {V : Type} (d : list (Z * V)) key :
  Py.assoc d key = None <-> key ∉ d.*1.
Proof.
  induction d as [|[k v] d IH]; simpl.
  - split; [intros _; apply not_elem_of_nil | done].
  - rewrite not_elem_of_cons. destruct (Z.eqb_spec k key) as [->|Hne].
    + split; [discriminate | intros [? _]; congruence].
    + rewrite IH. split; [auto | tauto].
Qed.

Lemma setitem_fresh {V : Type} (d : list (Z * V)) key v :
  key ∉ d.*1 -> Py.setitem d key v = d ++ [(key, v)].
Proof.
  induction d as [|[k w] d IH]; simpl; [done|].
  rewrite not_elem_of_cons. intros [Hne Hd].
  destruct (Z.eqb_spec k key) as [->|_]; [congruence|].
  by rewrite IH.
Qed.

Lemma setitem_all_fresh {V : Type} (entries d : list (Z * V)) :
  NoDup (d.*1 ++ entries.*1) ->
  foldl (fun d e => Py.setitem d e.1 e.2) d entries = d ++ entries.
Proof.
  revert d. induction entries as [|[k v] entries IH]; intros d Hnd; simpl.
  - by rewrite app_nil_r.
  - rewrite setitem_fresh.
    + rewrite IH.
      * by rewrite <- app_assoc.
      * rewrite fmap_app. simpl. by rewrite <- app_assoc.
    + apply NoDup_app in Hnd as (_ & Hd & _). intros Hk.
      apply (Hd k Hk). simpl. by left.
Qed.

Lemma index_from_keys start records :
  (Blob.index_from start records).*1 = records.*1.
Proof.
  revert start. induction records as [|r records IH]; intros start; simpl.
  - reflexivity.
  - by rewrite IH.
Qed.

Lemma length_index_from start records :
  length (Blob.index_from start records) = length records.
Proof.
  revert start. induction records as [|r records IH]; intros start; simpl.
  - reflexivity.
  - by rewrite IH.
Qed.

Lemma total_sizes_index_from start records :
  Blob.total (Blob.sizes (Blob.index_from start records)) =
  Z.of_nat (length (Blob.vis_blob records)).
Proof.
  revert start. induction records as [|r records IH]; intros start.
  - reflexivity.
  - cbn [Blob.index_from Blob.sizes Blob.total fmap list_fmap foldr fst snd].
    change (foldr Z.add 0 _) with
      (Blob.total (Blob.sizes
         (Blob.index_from (start + (Z.of_nat (length r.2) + 8)) records))).
    rewrite IH, length_vis_blob_cons. lia.
Qed.

Lemma offsets_index_from_ge start records off :
  off ∈ Blob.offsets (Blob.index_from start records) -> start <= off.
Proof.
  revert start. induction records as [|r records IH]; intros start.
  - by intros ?%elem_of_nil.
  - cbn [Blob.index_from Blob.offsets fmap list_fmap fst snd].
    intros [->|H]%elem_of_cons; [lia|].
    apply IH in H. lia.
Qed.

Lemma offsets_index_from_sorted start records :
  StronglySorted Z.lt (Blob.offsets (Blob.index_from start records)).
Proof.
  revert start. induction records as [|r records IH]; intros start.
  - constructor.
  - cbn [Blob.index_from Blob.offsets fmap list_fmap fst snd].
    constructor; [apply IH|].
    apply Forall_forall. intros off H.
    apply offsets_index_from_ge in H. lia.
Qed.

(** The scan of a blob of whole records, then of whatever follows
    them. *)
Lemma scan_int_start_prefix (records : list (Z * list byte))
    (rest : list byte) fuel :
  NoDup records.*1 ->
  Forall Blob.record_fits records ->
  Z.of_nat (length (Blob.vis_blob records ++ rest)) < 2 ^ 62 ->
  exists f' last_offset',
    content f' = Blob.vis_blob records ++ rest /\
    pos f' + last_offset' = Z.of_nat (length (Blob.vis_blob records)) /\
    MirParser.scan_int_start (length records + fuel)
      (Blob.vis_blob records ++ rest) =
    MirParser.scan_int_loop fuel
      (Z.of_nat (length (Blob.vis_blob records ++ rest))) f'
      (Z.of_nat (length (Blob.vis_blob records))) last_offset'
      (Blob.index_of records).
Proof.
  intros Hnd Hfit Hsize. unfold MirParser.scan_int_start.
  destruct (scan_int_loop_records records fuel
              (Np.open (Blob.vis_blob records ++ rest)) [] rest 0 []
              eq_refl eq_refl Hfit Hsize)
    as (f' & lo' & Hc & Hp & Hrun).
  unfold Np.open in *. cbn [length content] in *.
  change (Z.of_nat 0) with 0 in *. rewrite Z.add_0_l in *.
  exists f', lo'. split; [assumption|]. split; [assumption|].
  rewrite Hrun. f_equal. rewrite setitem_all_fresh; [reflexivity|].
  by rewrite index_from_keys.
Qed.

(** C6, offset index completeness: the scan of a blob made of N whole
    records with distinct integration ids, each header declaring the
    size of its payload, returns the index of the blob: N entries, in
    file order, whose offsets are strictly increasing and whose sizes
    (payload plus the 8-byte header) sum to the size of the file.  N
    iterations of the loop are enough. *)
Theorem scan_int_start_complete (records : list (Z * list byte))
    (fuel : nat) :
  NoDup records.*1 ->
  Forall Blob.record_fits records ->
  Z.of_nat (length (Blob.vis_blob records)) < 2 ^ 62 ->
  (length records <= fuel)%nat ->
  exists index,
    MirParser.scan_int_start fuel (Blob.vis_blob records) = Ok index /\
    index = Blob.index_of records /\
    length index = length records /\
    index.*1 = records.*1 /\
    StronglySorted Z.lt (Blob.offsets index) /\
    Blob.total (Blob.sizes index) =
      Z.of_nat (length (Blob.vis_blob records)).
Proof.
  intros Hnd Hfit Hsize Hfuel. exists (Blob.index_of records).
  split; [|split; [reflexivity|]].
  - destruct (scan_int_start_prefix records [] (fuel - length records)
                Hnd Hfit) as (f' & lo' & _ & _ & Hrun).
    { by rewrite app_nil_r. }
    rewrite app_nil_r in Hrun.
    replace (length records + (fuel - length records))%nat with fuel
      in Hrun by lia.
    rewrite Hrun. apply scan_int_loop_done. lia.
  - unfold Blob.index_of. split; [apply length_index_from|].
    split; [apply index_from_keys|].
    split; [apply offsets_index_from_sorted|].
    apply total_sizes_index_from.
Qed.

Lemma scan_int_start_complete_witness :
  exists index,
    MirParser.scan_int_start 2 (Blob.vis_blob Sample.vis_records)
      = Ok index /\
    index = Blob.index_of Sample.vis_records /\
    length index = length Sample.vis_records /\
    index.*1 = Sample.vis_records.*1 /\
    StronglySorted Z.lt (Blob.offsets index) /\
    Blob.total (Blob.sizes index) =
      Z.of_nat (length (Blob.vis_blob Sample.vis_records)).
Proof.
  apply (scan_int_start_complete Sample.vis_records 2).
  - apply (bool_decide_unpack _). vm_compute. exact I.
  - repeat constructor; vm_compute; congruence.
  - vm_compute. reflexivity.
  - vm_compute. lia.
Defined.

(** C8 as stated fails: a header that declares 100 bytes of payload
    with 10 bytes left in the file is indexed like any other, and the
    scan returns. *)
Lemma truncated_blob_is_indexed :
  Z.of_nat (length Sample.truncated) - 8 < 100 /\
  Np.int32_of (take 4 (drop 4 Sample.truncated)) = 100 /\
  MirParser.scan_int_start 5 Sample.truncated = Ok [(1, (108, 0))].
Proof. split; [|split]; vm_compute; reflexivity. Qed.

(** C8, amended: the scan reads headers only and never compares a
    declared size with what is left.  On a blob of whole records
    followed by a record whose header declares more payload than
    remains, it returns the index of the whole records followed by an
    entry for the cut record, with the size its header declares. *)
Theorem scan_int_start_truncated (records : list (Z * list byte))
    (id insize : Z) (tail : list byte) (fuel : nat) :
  let blob :=
    Blob.vis_blob records ++ le_split 4 id ++ le_split 4 insize ++ tail in
  NoDup (records.*1 ++ [id]) ->
  Forall Blob.record_fits records ->
  - 2 ^ 31 <= id < 2 ^ 31 ->
  0 <= insize < 2 ^ 31 ->
  Z.of_nat (length tail) < insize ->
  Z.of_nat (length blob) < 2 ^ 62 ->
  (length records < fuel)%nat ->
  MirParser.scan_int_start fuel blob =
    Ok (Blob.index_of records
          ++ [(id, (insize + 8,
                    Z.of_nat (length (Blob.vis_blob records))))]).
Proof.
  intros blob Hnd Hfit Hid Hsz Htail Hsize Hfuel.
  assert (Hnd' : NoDup records.*1) by (by apply NoDup_app in Hnd as (? & _)).
  destruct (scan_int_start_prefix records
              (le_split 4 id ++ le_split 4 insize ++ tail)
              (S (fuel - S (length records))) Hnd' Hfit Hsize)
    as (f' & lo' & Hc & Hp & Hrun).
  replace (length records + S (fuel - S (length records)))%nat with fuel
    in Hrun by lia.
  fold blob in Hc, Hrun. rewrite Hrun. clear Hrun.
  assert (Hc' : content f' =
                Blob.vis_blob records
                  ++ (le_split 4 id ++ le_split 4 insize) ++ tail).
  { rewrite Hc. unfold blob. by rewrite <- !app_assoc. }
  assert (Hh : length (le_split 4 id ++ le_split 4 insize) = 8%nat)
    by (by rewrite length_app, !length_le_split).
  pose proof (scan_int_loop_header (fuel - S (length records)) f'
                _ _ _ lo' (Blob.index_of records) Hc' Hh Hp) as Hstep.
  cbv zeta in Hstep. rewrite Hc in Hstep. rewrite Hstep. clear Hstep.
  rewrite take_app_length', drop_app_length' by (by rewrite length_le_split).
  rewrite !int32_of_le_split by lia.
  assert (Hlen : Z.of_nat (length blob) =
                 Z.of_nat (length (Blob.vis_blob records)) + 8
                 + Z.of_nat (length tail)).
  { unfold blob. rewrite !length_app, !length_le_split. lia. }
  rewrite wrap64_small by lia.
  rewrite scan_int_loop_done by lia.
  rewrite setitem_fresh; [reflexivity|].
  unfold Blob.index_of. rewrite index_from_keys.
  apply NoDup_app in Hnd as (_ & Hd & _). intros Hin.
  apply (Hd id Hin). by left.
Qed.

Lemma scan_int_start_truncated_witness :
  MirParser.scan_int_start 5
    (Blob.vis_blob Sample.vis_records
       ++ le_split 4 3 ++ le_split 4 100 ++ replicate 10 Byte.x00) =
    Ok (Blob.index_of Sample.vis_records
          ++ [(3, (100 + 8,
                   Z.of_nat (length (Blob.vis_blob Sample.vis_records))))]).
Proof.
  apply (scan_int_start_truncated Sample.vis_records 3 100
           (replicate 10 Byte.x00) 5).
  - apply (bool_decide_unpack _). vm_compute. exact I.
  - repeat constructor; vm_compute; congruence.
  - lia.
  - lia.
  - vm_compute. reflexivity.
  - vm_compute. reflexivity.
  - vm_compute. lia.
Defined.

(** The scan does fail when the file ends inside a header: the short
    read comes back empty and taking its first item raises. *)
Lemma scan_int_start_cut_header (records : list (Z * list byte))
    (partial : list byte) (fuel : nat) :
  NoDup records.*1 ->
  Forall Blob.record_fits records ->
  (0 < length partial < 8)%nat ->
  Z.of_nat (length (Blob.vis_blob records ++ partial)) < 2 ^ 62 ->
  (length records < fuel)%nat ->
  MirParser.scan_int_start fuel (Blob.vis_blob records ++ partial) =
    Raise out_of_bounds.
Proof.
  intros Hnd Hfit Hpart Hsize Hfuel.
  destruct (scan_int_start_prefix records partial
              (S (fuel - S (length records))) Hnd Hfit Hsize)
    as (f' & lo' & Hc & Hp & Hrun).
  replace (length records + S (fuel - S (length records)))%nat with fuel
    in Hrun by lia.
  rewrite Hrun. clear Hrun. cbn [MirParser.scan_int_loop].
  rewrite length_app.
  destruct (Z.ltb_spec (Z.of_nat (length (Blob.vis_blob records)))
              (Z.of_nat (length (Blob.vis_blob records) + length partial)))
    as [_|?]; [|lia].
  destruct (fromfile_short f' 8 lo') as [f'' Hf].
  - lia.
  - lia.
  - rewrite Hc, length_app. lia.
  - rewrite Hf. reflexivity.
Qed.

(** ** The scan of the auto-correlation blob *)

Lemma wrap_range bits x :
  0 < bits -> - 2 ^ (bits - 1) <= Np.wrap bits x < 2 ^ (bits - 1).
Proof.
  intros Hb. unfold Np.wrap.
  assert (H2 : 2 ^ bits = 2 * 2 ^ (bits - 1)).
  { rewrite <- Z.pow_succ_r by lia. f_equal. lia. }
  assert (0 < 2 ^ (bits - 1)) by (apply Z.pow_pos_nonneg; lia).
  pose proof (Z.mod_pos_bound (x + 2 ^ (bits - 1)) (2 ^ bits)). lia.
Qed.

Lemma wrap32_int32_of bs : Np.wrap32 (Np.int32_of bs) = Np.int32_of bs.
Proof.
  apply wrap_small; [lia|]. apply (wrap_range 32). lia.
Qed.

Lemma auto_samples_size_eq n : MirParser.auto_samples_size n = 131072 * n.
Proof. unfold MirParser.auto_samples_size. lia. Qed.

(** The bytes of a file split around the item that starts at [start]. *)
Lemma split_at_item (bytes : list byte) (start size : nat) :
  (start + size <= length bytes)%nat ->
  bytes = take start bytes ++ take size (drop start bytes)
            ++ drop size (drop start bytes) /\
  length (take start bytes) = start /\
  length (take size (drop start bytes)) = size.
Proof.
  intros H. split; [|split].
  - by rewrite !take_drop.
  - rewrite length_take. lia.
  - rewrite length_take, length_drop. lia.
Qed.

(** An iteration of the scan after the first. *)
Lemma scan_auto_loop_step fuel (bytes : list byte) (f : file) (m : nat)
    (R declared : Z) (rows : list ac_row) :
  content f = bytes ->
  20 <= R ->
  pos f + (R - 20) = Z.of_nat m * R ->
  (1 <= m)%nat ->
  Z.of_nat m * R + R <= Z.of_nat (length bytes) ->
  (m < length rows)%nat ->
  exists f' row,
    content f' = bytes /\
    pos f' + (R - 20) = Z.of_nat (S m) * R /\
    nchunks row = Np.wrap32 declared /\
    MirParser.scan_auto_loop (S fuel) (Z.of_nat (length bytes)) f
      (Z.of_nat m * R) (R - 20) declared m (Some rows) =
    MirParser.scan_auto_loop fuel (Z.of_nat (length bytes)) f'
      (Z.of_nat (S m) * R) (R - 20) declared (S m)
      (Some (<[m := row]> rows)).
Proof.
  intros Hc HR Hp Hm Hend Hrows.
  destruct (split_at_item bytes (Z.to_nat (Z.of_nat m * R)) 20)
    as (Hsplit & Hpre & Hitem); [lia|].
  set (pre := take (Z.to_nat (Z.of_nat m * R)) bytes) in *.
  set (item := take 20 (drop (Z.to_nat (Z.of_nat m * R)) bytes)) in *.
  set (rest := drop 20 (drop (Z.to_nat (Z.of_nat m * R)) bytes)) in *.
  assert (Hpre' : Z.of_nat (length pre) = Z.of_nat m * R) by lia.
  pose proof (fromfile_one f pre item rest (R - 20)) as Hf.
  rewrite Hitem, Hpre' in Hf. change (Z.of_nat 20) with 20 in Hf.
  specialize (Hf ltac:(congruence) Hp ltac:(lia)).
  cbn [MirParser.scan_auto_loop].
  destruct (Z.ltb_spec (Z.of_nat m * R) (Z.of_nat (length bytes)))
    as [_|?]; [|lia].
  rewrite Hf. cbn [mbind result_bind fmap list_fmap].
  destruct (Z.eqb_spec (Z.of_nat m * R) 0) as [?|_]; [nia|].
  cbn [mbind result_bind Py.item lookup list_lookup].
  rewrite decide_True by assumption. cbn [mbind result_bind].
  eexists _, _. split; [|split; [|split]]; cycle 3.
  - replace (Z.of_nat m * R + (R - 20 + 20)) with (Z.of_nat (S m) * R)
      by lia.
    reflexivity.
  - cbn [content]. exact Hc.
  - cbn [pos]. lia.
  - reflexivity.
Qed.

(** The scan from record [m] on, when whole records of [R] bytes fill
    the file. *)
Lemma scan_auto_loop_rest (bytes : list byte) (R declared : Z) (n : nat) :
  20 <= R ->
  Z.of_nat (length bytes) = Z.of_nat n * R ->
  forall (k m : nat) fuel (f : file) (rows : list ac_row),
    (m + k = n)%nat -> (1 <= m)%nat ->
    content f = bytes ->
    pos f + (R - 20) = Z.of_nat m * R ->
    length rows = n ->
    (forall i row, (i < m)%nat -> rows !! i = Some row ->
                   nchunks row = Np.wrap32 declared) ->
    exists rows',
      MirParser.scan_auto_loop (k + fuel) (Z.of_nat (length bytes)) f
        (Z.of_nat m * R) (R - 20) declared m (Some rows) = Ok rows' /\
      length rows' = n /\
      Forall (fun row => nchunks row = Np.wrap32 declared) rows'.
Proof.
  intros HR Hsize. induction k as [|k IH];
    intros m fuel f rows Hmk Hm Hc Hp Hlen Hdone.
  - assert (m = n) as -> by lia. exists rows. split; [|split].
    + destruct fuel; cbn [MirParser.scan_auto_loop Nat.add];
        destruct (Z.ltb_spec (Z.of_nat n * R) (Z.of_nat (length bytes)));
        (lia || reflexivity).
    + assumption.
    + apply Forall_lookup. intros i row Hi.
      apply (Hdone i row); [|assumption].
      apply lookup_lt_Some in Hi. lia.
  - destruct (scan_auto_loop_step (k + fuel) bytes f m R declared rows)
      as (f' & row & Hc' & Hp' & Hrow & Hrun); try assumption.
    + rewrite Hsize. nia.
    + lia.
    + cbn [Nat.add]. rewrite Hrun.
      apply IH; try assumption.
      * lia.
      * lia.
      * by rewrite length_insert.
      * intros i row' Hi Hl.
        destruct (decide (i = m)) as [->|Hne].
        -- rewrite list_lookup_insert_eq in Hl by lia. congruence.
        -- rewrite list_lookup_insert_ne in Hl by congruence.
           apply (Hdone i row'); [lia | assumption].
Qed.

Lemma declared_in_first_item (bytes : list byte) :
  take 4 (drop 4 (take 20 bytes)) = take 4 (drop 4 bytes).
Proof.
  change 20%nat with (4 + 16)%nat.
  rewrite <- take_drop_commute, take_take. reflexivity.
Qed.

(** The first iteration when the file is not a whole number of records
    of the chunk count passed in. *)
Lemma scan_auto_first fuel (bytes : list byte) (nchunks0 : Z) :
  let file_size := Z.of_nat (length bytes) in
  let declared := Np.int32_of (take 4 (drop 4 bytes)) in
  let R := MirParser.auto_samples_size declared + 20 in
  (20 <= length bytes)%nat ->
  file_size mod (MirParser.auto_samples_size nchunks0 + 20) <> 0 ->
  (file_size mod R <> 0 ->
   MirParser.scan_auto_data (S fuel) bytes nchunks0 =
     Raise (IndexError "Could not determine auto-correlation record size!"))
  /\
  (file_size mod R = 0 -> 0 <= declared ->
   exists f' row,
     content f' = bytes /\ pos f' + (R - 20) = Z.of_nat 1 * R /\
     nchunks row = Np.wrap32 declared /\
     MirParser.scan_auto_data (S fuel) bytes nchunks0 =
       MirParser.scan_auto_loop fuel file_size f' (Z.of_nat 1 * R) (R - 20)
         declared 1
         (Some (<[0%nat := row]>
                  (replicate (Z.to_nat (file_size / R)) MirParser.ac_zero
                   : list ac_row)))).
Proof.
  intros file_size declared R Hlen Hmis.
  destruct (split_at_item bytes 0 20) as (Hsplit & _ & Hitem); [lia|].
  rewrite drop_0 in Hsplit, Hitem. cbn [take app] in Hsplit.
  pose proof (fromfile_one (Np.open bytes) [] (take 20 bytes)
                (drop 20 bytes) 0 Hsplit eq_refl) as Hf.
  rewrite Hitem in Hf. change (Z.of_nat 20) with 20 in Hf.
  specialize (Hf ltac:(lia)). cbn [length] in Hf.
  change (Z.of_nat 0 + 20) with 20 in Hf.
  unfold MirParser.scan_auto_data. fold file_size.
  cbn [MirParser.scan_auto_loop].
  destruct (Z.ltb_spec 0 file_size) as [_|?]; [|lia].
  rewrite Hf. cbn [mbind result_bind fmap list_fmap].
  change (0 =? 0) with true. cbv iota.
  destruct (Z.eqb_spec
              (file_size mod (MirParser.auto_samples_size nchunks0 + 20)) 0)
    as [?|_]; [contradiction|].
  cbn [mbind result_bind Py.item lookup list_lookup].
  rewrite declared_in_first_item. fold declared. fold R.
  split.
  - intros Hmod.
    destruct (Z.eqb_spec (file_size mod R) 0) as [?|_]; [contradiction|].
    reflexivity.
  - intros Hmod Hdecl.
    destruct (Z.eqb_spec (file_size mod R) 0) as [_|?]; [|contradiction].
    cbn [mbind result_bind].
    assert (HR : 20 <= R).
    { unfold R. rewrite auto_samples_size_eq. lia. }
    assert (Hn : 1 <= file_size / R).
    { apply Z.div_le_lower_bound; [lia|].
      assert (Hpos : 0 < file_size) by (unfold file_size; lia).
      apply Z.mod_divide in Hmod as [q Hq]; [|lia].
      assert (1 <= q) by nia. nia. }
    unfold Np.zeros.
    change (MirParser.auto_samples_size declared + 20) with R.
    destruct (Z.ltb_spec (file_size / R) 0) as [?|_]; [lia|].
    cbn [mbind result_bind].
    rewrite decide_True by (rewrite length_replicate; lia).
    cbn [mbind result_bind].
    eexists _, _. split; [|split; [|split]]; cycle 3.
    + replace (0 + (MirParser.auto_samples_size declared + 20))
        with (Z.of_nat 1 * R) by (unfold R; lia).
      replace (MirParser.auto_samples_size declared) with (R - 20)
        by (unfold R; lia).
      reflexivity.
    + reflexivity.
    + cbn [pos]. unfold R. lia.
    + reflexivity.
Qed.

(** C7 as stated fails at its edges: with a header that declares minus
    one chunk the negative record size divides the file size and the
    scan raises [ValueError] on the negative row count; on a file that
    ends inside its first header there is no declared value to read
    and the scan raises NumPy's own [IndexError]. *)
Lemma scan_auto_data_edges :
  (Z.of_nat (length Sample.auto_negative)
     mod (MirParser.auto_samples_size 8 + 20) <> 0 /\
   Np.int32_of (take 4 (drop 4 Sample.auto_negative)) = -1 /\
   Z.of_nat (length Sample.auto_negative)
     mod (MirParser.auto_samples_size (-1) + 20) = 0 /\
   MirParser.scan_auto_data 5 Sample.auto_negative 8 = Raise ValueError) /\
  (Z.of_nat (length Sample.auto_stub)
     mod (MirParser.auto_samples_size 8 + 20) <> 0 /\
   MirParser.scan_auto_data 5 Sample.auto_stub 8 = Raise out_of_bounds).
Proof.
  split; [split; [|split; [|split]]|split];
    vm_compute; (reflexivity || discriminate).
Qed.

(** C7, amended with what the two edges force: for a file that holds
    its first 20-byte header, whose declared chunk count is not
    negative, and whose size is not a multiple of the record size of
    the chunk count passed in (8 by default), [scan_auto_data] takes the
    chunk count the first header declares; when the record size that
    follows from it divides the file size the scan returns one row per
    record, each with the declared chunk count, and otherwise it raises
    [IndexError] "Could not determine auto-correlation record size!". *)
Theorem scan_auto_data_recovery (bytes : list byte) (nchunks0 : Z)
    (fuel : nat) :
  let file_size := Z.of_nat (length bytes) in
  let declared := Np.int32_of (take 4 (drop 4 bytes)) in
  let R := MirParser.auto_samples_size declared + 20 in
  (20 <= length bytes)%nat ->
  0 <= declared ->
  file_size mod (MirParser.auto_samples_size nchunks0 + 20) <> 0 ->
  (0 < fuel)%nat ->
  (file_size mod R = 0 ->
   file_size / R <= Z.of_nat fuel ->
   exists rows,
     MirParser.scan_auto_data fuel bytes nchunks0 = Ok rows /\
     Z.of_nat (length rows) = file_size / R /\
     Forall (fun row => nchunks row = declared) rows) /\
  (file_size mod R <> 0 ->
   MirParser.scan_auto_data fuel bytes nchunks0 =
     Raise (IndexError "Could not determine auto-correlation record size!")).
Proof.
  intros file_size declared R Hlen Hdecl Hmis Hfuel.
  destruct fuel as [|fuel]; [lia|].
  destruct (scan_auto_first fuel bytes nchunks0 Hlen Hmis) as [Hbad Hgood].
  fold file_size declared R in Hbad, Hgood.
  split; [|exact Hbad].
  intros Hmod Henough.
  destruct (Hgood Hmod Hdecl) as (f' & row & Hc & Hp & Hrow & Hrun).
  assert (HR : 20 <= R).
  { unfold R. rewrite auto_samples_size_eq. lia. }
  assert (Hpos : 0 < file_size) by (unfold file_size; lia).
  apply Z.mod_divide in Hmod as [q Hq]; [|lia].
  assert (Hq0 : 1 <= q) by nia.
  assert (Hdiv : file_size / R = q) by (rewrite Hq; apply Z.div_mul; lia).
  rewrite Hdiv in *.
  assert (Hqn : Z.of_nat (Z.to_nat q) = q) by lia.
  destruct (scan_auto_loop_rest bytes R declared (Z.to_nat q) HR
              ltac:(fold file_size; lia)
              (Z.to_nat q - 1) 1 (S fuel - Z.to_nat q) f'
              (<[0%nat := row]> (replicate (Z.to_nat q) MirParser.ac_zero)))
    as (rows & Hrows & Hl & Hall).
  - lia.
  - lia.
  - assumption.
  - assumption.
  - by rewrite length_insert, length_replicate.
  - intros i row' Hi Hl. assert (i = 0%nat) as -> by lia.
    rewrite list_lookup_insert_eq in Hl
      by (rewrite length_replicate; lia).
    congruence.
  - exists rows. rewrite Hrun.
    replace fuel with (Z.to_nat q - 1 + (S fuel - Z.to_nat q))%nat by lia.
    fold file_size in Hrows. split; [exact Hrows|].
    split; [lia|].
    unfold declared in *. by rewrite wrap32_int32_of in Hall.
Qed.

Lemma scan_auto_data_recovery_witness :
  (exists rows,
     MirParser.scan_auto_data 3 Sample.auto_three_chunks 8 = Ok rows /\
     Z.of_nat (length rows) =
       Z.of_nat (length Sample.auto_three_chunks)
       / (MirParser.auto_samples_size
            (Np.int32_of (take 4 (drop 4 Sample.auto_three_chunks))) + 20) /\
     Forall (fun row =>
               nchunks row =
               Np.int32_of (take 4 (drop 4 Sample.auto_three_chunks)))
            rows) /\
  MirParser.scan_auto_data 3 Sample.auto_misdeclared 8 =
    Raise (IndexError "Could not determine auto-correlation record size!").
Proof.
  split.
  - apply (scan_auto_data_recovery Sample.auto_three_chunks 8 3).
    + apply Nat.leb_le. vm_compute. reflexivity.
    + vm_compute. discriminate.
    + vm_compute. discriminate.
    + lia.
    + vm_compute. reflexivity.
    + vm_compute. discriminate.
  - apply (scan_auto_data_recovery Sample.auto_misdeclared 8 3).
    + apply Nat.leb_le. vm_compute. reflexivity.
    + vm_compute. discriminate.
    + vm_compute. discriminate.
    + lia.
    + vm_compute. discriminate.
Defined.

(** ** The payload decoder *)

Lemma chunks_take {A : Type} (size n m : nat) (l : list A) :
  (size * n <= m)%nat ->
  Np.chunks size n (take m l) = Np.chunks size n l.
Proof.
  revert m l. induction n as [|n IH]; intros m l Hm; cbn [Np.chunks].
  - reflexivity.
  - rewrite take_take, Nat.min_l by lia. f_equal.
    replace m with (size + (m - size))%nat at 1 by lia.
    rewrite <- take_drop_commute. apply IH. nia.
Qed.

Lemma read_vis_step_single (sch : list byte) (dtypes : gmap Z Z)
    (inhid size start : Z) :
  size <> 0 ->
  - 2 ^ 63 <= start < 2 ^ 63 ->
  MirParser.read_vis_step [(inhid, (size, start))] dtypes
    {| MirParser.visibilities_file := Np.open sch;
       MirParser.rd_last_offset := 0; MirParser.rd_last_size := 0;
       MirParser.rd_num_vals := 0; MirParser.rd_del_offset := 0;
       MirParser.inhid_list := []; MirParser.in_data_dict := ∅ |}
    inhid =
  Ok {| MirParser.visibilities_file := Np.open sch;
        MirParser.rd_last_offset := start; MirParser.rd_last_size := size;
        MirParser.rd_num_vals := 1; MirParser.rd_del_offset := start;
        MirParser.inhid_list := [inhid]; MirParser.in_data_dict := ∅ |}.
Proof.
  intros Hsize Hstart.
  unfold MirParser.read_vis_step, Py.getitem_ordered.
  cbn [Py.assoc]. rewrite (Z.eqb_refl inhid).
  cbn [mbind result_bind MirParser.rd_last_size MirParser.rd_num_vals
       MirParser.rd_last_offset].
  destruct (Z.eqb_spec size 0) as [?|_]; [contradiction|].
  cbn [negb orb andb]. change (0 =? 0) with true.
  cbn [negb orb andb mbind result_bind MirParser.visibilities_file
       MirParser.rd_last_offset MirParser.rd_last_size
       MirParser.rd_num_vals MirParser.rd_del_offset MirParser.inhid_list
       MirParser.in_data_dict app].
  change (0 * 0) with 0. change (Np.wrap64 0) with 0.
  rewrite Z.add_0_l. change (Np.wrap64 0) with 0. rewrite Z.sub_0_r.
  rewrite wrap64_small by assumption. reflexivity.
Qed.

(** [read_vis_data] asked for one integration reads the record the
    index points at. *)
Lemma read_packdata_block (sch : list byte) (index : list (Z * (Z * Z)))
    (inhid : Z) (block : list Z) :
  Z.of_nat (length sch) < 2 ^ 62 ->
  block_at sch index inhid block ->
  MirParser.read_packdata sch index inhid = Ok block.
Proof.
  intros Hsize (size & start & Hidx & Hstart & Hsz & Hend & ->).
  unfold MirParser.read_packdata, Py.getitem_ordered. rewrite Hidx.
  cbn [mbind result_bind].
  set (npack := (size - 8) / 2).
  assert (Hnp : 0 <= npack) by (apply Z.div_pos; lia).
  assert (Hitem : 8 + 2 * npack <= size).
  { unfold npack. pose proof (Z.mul_div_le (size - 8) 2). lia. }
  unfold MirParser.read_vis_data.
  cbn [fmap list_fmap fst snd Np.unique foldr Np.insert_unique
       MirParser.register_dtypes for_loop Py.sorted Py.insert_sorted].
  fold npack.
  destruct (Z.ltb_spec npack 0) as [?|_]; [lia|].
  cbn [mbind result_bind for_loop].
  rewrite read_vis_step_single by lia.
  cbn [mbind result_bind MirParser.rd_num_vals].
  change (1 =? 0) with false. cbn [negb].
  unfold MirParser.read_group.
  cbn [MirParser.visibilities_file MirParser.rd_last_offset
       MirParser.rd_last_size MirParser.rd_num_vals MirParser.rd_del_offset
       MirParser.inhid_list MirParser.in_data_dict].
  rewrite (getitem_Some _ size npack) by apply lookup_insert_eq.
  cbn [mbind result_bind].
  destruct (split_at_item sch (Z.to_nat start) (Z.to_nat (8 + 2 * npack)))
    as (Hsplit & Hpre & Hlen); [lia|].
  pose proof (fromfile_one (Np.open sch) _ _ _ start Hsplit) as Hf.
  rewrite Hpre, Hlen in Hf. rewrite !Z2Nat.id in Hf by lia.
  rewrite Hf by (cbn [Np.open pos]; lia).
  cbn [mbind result_bind fmap list_fmap zip zip_with Py.dict_update foldl
       fst snd].
  erewrite getitem_Some by apply lookup_insert_eq.
  cbn [mbind result_bind].
  f_equal. unfold MirParser.decode_vis_record. cbn [MirParser.packdata].
  rewrite Hlen.
  replace (Z.to_nat (8 + 2 * npack) - 8)%nat with (2 * Z.to_nat npack)%nat
    by lia.
  rewrite Nat.mul_comm, Nat.div_mul by lia.
  f_equal.
  replace (Z.to_nat (8 + 2 * npack)) with (8 + 2 * Z.to_nat npack)%nat
    by lia.
  rewrite <- take_drop_commute.
  rewrite chunks_take by lia.
  rewrite drop_drop. do 2 f_equal. lia.
Qed.

(** *** List helpers *)

Lemma compress_fmap {A B : Type} (f : A -> B) mask (l : list A) :
  Np.compress mask (f <$> l) = f <$> Np.compress mask l.
Proof.
  revert l. induction mask as [|b mask IH]; intros [|x l]; simpl;
    try reflexivity.
  destruct b; simpl; by rewrite IH.
Qed.

Lemma compress_filter {A : Type} (b : A -> bool) (P : A -> Prop)
    `{forall x, Decision (P x)} (l : list A) :
  (forall x, b x = true <-> P x) ->
  Np.compress (b <$> l) l = filter P l.
Proof.
  intros Hb. induction l as [|x l IH]; [reflexivity|].
  cbn [fmap list_fmap Np.compress]. change (list_fmap A bool b l) with (b <$> l).
  rewrite IH. destruct (b x) eqn:E.
  - rewrite filter_cons_True; [reflexivity | by apply Hb].
  - rewrite filter_cons_False; [reflexivity|].
    intros HP. apply Hb in HP. congruence.
Qed.

Lemma mapM_fmap_Ok {A B : Type} (f : A -> result B) (g : A -> B)
    (l : list A) :
  (forall x, x ∈ l -> f x = Ok (g x)) -> mapM f l = Ok (g <$> l).
Proof.
  intros H. apply mapM_Ok. apply Forall2_fmap_r, Forall_Forall2_diag.
  by apply Forall_forall.
Qed.

Lemma for_loop_app {A S : Type} (body : S -> A -> result S) s l1 l2 :
  for_loop body s (l1 ++ l2) = s' ← for_loop body s l1; for_loop body s' l2.
Proof.
  revert s. induction l1 as [|x l1 IH]; intros s; simpl.
  - reflexivity.
  - destruct (body s x) as [s'| |]; simpl; [apply IH | reflexivity..].
Qed.

Lemma index_nonneg {A : Type} (a : list A) (i : nat) x :
  a !! i = Some x -> Py.index a (Z.of_nat i) = Ok x.
Proof.
  intros H. pose proof (lookup_lt_Some _ _ _ H) as Hlt.
  unfold Py.index.
  destruct (Z.leb_spec 0 (Z.of_nat i)) as [_|?]; [|lia].
  destruct (Z.ltb_spec (Z.of_nat i) (Z.of_nat (length a))) as [_|?]; [|lia].
  cbn [andb]. unfold Py.item. by rewrite Nat2Z.id, H.
Qed.

Lemma slice_inside {A : Type} (a : list A) (i n : nat) :
  (i + n <= length a)%nat ->
  Py.slice a (Z.of_nat i) (Z.of_nat i + Z.of_nat n) = take n (drop i a).
Proof.
  intros H. unfold Py.slice, Py.slice_bound.
  destruct (Z.ltb_spec (Z.of_nat i) 0) as [?|_]; [lia|].
  destruct (Z.ltb_spec (Z.of_nat i + Z.of_nat n) 0) as [?|_]; [lia|].
  rewrite !Z.min_l by lia.
  f_equal; [lia|]. f_equal. lia.
Qed.

Lemma length_pair_up l n :
  length l = (2 * n)%nat -> length (MirParser.pair_up l) = n.
Proof.
  revert l. induction n as [|n IH]; intros l Hl.
  - by destruct l.
  - destruct l as [|x [|y l]]; simpl in Hl; try lia.
    cbn [MirParser.pair_up length]. f_equal. apply IH. lia.
Qed.

Lemma pair_up_lookup l k x y :
  l !! (2 * k)%nat = Some x -> l !! (2 * k + 1)%nat = Some y ->
  MirParser.pair_up l !! k = Some {| re := x; im := y |}.
Proof.
  revert l. induction k as [|k IH]; intros l Hx Hy.
  - destruct l as [|x' [|y' l]]; simpl in *; try discriminate.
    congruence.
  - replace (2 * S k)%nat with (S (S (2 * k))) in Hx by lia.
    replace (2 * S k + 1)%nat with (S (S (2 * k + 1))) in Hy by lia.
    destruct l as [|x' [|y' l]]; try discriminate.
    cbn [MirParser.pair_up]. rewrite lookup_cons. apply IH; assumption.
Qed.

Lemma unique_sorted l : StronglySorted Z.lt (Np.unique l).
Proof.
  assert (Hins : forall x l, StronglySorted Z.lt l ->
                             StronglySorted Z.lt (Np.insert_unique x l)).
  { clear. intros x l H. induction H as [|y l Hl IH Hy]; simpl.
    - repeat constructor.
    - destruct (Z.ltb_spec x y).
      + constructor; [by constructor|]. constructor; [assumption|].
        eapply Forall_impl; [exact Hy|]. intros z Hz. simpl in Hz. lia.
      + destruct (Z.eqb_spec x y) as [->|Hne].
        * by constructor.
        * constructor; [assumption|]. apply Forall_forall. intros z Hz.
          apply elem_of_insert_unique in Hz as [->|Hz]; [lia|].
          rewrite Forall_forall in Hy. by apply Hy. }
  induction l as [|x l IH]; [constructor|].
  unfold Np.unique in *. simpl. by apply Hins.
Qed.

Lemma NoDup_unique l : NoDup (Np.unique l).
Proof.
  pose proof (unique_sorted l) as H.
  induction H as [|x k Hk IH Hx]; constructor; [|assumption].
  intros Hin. rewrite Forall_forall in Hx. specialize (Hx x Hin). lia.
Qed.

Lemma multiply_rows_uniform (scale : list spec_float) (rows : list (list Z))
    (n : nat) :
  Forall (fun r => length r = n) rows ->
  MirParser.multiply_rows scale rows =
    Ok (zip_with (fun s r => (fun x => Np.mul s (Np.single_of_int x)) <$> r)
                 scale rows).
Proof.
  intros H. unfold MirParser.multiply_rows.
  destruct rows as [|r0 rows'].
  - by destruct scale.
  - replace (forallb _ _) with true; [reflexivity|].
    symmetry. apply forallb_forall. intros r Hr. apply Nat.eqb_eq.
    rewrite Forall_forall in H. apply list_elem_of_In in Hr.
    rewrite (H r Hr), (H r0); [reflexivity | by left].
Qed.

(** *** One batch, one block, all blocks *)

Lemma placed_scale (block : list Z) (r : sp_row) :
  placed block r ->
  dataoff r / 2 = Z.of_nat (first_element r) /\
  Py.index block (dataoff r / 2) =
    Ok (default 0 (block !! first_element r)).
Proof.
  intros (H0 & Hn & Hend). unfold first_element.
  split; [lia|].
  destruct (lookup_lt_is_Some_2 block (Z.to_nat (dataoff r / 2))) as [s Hs];
    [lia|].
  rewrite Hs. cbn [default].
  rewrite <- (Z2Nat.id (dataoff r / 2)) at 1 by lia. by apply index_nonneg.
Qed.

Lemma placed_mantissas (block : list Z) (r : sp_row) :
  placed block r ->
  Py.slice block (dataoff r / 2 + 1) (dataoff r / 2 + 1 + nch r * 2) =
    take (2 * Z.to_nat (nch r)) (drop (S (first_element r)) block) /\
  length (take (2 * Z.to_nat (nch r)) (drop (S (first_element r)) block)) =
    (2 * Z.to_nat (nch r))%nat.
Proof.
  intros (H0 & Hn & Hend). unfold first_element. split.
  - replace (dataoff r / 2 + 1)
      with (Z.of_nat (S (Z.to_nat (dataoff r / 2)))) by lia.
    replace (nch r * 2) with (Z.of_nat (2 * Z.to_nat (nch r))) by lia.
    apply slice_inside. lia.
  - rewrite length_take, length_drop. lia.
Qed.

(** The step of the loop over the channel counts: the records of the
    block with this channel count are decoded and appended. *)
Lemma parse_vis_group_batch (block : list Z) (L : list (nat * sp_row))
    acc (spec_size : Z) :
  (forall ir, ir ∈ L -> placed block ir.2) ->
  MirParser.parse_vis_group block
    ((fun ir => dataoff ir.2 / 2) <$> L)
    ((fun ir => nch ir.2) <$> L)
    (fst <$> L)
    ((fun ir => Np.power2 (default 0 (block !! first_element ir.2))) <$> L)
    acc spec_size =
  Ok (acc.1 ++ ((fun ir => spectrum block ir.2) <$>
                  filter (fun ir => nch ir.2 = spec_size) L),
      acc.2 ++ (fst <$> filter (fun ir => nch ir.2 = spec_size) L)).
Proof.
  intros Hplaced. unfold MirParser.parse_vis_group.
  rewrite <- list_fmap_compose.
  rewrite !compress_fmap.
  rewrite (compress_filter _ (fun ir => nch ir.2 = spec_size)).
  2:{ intros ir. unfold compose. rewrite Z.eqb_eq. split; congruence. }
  set (G := filter (fun ir => nch ir.2 = spec_size) L).
  assert (HG : forall ir, ir ∈ G -> placed block ir.2 /\ nch ir.2 = spec_size).
  { intros ir [Hn Hin]%list_elem_of_filter. auto. }
  rewrite <- !list_fmap_compose.
  rewrite zip_with_fmap_l, zip_with_fmap_r, zip_with_diag.
  erewrite (list_fmap_ext _
              (fun ir => take (2 * Z.to_nat (nch ir.2))
                              (drop (S (first_element ir.2)) block)) G).
  2:{ intros i ir Hi. apply list_elem_of_lookup_2 in Hi.
      destruct (HG ir Hi) as [Hp Hn]. unfold compose. rewrite <- Hn.
      apply placed_mantissas, Hp. }
  rewrite (multiply_rows_uniform _ _ (2 * Z.to_nat spec_size)).
  2:{ apply Forall_forall. intros r (ir & -> & Hin)%list_elem_of_fmap.
      destruct (HG ir Hin) as [Hp Hn]. rewrite <- Hn.
      apply placed_mantissas, Hp. }
  rewrite zip_with_fmap_l, zip_with_fmap_r, zip_with_diag.
  cbn [mbind result_bind]. unfold MirParser.view_csingle.
  rewrite (mapM_fmap_Ok _ MirParser.pair_up).
  2:{ intros r (ir & -> & Hin)%list_elem_of_fmap.
      destruct (HG ir Hin) as [Hp Hn].
      rewrite length_fmap, (proj2 (placed_mantissas _ _ Hp)).
      replace (Nat.even (2 * Z.to_nat (nch ir.2))) with true; [reflexivity|].
      symmetry. apply Nat.even_spec. by exists (Z.to_nat (nch ir.2)). }
  cbn [mbind result_bind]. rewrite <- list_fmap_compose. reflexivity.
Qed.

Lemma mapM_fmap_fmap {A B C : Type} (f : B -> result C) (g : A -> B)
    (h : A -> C) (l : list A) :
  (forall x, x ∈ l -> f (g x) = Ok (h x)) ->
  mapM f (g <$> l) = Ok (h <$> l).
Proof.
  intros H. apply mapM_Ok. apply Forall2_fmap, Forall_Forall2_diag.
  by apply Forall_forall.
Qed.

(** The loop over the channel counts, for one block. *)
Lemma parse_vis_groups (block : list Z) (L : list (nat * sp_row))
    (sizes : list Z) acc :
  (forall ir, ir ∈ L -> placed block ir.2) ->
  for_loop
    (MirParser.parse_vis_group block
       ((fun ir => dataoff ir.2 / 2) <$> L)
       ((fun ir => nch ir.2) <$> L)
       (fst <$> L)
       ((fun ir => Np.power2 (default 0 (block !! first_element ir.2)))
          <$> L))
    acc sizes =
  Ok (acc.1 ++ ((fun ir => spectrum block ir.2) <$>
                  (sizes ≫= fun sz => filter (fun ir => nch ir.2 = sz) L)),
      acc.2 ++ (fst <$>
                  (sizes ≫= fun sz => filter (fun ir => nch ir.2 = sz) L))).
Proof.
  intros Hplaced. revert acc.
  induction sizes as [|sz sizes IH]; intros acc.
  - cbn [for_loop]. change ([] ≫= _) with (@nil (nat * sp_row)).
    rewrite !fmap_nil, !app_nil_r. by destruct acc.
  - cbn [for_loop]. rewrite parse_vis_group_batch by assumption.
    cbn [mbind result_bind]. rewrite IH. cbn [fst snd].
    rewrite bind_cons, !fmap_app, !app_assoc. reflexivity.
Qed.

(** The step of the loop over the integrations. *)
Lemma parse_vis_block_batches (sch : list byte)
    (index : list (Z * (Z * Z))) (rows : list (nat * sp_row))
    (sizes : list Z) acc (inhid : Z) (block : list Z) :
  MirParser.read_packdata sch index inhid = Ok block ->
  (forall ir, ir ∈ rows -> sp_inhid ir.2 = inhid -> placed block ir.2) ->
  MirParser.parse_vis_block sch index
    ((fun ir => sp_inhid ir.2) <$> rows)
    ((fun ir => nch ir.2) <$> rows)
    ((fun ir => dataoff ir.2 / 2) <$> rows)
    (fst <$> rows) sizes acc inhid =
  Ok (acc.1 ++ ((fun ir => spectrum block ir.2) <$>
                  (sizes ≫= batch rows inhid)),
      acc.2 ++ (fst <$> (sizes ≫= batch rows inhid))).
Proof.
  intros Hread Hplaced. unfold MirParser.parse_vis_block.
  rewrite Hread. cbn [mbind result_bind].
  rewrite <- list_fmap_compose. rewrite !compress_fmap.
  rewrite (compress_filter _ (fun ir => sp_inhid ir.2 = inhid)).
  2:{ intros ir. unfold compose. by rewrite Z.eqb_eq. }
  set (L := filter (fun ir => sp_inhid ir.2 = inhid) rows).
  assert (HL : forall ir, ir ∈ L -> placed block ir.2).
  { intros ir [Hi Hin]%list_elem_of_filter. by apply Hplaced. }
  rewrite (mapM_fmap_fmap _ _
             (fun ir => default 0 (block !! first_element ir.2))).
  2:{ intros ir Hin. apply placed_scale, HL, Hin. }
  cbn [mbind result_bind]. rewrite <- list_fmap_compose.
  apply (parse_vis_groups block L sizes acc HL).
Qed.

(** The loop over the integrations. *)
Lemma parse_vis_blocks (sch : list byte) (index : list (Z * (Z * Z)))
    (rows : list (nat * sp_row)) (sizes ids : list Z) acc :
  (forall inhid, inhid ∈ ids ->
     exists block,
       MirParser.read_packdata sch index inhid = Ok block /\
       forall ir, ir ∈ rows -> sp_inhid ir.2 = inhid -> placed block ir.2) ->
  let order := ids ≫= fun inhid => sizes ≫= batch rows inhid in
  for_loop
    (MirParser.parse_vis_block sch index
       ((fun ir => sp_inhid ir.2) <$> rows)
       ((fun ir => nch ir.2) <$> rows)
       ((fun ir => dataoff ir.2 / 2) <$> rows)
       (fst <$> rows) sizes)
    acc ids =
  Ok (acc.1 ++ ((fun ir => spectrum (block_of sch index (sp_inhid ir.2)) ir.2)
                  <$> order),
      acc.2 ++ (fst <$> order)).
Proof.
  intros Hblocks. cbv zeta. revert acc.
  induction ids as [|inhid ids IH]; intros acc.
  - cbn [for_loop]. change ([] ≫= _) with (@nil (nat * sp_row)).
    rewrite !fmap_nil, !app_nil_r. by destruct acc.
  - cbn [for_loop].
    destruct (Hblocks inhid) as (block & Hread & Hplaced); [by left|].
    rewrite (parse_vis_block_batches _ _ _ _ _ _ block) by assumption.
    cbn [mbind result_bind].
    rewrite IH by (intros i Hi; apply Hblocks; by right).
    cbn [fst snd]. rewrite bind_cons, !fmap_app, !app_assoc.
    do 4 f_equal. apply list_fmap_ext. intros i ir Hi.
    apply list_elem_of_lookup_2 in Hi.
    apply list_elem_of_bind in Hi as (sz & Hin & _).
    unfold batch in Hin.
    apply list_elem_of_filter in Hin as [_ Hin].
    apply list_elem_of_filter in Hin as [Hid _].
    unfold block_of. by rewrite Hid, Hread.
Qed.

(** Every record is decoded once. *)
Lemma decode_order_perm (rows : list (nat * sp_row)) :
  NoDup rows -> decode_order rows ≡ₚ rows.
Proof.
  intros Hnd. apply NoDup_Permutation; [|assumption|].
  - unfold decode_order. apply NoDup_bind.
    + intros i1 i2 ir _ _ (s1 & H1 & _)%list_elem_of_bind
        (s2 & H2 & _)%list_elem_of_bind.
      unfold batch in H1, H2.
      apply list_elem_of_filter in H1 as [_ [H1 _]%list_elem_of_filter].
      apply list_elem_of_filter in H2 as [_ [H2 _]%list_elem_of_filter].
      congruence.
    + intros inhid _. apply NoDup_bind.
      * intros s1 s2 ir _ _ [H1 _]%list_elem_of_filter
          [H2 _]%list_elem_of_filter.
        congruence.
      * intros sz _. unfold batch. by do 2 apply NoDup_filter.
      * apply NoDup_unique.
    + apply NoDup_unique.
  - intros ir. unfold decode_order. rewrite list_elem_of_bind. split.
    + intros (inhid & (sz & Hin & _)%list_elem_of_bind & _).
      unfold batch in Hin.
      apply list_elem_of_filter in Hin as [_ Hin].
      by apply list_elem_of_filter in Hin as [_ Hin].
    + intros Hin. exists (sp_inhid ir.2). split.
      * apply list_elem_of_bind. exists (nch ir.2). split.
        -- unfold batch. apply list_elem_of_filter. split; [reflexivity|].
           apply list_elem_of_filter. by split.
        -- apply elem_of_unique, list_elem_of_fmap. by exists ir.
      * apply elem_of_unique, list_elem_of_fmap. by exists ir.
Qed.

Lemma indexed_lookup {A : Type} (l : list A) i ir :
  indexed l !! i = Some ir <-> ir.1 = i /\ l !! i = Some ir.2.
Proof.
  unfold indexed. destruct ir as [j x]. rewrite lookup_zip_Some, lookup_seq.
  cbn [fst snd]. split.
  - intros [[-> _] Hx]. auto.
  - intros [-> Hx]. split; [|assumption]. split; [reflexivity|].
    by apply lookup_lt_Some in Hx.
Qed.

Lemma indexed_columns {A : Type} (l : list A) :
  (indexed l).*1 = seq 0 (length l) /\ (indexed l).*2 = l.
Proof.
  unfold indexed. split.
  - apply fst_zip. by rewrite length_seq.
  - apply snd_zip. by rewrite length_seq.
Qed.

Lemma NoDup_indexed {A : Type} (l : list A) : NoDup (indexed l).
Proof.
  apply (NoDup_fmap_1 fst). rewrite (proj1 (indexed_columns l)).
  apply NoDup_seq.
Qed.

(** The order swapping at the end of [parse_vis_data] puts the spectra
    back in the order of the table. *)
Lemma reorder_spectra {A B : Type} (l : list A) (order : list (nat * A))
    (dec : nat * A -> B) :
  order ≡ₚ indexed l ->
  let sp_pos_list := order.*1 in
  let vis_list := dec <$> order in
  mapM (fun idx =>
          k ← Py.getitem
                (Py.dict_of (zip sp_pos_list
                                 (Py.range (length sp_pos_list)))) idx;
          Py.item vis_list k)
       (Py.range (length sp_pos_list)) =
  Ok (dec <$> indexed l).
Proof.
  intros Hperm sp_pos_list vis_list.
  assert (Hlen : length sp_pos_list = length (indexed l)).
  { unfold sp_pos_list. by rewrite length_fmap, Hperm. }
  apply mapM_Ok. apply Forall2_same_length_lookup_2.
  { unfold Py.range. by rewrite length_seq, length_fmap. }
  intros i idx y Hi Hy. unfold Py.range in Hi.
  apply lookup_seq in Hi as [-> Hi]. cbn [Nat.add].
  rewrite list_lookup_fmap in Hy.
  destruct (indexed l !! i) as [ir|] eqn:Hir; [|discriminate].
  injection Hy as <-.
  assert (Hin : ir ∈ order).
  { rewrite Hperm. by eapply list_elem_of_lookup_2. }
  pose proof (proj1 (indexed_lookup _ _ _) Hir) as [Hfst _].
  assert (Hpl : i ∈ sp_pos_list).
  { unfold sp_pos_list. apply list_elem_of_fmap. exists ir. split; congruence. }
  destruct (resolves_exists _ _ Hpl) as (k & Hres).
  pose proof (resolves_lt _ _ _ Hres) as Hk.
  erewrite getitem_nat.
  2:{ apply dict_of_zip_lookup.
      - unfold Py.range. by rewrite length_seq.
      - exists k. split; [exact Hres|]. unfold Py.range.
        by rewrite lookup_seq_lt. }
  cbn [mbind result_bind].
  destruct Hres as [Hlk _]. unfold sp_pos_list in Hlk.
  rewrite list_lookup_fmap in Hlk.
  destruct (order !! k) as [ir'|] eqn:Hir'; [|discriminate].
  injection Hlk as Hfst'.
  assert (ir' = ir) as ->.
  { assert (Hin' : ir' ∈ indexed l).
    { rewrite <- Hperm. by eapply list_elem_of_lookup_2. }
    apply list_elem_of_lookup_1 in Hin' as [j Hj].
    pose proof (proj1 (indexed_lookup _ _ _) Hj) as [Hfj _].
    assert (j = i) as -> by congruence. congruence. }
  unfold Py.item, vis_list. change (0 + k)%nat with k.
  by rewrite list_lookup_fmap, Hir'.
Qed.

(** [parse_vis_data] returns, for each row of the table and in the
    order of the table, the spectrum read off the block of the row's
    integration. *)
Lemma parse_vis_data_spectra (sch : list byte) (index : list (Z * (Z * Z)))
    (table : list sp_row) :
  Z.of_nat (length sch) < 2 ^ 62 ->
  (forall r, r ∈ table ->
     exists block, block_at sch index (sp_inhid r) block /\ placed block r) ->
  MirParser.parse_vis_data sch index table =
    Ok ((fun r => spectrum (block_of sch index (sp_inhid r)) r) <$> table).
Proof.
  intros Hsize Hrows. unfold MirParser.parse_vis_data.
  destruct (indexed_columns table) as [Hc1 Hc2].
  set (rows := indexed table) in *.
  assert (Hcol : forall (C : Type) (f : sp_row -> C),
             f <$> table = (fun ir => f ir.2) <$> rows).
  { intros C f. rewrite <- Hc2. by rewrite <- list_fmap_compose. }
  rewrite (Hcol _ sp_inhid), (Hcol _ nch), (Hcol _ (fun r => dataoff r / 2)).
  replace (Py.range (length ((fun ir => dataoff ir.2 / 2) <$> rows)))
    with (rows.*1).
  2:{ rewrite Hc1. unfold Py.range. f_equal. rewrite length_fmap.
      unfold rows, indexed. rewrite length_zip_with, length_seq. lia. }
  rewrite (parse_vis_blocks sch index rows).
  2:{ intros inhid Hin. apply (proj1 (elem_of_unique _ _)) in Hin.
      apply list_elem_of_fmap in Hin as (ir0 & -> & Hin0).
      assert (Hr0 : ir0.2 ∈ table).
      { rewrite <- Hc2. apply list_elem_of_fmap. by exists ir0. }
      destruct (Hrows _ Hr0) as (block & Hb & _).
      exists block. split; [by apply read_packdata_block|].
      intros ir Hir Hid.
      assert (Hr : ir.2 ∈ table).
      { rewrite <- Hc2. apply list_elem_of_fmap. by exists ir. }
      destruct (Hrows _ Hr) as (block' & Hb' & Hp).
      rewrite Hid in Hb'.
      apply (read_packdata_block _ _ _ _ Hsize) in Hb, Hb'.
      congruence. }
  cbn [mbind result_bind fst snd app].
  etrans.
  { apply (reorder_spectra table (decode_order rows)
             (fun ir => spectrum (block_of sch index (sp_inhid ir.2)) ir.2)).
    apply decode_order_perm, NoDup_indexed. }
  f_equal. fold rows. symmetry.
  apply (Hcol _ (fun r => spectrum (block_of sch index (sp_inhid r)) r)).
Qed.

Lemma exact_product_exactly s x :
  exact_product s x = true ->
  exactly (Np.mul (Np.power2 s) (Np.single_of_int x)) (inject_Z x * 2 ^ s)%Q.
Proof.
  unfold exact_product, exactly.
  destruct (value _) as [v|]; [|discriminate].
  intros H. exists v. split; [reflexivity|]. by apply Qeq_bool_iff.
Qed.

(** Between the smallest scale factor binary32 holds and the largest
    one under which three times the power stays finite, the pair
    (3, -2) decodes exactly. *)
Lemma small_pair_exact s :
  -149 <= s <= 126 ->
  exact_product s 3 = true /\ exact_product s (-2) = true.
Proof.
  intros Hs.
  assert (Hall : forallb (fun n => exact_product (Z.of_nat n - 149) 3 &&
                                   exact_product (Z.of_nat n - 149) (-2))
                   (seq 0 276) = true) by (vm_compute; reflexivity).
  rewrite forallb_forall in Hall.
  specialize (Hall (Z.to_nat (s + 149))).
  replace (Z.of_nat (Z.to_nat (s + 149)) - 149) with s in Hall by lia.
  apply andb_true_iff, Hall, in_seq. lia.
Qed.

Lemma spectrum_lookup (block : list Z) (r : sp_row) :
  placed block r ->
  exists s,
    block !! first_element r = Some s /\
    length (spectrum block r) = Z.to_nat (nch r) /\
    forall k, (k < Z.to_nat (nch r))%nat ->
      exists x y,
        block !! (first_element r + 1 + 2 * k)%nat = Some x /\
        block !! (first_element r + 2 + 2 * k)%nat = Some y /\
        spectrum block r !! k =
          Some {| re := Np.mul (Np.power2 s) (Np.single_of_int x);
                  im := Np.mul (Np.power2 s) (Np.single_of_int y) |}.
Proof.
  intros Hp. pose proof Hp as (H0 & Hn & Hend).
  destruct (placed_mantissas _ _ Hp) as [_ Hlen].
  assert (Hf : Z.of_nat (first_element r) = dataoff r / 2)
    by (unfold first_element; lia).
  destruct (lookup_lt_is_Some_2 block (first_element r)) as [s Hs]; [lia|].
  exists s. split; [exact Hs|]. unfold spectrum. rewrite Hs. cbn [default].
  split.
  { apply length_pair_up. by rewrite length_fmap. }
  intros k Hk.
  destruct (lookup_lt_is_Some_2 block (first_element r + 1 + 2 * k))
    as [x Hx]; [lia|].
  destruct (lookup_lt_is_Some_2 block (first_element r + 2 + 2 * k))
    as [y Hy]; [lia|].
  exists x, y. split; [exact Hx|]. split; [exact Hy|].
  apply pair_up_lookup.
  - rewrite list_lookup_fmap, lookup_take_lt, lookup_drop by lia.
    replace (S (first_element r) + 2 * k)%nat
      with (first_element r + 1 + 2 * k)%nat by lia.
    by rewrite Hx.
  - rewrite list_lookup_fmap, lookup_take_lt, lookup_drop by lia.
    replace (S (first_element r) + (2 * k + 1))%nat
      with (first_element r + 2 + 2 * k)%nat by lia.
    by rewrite Hy.
Qed.

(** C4 as stated fails where binary32 runs out: with the scale factor
    127 the pair (3, -2) decodes to the two infinities, which stand for
    no number. *)
Lemma parse_vis_data_overflow :
  MirParser.parse_vis_data (Blob.vis_blob Sample.vis_records_large)
    (Blob.index_of Sample.vis_records_large) Sample.sp_rows_large =
    Ok [[ {| re := S754_infinity false; im := S754_infinity true |} ]] /\
  value (S754_infinity false) = None /\
  value (S754_infinity true) = None.
Proof. split; [|split]; vm_compute; reflexivity. Qed.

(** C4, amended: for spectral records whose packed data lie inside the
    payload block of their integration, [parse_vis_data] returns one
    row per record, in table order; the row of a record reads the
    scale factor [s] at element [dataoff / 2] of the block and the
    [2 * nch] mantissas after it, and its channel [k] is the pair of
    single-precision products of two to the [s] with mantissas
    [2 * k] and [2 * k + 1]; for the mantissa pair (3, -2) and
    [-149 <= s <= 126] these products are the rationals [3 * 2 ^ s]
    and [-2 * 2 ^ s] exactly. *)
Theorem parse_vis_data_decodes (sch : list byte)
    (index : list (Z * (Z * Z))) (table : list sp_row) :
  Z.of_nat (length sch) < 2 ^ 62 ->
  (forall r, r ∈ table ->
     exists block, block_at sch index (sp_inhid r) block /\ placed block r) ->
  exists vis_list,
    MirParser.parse_vis_data sch index table = Ok vis_list /\
    length vis_list = length table /\
    forall i r block,
      table !! i = Some r ->
      block_at sch index (sp_inhid r) block ->
      exists s row,
        block !! first_element r = Some s /\
        vis_list !! i = Some row /\
        length row = Z.to_nat (nch r) /\
        forall k, (k < Z.to_nat (nch r))%nat ->
          exists x y c,
            block !! (first_element r + 1 + 2 * k)%nat = Some x /\
            block !! (first_element r + 2 + 2 * k)%nat = Some y /\
            row !! k = Some c /\
            c = {| re := Np.mul (Np.power2 s) (Np.single_of_int x);
                   im := Np.mul (Np.power2 s) (Np.single_of_int y) |} /\
            (-149 <= s <= 126 -> x = 3 -> y = -2 ->
             exactly (re c) (3 * 2 ^ s)%Q /\
             exactly (im c) (inject_Z (-2) * 2 ^ s)%Q).
Proof.
  intros Hsize Hrows.
  eexists. split; [by apply parse_vis_data_spectra|].
  split; [by rewrite length_fmap|].
  intros i r block Hi Hblock.
  destruct (Hrows r) as (block' & Hblock' & Hp);
    [by eapply list_elem_of_lookup_2|].
  pose proof (read_packdata_block _ _ _ _ Hsize Hblock) as Hread.
  pose proof (read_packdata_block _ _ _ _ Hsize Hblock') as Hread'.
  assert (block' = block) as -> by congruence.
  destruct (spectrum_lookup _ _ Hp) as (s & Hs & Hlen & Hch).
  exists s, (spectrum block r). split; [exact Hs|].
  split.
  { rewrite list_lookup_fmap, Hi. cbn [fmap option_fmap option_map].
    unfold block_of. by rewrite Hread. }
  split; [exact Hlen|].
  intros k Hk. destruct (Hch k Hk) as (x & y & Hx & Hy & Hc).
  do 3 eexists. split; [exact Hx|]. split; [exact Hy|].
  split; [exact Hc|]. split; [reflexivity|].
  intros Hrange -> ->. cbn [re im].
  destruct (small_pair_exact s Hrange) as [H3 H2].
  split; by apply exact_product_exactly.
Qed.

Lemma parse_vis_data_decodes_witness :
  exists vis_list,
    MirParser.parse_vis_data (Blob.vis_blob Sample.vis_records)
      Sample.index Sample.sp_rows = Ok vis_list /\
    length vis_list = length Sample.sp_rows /\
    forall i r block,
      Sample.sp_rows !! i = Some r ->
      block_at (Blob.vis_blob Sample.vis_records) Sample.index
        (sp_inhid r) block ->
      exists s row,
        block !! first_element r = Some s /\
        vis_list !! i = Some row /\
        length row = Z.to_nat (nch r) /\
        forall k, (k < Z.to_nat (nch r))%nat ->
          exists x y c,
            block !! (first_element r + 1 + 2 * k)%nat = Some x /\
            block !! (first_element r + 2 + 2 * k)%nat = Some y /\
            row !! k = Some c /\
            c = {| re := Np.mul (Np.power2 s) (Np.single_of_int x);
                   im := Np.mul (Np.power2 s) (Np.single_of_int y) |} /\
            (-149 <= s <= 126 -> x = 3 -> y = -2 ->
             exactly (re c) (3 * 2 ^ s)%Q /\
             exactly (im c) (inject_Z (-2) * 2 ^ s)%Q).
Proof.
  apply (parse_vis_data_decodes (Blob.vis_blob Sample.vis_records)
           Sample.index Sample.sp_rows).
  - vm_compute. reflexivity.
  - intros r Hr. unfold Sample.sp_rows in Hr.
    repeat (apply elem_of_cons in Hr as [->|Hr]);
      [| | | |by apply elem_of_nil in Hr];
      (eexists; split;
       [ do 2 eexists; split; [reflexivity|];
         split; [|split; [|split; [|reflexivity]]]; vm_compute; congruence
       | split; [|split]; vm_compute; congruence ]).
Defined.

(** ** Raw decoding on a table grouped by integration *)

Lemma bind_ext_in {A B : Type} (f g : A -> list B) (l : list A) :
  (forall x, x ∈ l -> f x = g x) -> l ≫= f = l ≫= g.
Proof.
  induction l as [|x l IH]; intros H; [reflexivity|].
  rewrite !bind_cons, (H x) by (by left).
  f_equal. apply IH. intros y Hy. apply H. by right.
Qed.

Lemma filter_all {A : Type} (P : A -> Prop) `{forall x, Decision (P x)}
    (l : list A) :
  (forall x, x ∈ l -> P x) -> filter P l = l.
Proof.
  induction l as [|x l IH]; intros HP; [reflexivity|].
  rewrite filter_cons_True by (apply HP; by left).
  f_equal. apply IH. intros y Hy. apply HP. by right.
Qed.

Lemma filter_none {A : Type} (P : A -> Prop) `{forall x, Decision (P x)}
    (l : list A) :
  (forall x, x ∈ l -> ~ P x) -> filter P l = [].
Proof.
  induction l as [|x l IH]; intros HP; [reflexivity|].
  rewrite filter_cons_False by (apply HP; by left).
  apply IH. intros y Hy. apply HP. by right.
Qed.

(** A table in ascending order of integration id starts with the
    records of the smallest id. *)
Lemma split_group (i : Z) (rows : list sp_row) :
  StronglySorted (fun a b => sp_inhid a <= sp_inhid b) rows ->
  (forall r, r ∈ rows -> i <= sp_inhid r) ->
  exists A B,
    rows = A ++ B /\
    (forall r, r ∈ A -> sp_inhid r = i) /\
    (forall r, r ∈ B -> i < sp_inhid r).
Proof.
  induction rows as [|r rows IH]; intros Hs Hlo.
  - exists [], []. split; [reflexivity|].
    split; intros r Hr; by apply elem_of_nil in Hr.
  - apply StronglySorted_inv in Hs as [Hs Hall].
    destruct (decide (sp_inhid r = i)) as [Heq|Hne].
    + destruct IH as (A & B & -> & HA & HB); [exact Hs| |].
      { intros x Hx. apply Hlo. by right. }
      exists (r :: A), B. split; [reflexivity|]. split; [|exact HB].
      intros x [->|Hx]%elem_of_cons; [exact Heq | by apply HA].
    + exists [], (r :: rows). split; [reflexivity|].
      split; [intros x Hx; by apply elem_of_nil in Hx|].
      assert (Hr : i < sp_inhid r).
      { specialize (Hlo r (list_elem_of_here _ _)). lia. }
      intros x [->|Hx]%elem_of_cons; [exact Hr|].
      rewrite Forall_forall in Hall. specialize (Hall x Hx). lia.
Qed.

(** Going through the ids in ascending order and taking the records
    of each gives back a table that is in ascending order of id. *)
Lemma groups_sorted (ids : list Z) (rows : list sp_row) :
  StronglySorted Z.lt ids ->
  StronglySorted (fun a b => sp_inhid a <= sp_inhid b) rows ->
  (forall r, r ∈ rows -> sp_inhid r ∈ ids) ->
  ids ≫= (fun i => filter (fun r => sp_inhid r = i) rows) = rows.
Proof.
  revert rows. induction ids as [|i ids IH]; intros rows Hids Hs Hin.
  - destruct rows as [|r rows]; [reflexivity|].
    specialize (Hin r (list_elem_of_here _ _)). by apply elem_of_nil in Hin.
  - apply StronglySorted_inv in Hids as [Hids Hall].
    rewrite Forall_forall in Hall.
    destruct (split_group i rows Hs) as (A & B & -> & HA & HB).
    { intros r Hr. specialize (Hin r Hr).
      apply elem_of_cons in Hin as [->|Hi]; [lia|].
      specialize (Hall _ Hi). lia. }
    rewrite bind_cons, filter_app.
    rewrite (filter_all _ A) by exact HA.
    rewrite (filter_none _ B)
      by (intros r Hr Heq; specialize (HB r Hr); lia).
    rewrite app_nil_r. f_equal.
    rewrite (bind_ext_in _ (fun j => filter (fun r => sp_inhid r = j) B)).
    2:{ intros j Hj. rewrite filter_app.
        rewrite (filter_none _ A); [reflexivity|].
        intros r Hr Heq. specialize (HA r Hr). specialize (Hall j Hj). lia. }
    apply IH; [exact Hids| |].
    + by apply StronglySorted_app_1_r in Hs.
    + intros r Hr. specialize (HB r Hr).
      specialize (Hin r). rewrite elem_of_app in Hin.
      specialize (Hin (or_intror Hr)).
      apply elem_of_cons in Hin as [Heq|Hi]; [lia | exact Hi].
Qed.

(** The raw mantissas of the records of one integration. *)
Lemma raw_slices (block : list Z) (L : list sp_row) :
  (forall r, r ∈ L -> placed block r /\ nch r < 2 ^ 14) ->
  let start_list :=
    (fun o => o + 1) <$> ((fun r => dataoff r / 2) <$> L) in
  zip_with (Py.slice block) start_list
    (zip_with (fun s n => s + Np.wrap16 (n * 2)) start_list (nch <$> L)) =
  (fun r => take (2 * Z.to_nat (nch r)) (drop (S (first_element r)) block))
    <$> L.
Proof.
  cbv zeta. induction L as [|r L IH]; intros HL; [reflexivity|].
  rewrite !fmap_cons. cbn [zip_with]. f_equal.
  - destruct (HL r) as [Hp Hn]; [by left|].
    pose proof Hp as (_ & Hn0 & _).
    unfold Np.wrap16. rewrite wrap_small by lia.
    apply placed_mantissas, Hp.
  - apply IH. intros x Hx. apply HL. by right.
Qed.

(** One pass of the loop over the integrations in [parse_raw_data]. *)
Lemma parse_raw_block_rows (sch : list byte) (index : list (Z * (Z * Z)))
    (rows : list sp_row) acc (inhid : Z) (block : list Z) :
  MirParser.read_packdata sch index inhid = Ok block ->
  (forall r, r ∈ rows -> sp_inhid r = inhid ->
     placed block r /\ nch r < 2 ^ 14) ->
  let L := filter (fun r => sp_inhid r = inhid) rows in
  MirParser.parse_raw_block sch index (sp_inhid <$> rows) (nch <$> rows)
    ((fun r => dataoff r / 2) <$> rows) acc inhid =
  Ok (acc.1 ++
        ((fun r => take (2 * Z.to_nat (nch r))
                     (drop (S (first_element r)) block)) <$> L),
      acc.2 ++ ((fun r => default 0 (block !! first_element r)) <$> L)).
Proof.
  intros Hread Hplaced L. unfold MirParser.parse_raw_block.
  rewrite Hread. cbn [mbind result_bind].
  rewrite <- list_fmap_compose. rewrite !compress_fmap.
  rewrite (compress_filter _ (fun r => sp_inhid r = inhid))
    by (intros r; unfold compose; apply Z.eqb_eq).
  fold L.
  assert (HL : forall r, r ∈ L -> placed block r /\ nch r < 2 ^ 14).
  { intros r [Hi Hin]%list_elem_of_filter. by apply Hplaced. }
  rewrite (mapM_fmap_fmap _ _
             (fun r => default 0 (block !! first_element r))).
  2:{ intros r Hin. apply placed_scale, HL, Hin. }
  cbn [mbind result_bind]. by rewrite (raw_slices block L HL).
Qed.

(** The loop over the integrations in [parse_raw_data]. *)
Lemma parse_raw_blocks (sch : list byte) (index : list (Z * (Z * Z)))
    (rows : list sp_row) (ids : list Z) acc :
  (forall inhid, inhid ∈ ids ->
     exists block,
       MirParser.read_packdata sch index inhid = Ok block /\
       forall r, r ∈ rows -> sp_inhid r = inhid ->
         placed block r /\ nch r < 2 ^ 14) ->
  let order := ids ≫= fun inhid => filter (fun r => sp_inhid r = inhid) rows in
  for_loop
    (MirParser.parse_raw_block sch index (sp_inhid <$> rows) (nch <$> rows)
       ((fun r => dataoff r / 2) <$> rows))
    acc ids =
  Ok (acc.1 ++
        ((fun r => take (2 * Z.to_nat (nch r))
                     (drop (S (first_element r))
                        (block_of sch index (sp_inhid r)))) <$> order),
      acc.2 ++
        ((fun r => default 0 (block_of sch index (sp_inhid r)
                                !! first_element r)) <$> order)).
Proof.
  intros Hblocks. cbv zeta. revert acc.
  induction ids as [|inhid ids IH]; intros acc.
  - cbn [for_loop]. change ([] ≫= _) with (@nil sp_row).
    rewrite !fmap_nil, !app_nil_r. by destruct acc.
  - cbn [for_loop].
    destruct (Hblocks inhid) as (block & Hread & Hplaced); [by left|].
    rewrite (parse_raw_block_rows _ _ _ _ _ block) by assumption.
    cbn [mbind result_bind].
    rewrite IH by (intros i Hi; apply Hblocks; by right).
    cbn [fst snd]. rewrite bind_cons, !fmap_app, !app_assoc.
    assert (Hb : forall r,
               r ∈ filter (fun r => sp_inhid r = inhid) rows ->
               block_of sch index (sp_inhid r) = block).
    { intros r [Hi _]%list_elem_of_filter.
      unfold block_of. by rewrite Hi, Hread. }
    do 2 f_equal; f_equal; f_equal; apply list_fmap_ext;
      intros i r Hr%list_elem_of_lookup_2; by rewrite (Hb r Hr).
Qed.

(** What C5 asks for holds on the tables the decoders are meant for:
    when the spectral records are listed in ascending order of
    integration id, lie inside their blocks and have fewer than 16384
    channels, both decoders return and the raw mantissas times two to
    the returned scale factors are the visibilities, position by
    position. *)
Lemma raw_matches_vis_when_grouped (sch : list byte)
    (index : list (Z * (Z * Z))) (table : list sp_row) :
  Z.of_nat (length sch) < 2 ^ 62 ->
  (forall r, r ∈ table ->
     exists block, block_at sch index (sp_inhid r) block /\ placed block r) ->
  (forall r, r ∈ table -> nch r < 2 ^ 14) ->
  StronglySorted (fun a b => sp_inhid a <= sp_inhid b) table ->
  exists raw fac vis,
    MirParser.parse_raw_data sch index table = Ok (raw, fac) /\
    MirParser.parse_vis_data sch index table = Ok vis /\
    length raw = length table /\
    rescale raw fac = vis.
Proof.
  intros Hsize Hrows Hnch Hsorted.
  do 3 eexists. split; [|split; [by apply parse_vis_data_spectra|]].
  - unfold MirParser.parse_raw_data.
    rewrite (parse_raw_blocks sch index table).
    2:{ intros inhid Hin. apply (proj1 (elem_of_unique _ _)) in Hin.
        apply list_elem_of_fmap in Hin as (r0 & -> & Hin0).
        destruct (Hrows _ Hin0) as (block & Hb & _).
        exists block. split; [by apply read_packdata_block|].
        intros r Hr Hid. split; [|by apply Hnch].
        destruct (Hrows _ Hr) as (block' & Hb' & Hp).
        rewrite Hid in Hb'.
        apply (read_packdata_block _ _ _ _ Hsize) in Hb, Hb'.
        congruence. }
    cbn [fst snd app].
    rewrite (groups_sorted _ table); [reflexivity| |exact Hsorted|].
    + apply unique_sorted.
    + intros r Hr. apply elem_of_unique, list_elem_of_fmap. by exists r.
  - split; [by rewrite length_fmap|].
    unfold rescale. rewrite zip_with_fmap_l, zip_with_fmap_r, zip_with_diag.
    reflexivity.
Qed.

(** ** The filter engine, row by row *)

Section FilterExact.

Variable t : tables.
Variable m : masks.
Hypothesis Hfit : masks_fit t m.

(** The first baseline filter: the baseline is selected and so is its
    integration. *)
Lemma first_bl_filter_exact (looked1 : list bool) k bl :
  MirParser.lookup_all
    (Py.dict_of (zip (in_inhid <$> in_read t) (use_in m)))
    (bl_inhid <$> bl_read t) = Ok looked1 ->
  bl_read t !! k = Some bl ->
  zip_with andb (use_bl m) looked1 !! k = Some true <->
  use_bl m !! k = Some true /\
  exists r, resolves (in_inhid <$> in_read t) (bl_inhid bl) r /\
            use_in m !! r = Some true.
Proof using Hfit.
  destruct Hfit as (Hin & Hbl & Hsp). intros step1 Hk.
  destruct (lookup_all_Ok _ _ _ step1) as [_ Hl1].
  destruct (Hl1 k (bl_inhid bl)) as (v1 & Hv1 & Hd1).
  { by rewrite list_lookup_fmap, Hk. }
  apply dict_of_zip_lookup in Hd1; [|by rewrite length_fmap].
  rewrite zip_with_andb_true, Hv1. split.
  - intros [Hu [= ->]]. auto.
  - intros [Hu (r & Hr & Hur)]. split; [exact Hu|].
    destruct Hd1 as (r' & Hr' & Hur').
    assert (r' = r) as ->.
    { destruct Hr as [Hr1 Hr2], Hr' as [Hr1' Hr2'].
      destruct (Nat.lt_trichotomy r r') as [Hlt|[->|Hlt]]; [|reflexivity|].
      - by apply Hr2 in Hlt.
      - by apply Hr2' in Hlt. }
    congruence.
Qed.

Lemma derivation_sp_exact f j sp :
  derivation t m f ->
  sp_read t !! j = Some sp ->
  sp_filter f !! j = Some true <->
  use_sp m !! j = Some true /\
  exists k bl,
    resolves (blhid <$> bl_read t) (sp_blhid sp) k /\
    bl_read t !! k = Some bl /\
    use_bl m !! k = Some true /\
    exists r, resolves (in_inhid <$> in_read t) (bl_inhid bl) r /\
              use_in m !! r = Some true.
Proof using Hfit.
  pose proof Hfit as (Hin & Hbl & Hsp). intros [] Hj.
  destruct (lookup_all_Ok _ _ _ step1) as [L1 _]. rewrite length_fmap in L1.
  destruct (lookup_all_Ok _ _ _ step3) as [_ Hl2].
  destruct (Hl2 j (sp_blhid sp)) as (v2 & Hv2 & Hd2).
  { by rewrite list_lookup_fmap, Hj. }
  apply dict_of_zip_lookup in Hd2.
  2:{ rewrite step2, length_fmap, length_zip_with. lia. }
  rewrite step4, zip_with_andb_true, Hv2. split.
  - intros [Hu [= ->]]. split; [exact Hu|].
    destruct Hd2 as (k & Hk & Hf1).
    destruct (lookup_lt_is_Some_2 (bl_read t) k) as [bl Hb].
    { apply resolves_lt in Hk. by rewrite length_fmap in Hk. }
    rewrite step2 in Hf1.
    apply (first_bl_filter_exact _ _ _ step1 Hb) in Hf1 as [Hub Hr].
    by exists k, bl.
  - intros [Hu (k & bl & Hk & Hb & Hub & Hr)]. split; [exact Hu|].
    destruct Hd2 as (k' & Hk' & Hf1).
    assert (k' = k) as ->.
    { destruct Hk as [Hk1 Hk2], Hk' as [Hk1' Hk2'].
      destruct (Nat.lt_trichotomy k k') as [Hlt|[->|Hlt]]; [|reflexivity|].
      - by apply Hk2 in Hlt.
      - by apply Hk2' in Hlt. }
    assert (Ht : bl_filter1 !! k = Some true).
    { rewrite step2. by apply (first_bl_filter_exact _ _ _ step1 Hb). }
    congruence.
Qed.

Lemma derivation_bl_exact f k bl :
  derivation t m f ->
  bl_read t !! k = Some bl ->
  bl_filter f !! k = Some true <->
  use_bl m !! k = Some true /\
  (exists r, resolves (in_inhid <$> in_read t) (bl_inhid bl) r /\
             use_in m !! r = Some true) /\
  exists j sp, sp_read t !! j = Some sp /\ sp_blhid sp = blhid bl /\
               sp_filter f !! j = Some true.
Proof using Hfit.
  pose proof Hfit as (Hin & Hbl & Hsp). intros [] Hk.
  destruct (lookup_all_Ok _ _ _ step5) as [_ Hl3].
  destruct (Hl3 k (blhid bl)) as (v3 & Hv3 & Hd3).
  { by rewrite list_lookup_fmap, Hk. }
  rewrite check_dict_lookup in Hd3.
  assert (Hkept : blhid bl ∈ Np.compress (sp_filter f) (sp_blhid <$> sp_read t)
                  <-> exists j sp, sp_read t !! j = Some sp /\
                                   sp_blhid sp = blhid bl /\
                                   sp_filter f !! j = Some true).
  { rewrite elem_of_compress. split.
    - intros (j & Hf & Hc). rewrite list_lookup_fmap in Hc.
      destruct (sp_read t !! j) as [sp|] eqn:Hs; [|discriminate].
      injection Hc as Hc. by exists j, sp.
    - intros (j & sp & Hs & Hc & Hf). exists j. split; [exact Hf|].
      by rewrite list_lookup_fmap, Hs, <- Hc. }
  rewrite step6, zip_with_andb_true, Hv3, step2.
  rewrite (first_bl_filter_exact _ _ _ step1 Hk), <- Hkept.
  destruct (decide (blhid bl ∈ _)) as [Hin'|Hout].
  - injection Hd3 as <-. tauto.
  - split; [|tauto]. intros [_ [= ->]].
    destruct (decide (blhid bl ∈ _)); discriminate.
Qed.

Lemma derivation_in_exact f i row :
  derivation t m f ->
  in_read t !! i = Some row ->
  in_filter f !! i = Some true <->
  use_in m !! i = Some true /\
  exists k bl, bl_read t !! k = Some bl /\ bl_inhid bl = in_inhid row /\
               bl_filter f !! k = Some true.
Proof using Hfit.
  pose proof Hfit as (Hin & Hbl & Hsp). intros [] Hi.
  destruct (lookup_all_Ok _ _ _ step7) as [_ Hl4].
  destruct (Hl4 i (in_inhid row)) as (v4 & Hv4 & Hd4).
  { by rewrite list_lookup_fmap, Hi. }
  rewrite check_dict_lookup in Hd4.
  assert (Hkept : in_inhid row
                    ∈ Np.compress (bl_filter f) (bl_inhid <$> bl_read t)
                  <-> exists k bl, bl_read t !! k = Some bl /\
                                   bl_inhid bl = in_inhid row /\
                                   bl_filter f !! k = Some true).
  { rewrite elem_of_compress. split.
    - intros (k & Hf & Hc). rewrite list_lookup_fmap in Hc.
      destruct (bl_read t !! k) as [bl|] eqn:Hb; [|discriminate].
      injection Hc as Hc. by exists k, bl.
    - intros (k & bl & Hb & Hc & Hf). exists k. split; [exact Hf|].
      by rewrite list_lookup_fmap, Hb, <- Hc. }
  rewrite step8, zip_with_andb_true, Hv4, <- Hkept.
  destruct (decide (in_inhid row ∈ _)) as [Hin'|Hout].
  - injection Hd4 as <-. tauto.
  - split; [|tauto]. intros [_ [= ->]].
    destruct (decide (in_inhid row ∈ _)); discriminate.
Qed.

(** The filters of the three tables that hang off the integrations
    repeat [in_filter] at the row the key of each of their rows
    resolves to. *)
Lemma derivation_follow f (keys : list Z) (out : list bool) i key :
  MirParser.lookup_all
    (Py.dict_of (zip (in_inhid <$> in_read t) (in_filter f))) keys = Ok out ->
  length (in_filter f) = length (in_read t) ->
  keys !! i = Some key ->
  exists r, resolves (in_inhid <$> in_read t) key r /\
            out !! i = in_filter f !! r /\ is_Some (out !! i).
Proof.
  intros Hl Hlen Hi.
  destruct (lookup_all_Ok _ _ _ Hl) as [_ Hall].
  destruct (Hall i key Hi) as (v & Hv & Hd).
  apply dict_of_zip_lookup in Hd as (r & Hr & Hf);
    [|by rewrite length_fmap].
  exists r. split; [exact Hr|]. split; [congruence | by rewrite Hv].
Qed.

End FilterExact.


Lemma resolves_functional {K : Type} (keys : list K) key k k' :
  resolves keys key k -> resolves keys key k' -> k = k'.
Proof.
  intros [H1 H2] [H1' H2'].
  destruct (Nat.lt_trichotomy k k') as [Hlt|[->|Hlt]]; [|reflexivity|].
  - by apply H2 in Hlt.
  - by apply H2' in Hlt.
Qed.

(** X1: after [_update_filter] a spectral record is kept exactly when
    it is selected, the baseline its [blhid] resolves to is selected,
    and the integration that baseline's [inhid] resolves to is
    selected. *)
Theorem update_filter_spectral_exact (st : parser) (changed : bool)
    (st' : parser) :
  masks_fit (tabs st) (sel st) ->
  MirParser._update_filter st = Ok (changed, st') ->
  forall j sp,
    sp_read (tabs st') !! j = Some sp ->
    sp_filter (flt st') !! j = Some true <->
    use_sp (sel st') !! j = Some true /\
    exists k bl,
      resolves (blhid <$> bl_read (tabs st')) (sp_blhid sp) k /\
      bl_read (tabs st') !! k = Some bl /\
      use_bl (sel st') !! k = Some true /\
      exists r, resolves (in_inhid <$> in_read (tabs st')) (bl_inhid bl) r /\
                use_in (sel st') !! r = Some true.
Proof.
  intros Hfit H. apply update_filter_inv in H as (f & v & Hf & _ & _ & ->).
  cbn [tabs sel flt]. intros j sp Hj.
  apply (derivation_sp_exact _ _ Hfit); [|exact Hj].
  by apply derive_filters_inv.
Qed.

Lemma update_filter_spectral_exact_witness :
  forall j sp,
    sp_read (tabs Sample.filtered) !! j = Some sp ->
    sp_filter (flt Sample.filtered) !! j = Some true <->
    use_sp (sel Sample.filtered) !! j = Some true /\
    exists k bl,
      resolves (blhid <$> bl_read (tabs Sample.filtered)) (sp_blhid sp) k /\
      bl_read (tabs Sample.filtered) !! k = Some bl /\
      use_bl (sel Sample.filtered) !! k = Some true /\
      exists r, resolves (in_inhid <$> in_read (tabs Sample.filtered))
                         (bl_inhid bl) r /\
                use_in (sel Sample.filtered) !! r = Some true.
Proof.
  apply (update_filter_spectral_exact Sample.deselected true Sample.filtered).
  - exact sample_masks_fit.
  - exact sample_update_filter.
Defined.

(** X2: after [_update_filter] a baseline is kept exactly when it and
    its integration are selected and one of its spectral records is
    kept, and an integration is kept exactly when it is selected and
    one of its baselines is kept: no kept row is left without a kept
    child, and no row is dropped for another reason. *)
Theorem update_filter_parents_exact (st : parser) (changed : bool)
    (st' : parser) :
  masks_fit (tabs st) (sel st) ->
  MirParser._update_filter st = Ok (changed, st') ->
  (forall k bl,
      bl_read (tabs st') !! k = Some bl ->
      bl_filter (flt st') !! k = Some true <->
      use_bl (sel st') !! k = Some true /\
      (exists r, resolves (in_inhid <$> in_read (tabs st')) (bl_inhid bl) r /\
                 use_in (sel st') !! r = Some true) /\
      exists j sp, sp_read (tabs st') !! j = Some sp /\
                   sp_blhid sp = blhid bl /\
                   sp_filter (flt st') !! j = Some true) /\
  (forall i row,
      in_read (tabs st') !! i = Some row ->
      in_filter (flt st') !! i = Some true <->
      use_in (sel st') !! i = Some true /\
      exists k bl, bl_read (tabs st') !! k = Some bl /\
                   bl_inhid bl = in_inhid row /\
                   bl_filter (flt st') !! k = Some true).
Proof.
  intros Hfit H. apply update_filter_inv in H as (f & v & Hf & _ & _ & ->).
  cbn [tabs sel flt]. apply (derive_filters_inv _ _ Hfit) in Hf.
  split.
  - intros k bl Hk. by apply (derivation_bl_exact _ _ Hfit).
  - intros i row Hi. by apply (derivation_in_exact _ _ Hfit).
Qed.

Lemma update_filter_parents_exact_witness :
  (forall k bl,
      bl_read (tabs Sample.filtered) !! k = Some bl ->
      bl_filter (flt Sample.filtered) !! k = Some true <->
      use_bl (sel Sample.filtered) !! k = Some true /\
      (exists r, resolves (in_inhid <$> in_read (tabs Sample.filtered))
                          (bl_inhid bl) r /\
                 use_in (sel Sample.filtered) !! r = Some true) /\
      exists j sp, sp_read (tabs Sample.filtered) !! j = Some sp /\
                   sp_blhid sp = blhid bl /\
                   sp_filter (flt Sample.filtered) !! j = Some true) /\
  (forall i row,
      in_read (tabs Sample.filtered) !! i = Some row ->
      in_filter (flt Sample.filtered) !! i = Some true <->
      use_in (sel Sample.filtered) !! i = Some true /\
      exists k bl, bl_read (tabs Sample.filtered) !! k = Some bl /\
                   bl_inhid bl = in_inhid row /\
                   bl_filter (flt Sample.filtered) !! k = Some true).
Proof.
  apply (update_filter_parents_exact Sample.deselected true Sample.filtered).
  - exact sample_masks_fit.
  - exact sample_update_filter.
Defined.

(** X3: after [_update_filter] the filters of the engineering, weather
    and auto-correlation tables repeat [in_filter]: each of their rows
    carries the entry of the integration row its key resolves to. *)
Theorem update_filter_followers (st : parser) (changed : bool)
    (st' : parser) :
  masks_fit (tabs st) (sel st) ->
  MirParser._update_filter st = Ok (changed, st') ->
  let in_keys := in_inhid <$> in_read (tabs st') in
  (forall i row, eng_read (tabs st') !! i = Some row ->
     exists r, resolves in_keys (eng_inhid row) r /\
               eng_filter (flt st') !! i = in_filter (flt st') !! r /\
               is_Some (eng_filter (flt st') !! i)) /\
  (forall i row, we_read (tabs st') !! i = Some row ->
     exists r, resolves in_keys (scanNumber row) r /\
               we_filter (flt st') !! i = in_filter (flt st') !! r /\
               is_Some (we_filter (flt st') !! i)) /\
  (forall i row, ac_read (tabs st') !! i = Some row ->
     exists r, resolves in_keys (ac_inhid row) r /\
               ac_filter (flt st') !! i = in_filter (flt st') !! r /\
               is_Some (ac_filter (flt st') !! i)).
Proof.
  intros Hfit H. apply update_filter_inv in H as (f & v & Hf & _ & _ & ->).
  cbn [tabs sel flt]. apply (derive_filters_inv _ _ Hfit) in Hf.
  destruct (derivation_lengths _ _ Hfit _ Hf) as (Hlen & _).
  destruct Hf.
  split; [|split]; intros i row Hi.
  - apply (derivation_follow _ _ _ _ _ _ step_eng Hlen).
    by rewrite list_lookup_fmap, Hi.
  - apply (derivation_follow _ _ _ _ _ _ step_we Hlen).
    by rewrite list_lookup_fmap, Hi.
  - apply (derivation_follow _ _ _ _ _ _ step_ac Hlen).
    by rewrite list_lookup_fmap, Hi.
Qed.

Lemma update_filter_followers_witness :
  let in_keys := in_inhid <$> in_read (tabs Sample.filtered) in
  (forall i row, eng_read (tabs Sample.filtered) !! i = Some row ->
     exists r, resolves in_keys (eng_inhid row) r /\
               eng_filter (flt Sample.filtered) !! i
                 = in_filter (flt Sample.filtered) !! r /\
               is_Some (eng_filter (flt Sample.filtered) !! i)) /\
  (forall i row, we_read (tabs Sample.filtered) !! i = Some row ->
     exists r, resolves in_keys (scanNumber row) r /\
               we_filter (flt Sample.filtered) !! i
                 = in_filter (flt Sample.filtered) !! r /\
               is_Some (we_filter (flt Sample.filtered) !! i)) /\
  (forall i row, ac_read (tabs Sample.filtered) !! i = Some row ->
     exists r, resolves in_keys (ac_inhid row) r /\
               ac_filter (flt Sample.filtered) !! i
                 = in_filter (flt Sample.filtered) !! r /\
               is_Some (ac_filter (flt Sample.filtered) !! i)).
Proof.
  apply (update_filter_followers Sample.deselected true Sample.filtered).
  - exact sample_masks_fit.
  - exact sample_update_filter.
Defined.

(** *** Lookups that fail *)

Lemma lookup_all_outcome {V : Type} (d : gmap Z V) (keys : list Z) :
  (exists r, MirParser.lookup_all d keys = Ok r) \/
  MirParser.lookup_all d keys = Raise KeyError.
Proof.
  unfold MirParser.lookup_all.
  induction keys as [|key keys IH]; [left; by exists []|].
  cbn [mapM].
  destruct (Py.getitem d key) as [v|e|] eqn:Hg.
  - cbn [mbind result_bind].
    destruct IH as [[r ->] | ->]; [left; by exists (v :: r) | by right].
  - right. unfold Py.getitem in Hg.
    destruct (d !! key); [discriminate|]. by injection Hg as <-.
  - unfold Py.getitem in Hg. destruct (d !! key); discriminate.
Qed.

Lemma lookup_all_keys {V : Type} (d : gmap Z V) (keys : list Z) r key :
  MirParser.lookup_all d keys = Ok r -> key ∈ keys -> is_Some (d !! key).
Proof.
  intros H [i Hi]%list_elem_of_lookup_1.
  destruct (lookup_all_Ok _ _ _ H) as [_ Hall].
  destruct (Hall i key Hi) as (v & _ & Hv). by exists v.
Qed.

Lemma dict_of_zip_key {V : Type} (keys : list Z) (vals : list V) key :
  is_Some (Py.dict_of (zip keys vals) !! key) -> key ∈ keys.
Proof.
  intros [v Hv]. apply dict_of_lookup_elem in Hv.
  by apply elem_of_zip_l in Hv.
Qed.

Lemma derive_filters_outcome (t : tables) (m : masks) :
  masks_fit t m ->
  (exists f, MirParser.derive_filters t m = Ok f) \/
  MirParser.derive_filters t m = Raise KeyError.
Proof.
  intros (Hin & Hbl & Hsp). unfold MirParser.derive_filters.
  destruct (lookup_all_outcome
              (Py.dict_of (zip (in_inhid <$> in_read t) (use_in m)))
              (bl_inhid <$> bl_read t)) as [[l1 E1]|E1];
    rewrite E1; cbn [mbind result_bind]; [|by right].
  pose proof (lookup_all_Ok _ _ _ E1) as [L1 _]. rewrite length_fmap in L1.
  rewrite logical_and_fit by lia. cbn [mbind result_bind].
  destruct (lookup_all_outcome
              (Py.dict_of (zip (blhid <$> bl_read t)
                               (zip_with andb (use_bl m) l1)))
              (sp_blhid <$> sp_read t)) as [[l2 E2]|E2];
    rewrite E2; cbn [mbind result_bind]; [|by right].
  pose proof (lookup_all_Ok _ _ _ E2) as [L2 _]. rewrite length_fmap in L2.
  rewrite logical_and_fit by lia. cbn [mbind result_bind].
  rewrite bool_index_fit by (rewrite length_fmap, length_zip_with; lia).
  cbn [mbind result_bind].
  match goal with
  | |- context [MirParser.lookup_all ?d (blhid <$> _)] =>
      destruct (lookup_all_outcome d (blhid <$> bl_read t)) as [[l3 E3]|E3]
  end; rewrite E3; cbn [mbind result_bind]; [|by right].
  pose proof (lookup_all_Ok _ _ _ E3) as [L3 _]. rewrite length_fmap in L3.
  rewrite logical_and_fit by (rewrite length_zip_with; lia).
  cbn [mbind result_bind].
  rewrite bool_index_fit by (rewrite length_fmap, !length_zip_with; lia).
  cbn [mbind result_bind].
  match goal with
  | |- context [MirParser.lookup_all ?d (in_inhid <$> _)] =>
      destruct (lookup_all_outcome d (in_inhid <$> in_read t)) as [[l4 E4]|E4]
  end; rewrite E4; cbn [mbind result_bind]; [|by right].
  pose proof (lookup_all_Ok _ _ _ E4) as [L4 _]. rewrite length_fmap in L4.
  rewrite logical_and_fit by lia. cbn [mbind result_bind].
  set (d := Py.dict_of _).
  destruct (lookup_all_outcome d (eng_inhid <$> eng_read t)) as [[le Ee]|Ee];
    rewrite Ee; cbn [mbind result_bind]; [|by right].
  destruct (lookup_all_outcome d (scanNumber <$> we_read t)) as [[lw Ew]|Ew];
    rewrite Ew; cbn [mbind result_bind]; [|by right].
  destruct (lookup_all_outcome d (ac_inhid <$> ac_read t)) as [[la Ea]|Ea];
    rewrite Ea; cbn [mbind result_bind]; [|by right].
  left. eauto.
Qed.

Lemma update_filter_outcome (st : parser) :
  masks_fit (tabs st) (sel st) ->
  (exists changed st', MirParser._update_filter st = Ok (changed, st')) \/
  MirParser._update_filter st = Raise KeyError.
Proof.
  intros Hfit. unfold MirParser._update_filter.
  destruct (derive_filters_outcome _ _ Hfit) as [[f Hf]|Hf];
    rewrite Hf; cbn [mbind result_bind]; [|by right].
  left.
  destruct (derivation_lengths _ _ Hfit f (derive_filters_inv _ _ Hfit f Hf))
    as (L1 & L2 & L3 & L4 & L5 & L6).
  match goal with
  | |- context [if ?c then _ else _] => destruct c
  end; cbn [mbind result_bind negb]; [|eauto].
  unfold MirParser.slice_views.
  rewrite !bool_index_fit by assumption.
  cbn [mbind result_bind]. eauto.
Qed.

(** X4: a row that refers to a parent that is not there makes
    [_update_filter] raise [KeyError], whatever is selected: a
    baseline, engineering, weather or auto-correlation row whose
    integration id is not in [in_read], or a spectral record whose
    [blhid] is not in [bl_read]. *)
Theorem update_filter_dangling (st : parser) :
  masks_fit (tabs st) (sel st) ->
  (exists key,
      key ∈ (bl_inhid <$> bl_read (tabs st))
              ++ (eng_inhid <$> eng_read (tabs st))
              ++ (scanNumber <$> we_read (tabs st))
              ++ (ac_inhid <$> ac_read (tabs st)) /\
      key ∉ in_inhid <$> in_read (tabs st)) \/
  (exists key,
      key ∈ sp_blhid <$> sp_read (tabs st) /\
      key ∉ blhid <$> bl_read (tabs st)) ->
  MirParser._update_filter st = Raise KeyError.
Proof.
  intros Hfit Hdangling.
  destruct (update_filter_outcome st Hfit) as [(changed & st' & H)|H];
    [exfalso | exact H].
  apply update_filter_inv in H as (f & _ & Hf & _).
  apply (derive_filters_inv _ _ Hfit) in Hf. destruct Hf.
  destruct Hdangling as [(key & Hin & Hout)|(key & Hin & Hout)].
  - apply Hout. rewrite !elem_of_app in Hin.
    destruct Hin as [Hin|[Hin|[Hin|Hin]]].
    + eapply dict_of_zip_key, lookup_all_keys; [exact step1 | exact Hin].
    + eapply dict_of_zip_key, lookup_all_keys; [exact step_eng | exact Hin].
    + eapply dict_of_zip_key, lookup_all_keys; [exact step_we | exact Hin].
    + eapply dict_of_zip_key, lookup_all_keys; [exact step_ac | exact Hin].
  - apply Hout.
    eapply dict_of_zip_key, lookup_all_keys; [exact step3 | exact Hin].
Qed.

(** X5: the position dictionaries [_update_filter] leaves behind send
    each id of a filtered table to the last row that carries it, and
    hold nothing else: a lookup followed by indexing gives back a
    row with the id asked for. *)
Theorem update_filter_positions (st : parser) (changed : bool)
    (st' : parser) :
  MirParser._update_filter st = Ok (changed, st') ->
  (forall key pos,
      inhid_dict (dicts st') !! key = Some pos <->
      resolves (in_inhid <$> in_data (data st')) key pos) /\
  (forall key pos,
      blhid_dict (dicts st') !! key = Some pos <->
      resolves (blhid <$> bl_data (data st')) key pos) /\
  (forall key pos,
      sphid_dict (dicts st') !! key = Some pos <->
      resolves (sphid <$> sp_data (data st')) key pos).
Proof.
  intros H. apply update_filter_inv in H as (f & v & _ & _ & _ & ->).
  cbn [dicts data MirParser.index_views inhid_dict blhid_dict sphid_dict].
  assert (Hpos : forall keys key pos,
             MirParser.position_dict keys !! key = Some pos <->
             resolves keys key pos).
  { intros keys key pos. unfold MirParser.position_dict, Py.range.
    rewrite dict_of_zip_lookup by (by rewrite length_seq). split.
    - intros (k & Hk & Hs). apply lookup_seq in Hs as [-> _]. exact Hk.
    - intros Hk. exists pos. split; [exact Hk|].
      apply lookup_seq_lt, (resolves_lt _ _ _ Hk). }
  split; [|split]; intros key pos; apply Hpos.
Qed.

(** X6: on every parser a caller can reach, [_update_filter] leaves
    the filtered tables equal to the read-in tables restricted to the
    filters it has just derived, also when it finds the filters
    unchanged and skips the slicing; [codes_data] is never filtered. *)
Theorem update_filter_slices (st : parser) (changed : bool) (st' : parser) :
  reachable st ->
  MirParser._update_filter st = Ok (changed, st') ->
  in_data (data st') = Np.compress (in_filter (flt st')) (in_read (tabs st')) /\
  bl_data (data st') = Np.compress (bl_filter (flt st')) (bl_read (tabs st')) /\
  sp_data (data st') = Np.compress (sp_filter (flt st')) (sp_read (tabs st')) /\
  eng_data (data st')
    = Np.compress (eng_filter (flt st')) (eng_read (tabs st')) /\
  we_data (data st') = Np.compress (we_filter (flt st')) (we_read (tabs st')) /\
  ac_data (data st') = Np.compress (ac_filter (flt st')) (ac_read (tabs st')) /\
  codes_data (data st') = codes_read (tabs st').
Proof.
  intros Hreach H.
  destruct (update_filter_views st changed st'
              (reachable_views_current st Hreach) H)
    as (f & _ & -> & -> & _ & Hi & Hb & Hs & He & Hw & Ha & Hc).
  apply bool_index_Ok in Hi as [_ ->].
  apply bool_index_Ok in Hb as [_ ->].
  apply bool_index_Ok in Hs as [_ ->].
  by rewrite He, Hw, Ha, Hc.
Qed.

Lemma update_filter_slices_witness :
  let st' := Sample.filtered in
  in_data (data st') = Np.compress (in_filter (flt st')) (in_read (tabs st')) /\
  bl_data (data st') = Np.compress (bl_filter (flt st')) (bl_read (tabs st')) /\
  sp_data (data st') = Np.compress (sp_filter (flt st')) (sp_read (tabs st')) /\
  eng_data (data st')
    = Np.compress (eng_filter (flt st')) (eng_read (tabs st')) /\
  we_data (data st') = Np.compress (we_filter (flt st')) (we_read (tabs st')) /\
  ac_data (data st') = Np.compress (ac_filter (flt st')) (ac_read (tabs st')) /\
  codes_data (data st') = codes_read (tabs st').
Proof.
  apply (update_filter_slices Sample.deselected true Sample.filtered).
  - apply reach_select, reach_fresh.
  - exact sample_update_filter.
Defined.

Lemma update_filter_with_cache (st : parser) (c : payload) changed st' :
  MirParser._update_filter st = Ok (changed, st') ->
  MirParser._update_filter (MirParser.with_cache st c) =
    Ok (changed, MirParser.with_cache st' c).
Proof.
  unfold MirParser._update_filter. cbn [MirParser.with_cache tabs sel flt data
    filepath dicts cache].
  destruct (MirParser.derive_filters (tabs st) (sel st)) as [f| |];
    cbn [mbind result_bind]; [|discriminate..].
  match goal with
  | |- context [if ?c then _ else _] => destruct c
  end.
  - destruct (MirParser.slice_views _ _ _) as [v| |];
      cbn [mbind result_bind]; [|discriminate..].
    by intros [= <- <-].
  - cbn [mbind result_bind]. by intros [= <- <-].
Qed.

(** X7: [load_data] called again with the same flags on the parser it
    returned returns that parser: nothing is decoded differently and no
    filter moves. *)
Theorem load_data_again (st : parser) (load_vis load_raw load_auto : bool)
    (st' : parser) :
  MirParser.load_data st load_vis load_raw load_auto = Ok st' ->
  MirParser.load_data st' load_vis load_raw load_auto = Ok st'.
Proof.
  intros H. pose proof H as H0. unfold MirParser.load_data in H.
  destruct (MirParser._update_filter st) as [[changed st1]| |] eqn:Hu;
    cbn [mbind result_bind] in H; [|discriminate..].
  pose proof (update_filter_twice _ _ _ Hu) as Hu1.
  assert (Hagain : forall c,
             MirParser.load_data (MirParser.with_cache st1 c)
               load_vis load_raw load_auto =
             (let st := MirParser.with_cache st1 c in
              let sch := sch_read (filepath st) in
              c1 ← (if load_vis then
                      vis ← MirParser.parse_vis_data sch
                              (in_start_dict (tabs st)) (sp_data (data st));
                      Ok {| vis_data := Some vis;
                            raw_data := raw_data (cache st);
                            auto_data := auto_data (cache st);
                            raw_scale_fac := raw_scale_fac (cache st);
                            vis_data_loaded := Some true;
                            raw_data_loaded := raw_data_loaded (cache st) |}
                    else Ok (cache st));
              c2 ← (if load_raw then
                      '(raw, fac) ← MirParser.parse_raw_data sch
                                      (in_start_dict (tabs st))
                                      (sp_data (data st));
                      Ok {| vis_data := vis_data c1;
                            raw_data := Some raw;
                            auto_data := auto_data c1;
                            raw_scale_fac := Some fac;
                            vis_data_loaded := vis_data_loaded c1;
                            raw_data_loaded := Some true |}
                    else Ok c1);
              c3 ← (if load_auto then
                      let winsel :=
                        Np.unique (corrchunk <$> sp_data (data st)) in
                      let winsel :=
                        (fun w => w - 1) <$> filter (fun w => w ≠ 0) winsel in
                      auto ← MirParser.read_auto_data
                               (autoCorrelations (filepath st))
                               (ac_data (data st)) (Some winsel);
                      Ok {| vis_data := vis_data c2;
                            raw_data := raw_data c2;
                            auto_data := Some auto;
                            raw_scale_fac := raw_scale_fac c2;
                            vis_data_loaded := vis_data_loaded c2;
                            raw_data_loaded := raw_data_loaded c2 |}
                    else Ok c2);
              Ok (MirParser.with_cache st c3))).
  { intros c. unfold MirParser.load_data.
    by rewrite (update_filter_with_cache _ c _ _ Hu1). }
  cbv zeta in Hagain.
  cbn [MirParser.with_cache filepath tabs data cache] in Hagain.
  destruct load_vis, load_raw, load_auto; cbn [mbind result_bind] in H;
    repeat match type of H with
           | context [MirParser.parse_vis_data ?a ?b ?c] =>
               destruct (MirParser.parse_vis_data a b c) as [vis| |] eqn:Ev;
               cbn [mbind result_bind] in H; [|discriminate..]
           | context [MirParser.parse_raw_data ?a ?b ?c] =>
               destruct (MirParser.parse_raw_data a b c) as [[raw fac]| |]
                 eqn:Er;
               cbn [mbind result_bind] in H; [|discriminate..]
           | context [MirParser.read_auto_data ?a ?b ?c] =>
               destruct (MirParser.read_auto_data a b c) as [auto| |] eqn:Ea;
               cbn [mbind result_bind] in H; [|discriminate..]
           end;
    injection H as <-; rewrite Hagain;
    rewrite ?Ev, ?Er, ?Ea; cbn [mbind result_bind];
    rewrite ?Ev, ?Er, ?Ea; cbn [mbind result_bind];
    rewrite ?Ev, ?Er, ?Ea; cbn [mbind result_bind];
    reflexivity.
Qed.

Lemma update_filter_dangling_witness :
  MirParser._update_filter Example.stray_weather = Raise KeyError.
Proof.
  apply update_filter_dangling.
  - split; [|split]; reflexivity.
  - left. exists 9. split.
    + apply (bool_decide_unpack _). vm_compute. exact I.
    + apply (bool_decide_unpack _). vm_compute. exact I.
Defined.

Lemma update_filter_positions_witness :
  let st' := Sample.filtered in
  (forall key pos,
      inhid_dict (dicts st') !! key = Some pos <->
      resolves (in_inhid <$> in_data (data st')) key pos) /\
  (forall key pos,
      blhid_dict (dicts st') !! key = Some pos <->
      resolves (blhid <$> bl_data (data st')) key pos) /\
  (forall key pos,
      sphid_dict (dicts st') !! key = Some pos <->
      resolves (sphid <$> sp_data (data st')) key pos).
Proof.
  apply (update_filter_positions Sample.deselected true Sample.filtered).
  exact sample_update_filter.
Defined.

Lemma load_data_again_witness :
  exists st',
    MirParser.load_data Sample.constructed true true false = Ok st' /\
    MirParser.load_data st' true true false = Ok st'.
Proof.
  assert (Hruns : (fun _ => tt)
                    <$> MirParser.load_data Sample.constructed true true false
                  = Ok tt) by (vm_compute; reflexivity).
  destruct (MirParser.load_data Sample.constructed true true false)
    as [st'|e|] eqn:E; [|discriminate..].
  exists st'. split; [reflexivity|].
  exact (load_data_again _ _ _ _ _ E).
Defined.

(** ** The selection stage of [read_mir] *)

Lemma membership_dict_lookup (full chosen : list Z) key v :
  Mir.membership_dict full chosen !! key = Some v ->
  v = bool_decide (key ∈ chosen).
Proof.
  intros H. unfold Mir.membership_dict in H.
  apply dict_of_lookup_elem in H.
  apply list_elem_of_fmap in H as (k & [= -> ->] & _). reflexivity.
Qed.

Lemma lookup_all_membership (full chosen keys : list Z) (r : list bool) i key :
  MirParser.lookup_all (Mir.membership_dict full chosen) keys = Ok r ->
  keys !! i = Some key ->
  r !! i = Some true ->
  key ∈ chosen.
Proof.
  intros H Hi Hr. destruct (lookup_all_Ok _ _ _ H) as [_ Hall].
  destruct (Hall i key Hi) as (v & Hv & Hd).
  apply membership_dict_lookup in Hd.
  assert (v = true) as -> by congruence.
  symmetry in Hd. by apply bool_decide_eq_true in Hd.
Qed.

Lemma remove_zero_elem (l : list Z) x :
  NoDup l -> x ∈ Mir.remove_zero l -> x <> 0 /\ x ∈ l.
Proof.
  induction l as [|y l IH]; intros Hnd Hx; cbn [Mir.remove_zero] in Hx.
  - by apply elem_of_nil in Hx.
  - apply NoDup_cons in Hnd as [Hy Hnd].
    destruct (y =? 0) eqn:E.
    + apply Z.eqb_eq in E as ->. split; [|by right].
      intros ->. contradiction.
    + apply Z.eqb_neq in E.
      apply elem_of_cons in Hx as [->|Hx]; [split; [exact E | by left]|].
      destruct (IH Hnd Hx) as [H0 Hin]. split; [exact H0 | by right].
Qed.

Lemma init_tables fuel ds lv lr la p :
  MirParser.__init__ fuel ds lv lr la = Ok p ->
  reachable p /\
  in_read (tabs p) = MirParser.in_file ds /\
  eng_read (tabs p) = MirParser.eng_file ds /\
  bl_read (tabs p) = MirParser.bl_file ds /\
  sp_read (tabs p) = MirParser.sp_file ds /\
  codes_read (tabs p) = MirParser.codes_file ds /\
  we_read (tabs p) = MirParser.we_file ds.
Proof.
  unfold MirParser.__init__. intros H.
  inv_bind H. inv_bind H.
  split; [exact (reach_load _ _ _ _ _ (reach_fresh ds x x0) H)|].
  apply load_data_inv in H as (changed & st1 & c & Hu & ->).
  apply update_filter_inv in Hu as (f & v & _ & _ & _ & ->).
  cbn. auto 10.
Qed.

(** What a call of [read_mir] that returns went through. *)
Lemma read_mir_inv fuel ds isource_kw irec_kw isb_kw corrchunk_kw pseudo_cont
    p :
  Mir.read_mir fuel ds isource_kw irec_kw isb_kw corrchunk_kw pseudo_cont
    = Ok p ->
  exists p0 irec_sel use_in' by_isb use_sp' changed,
    let t := tabs p0 in
    let isource_sel :=
      match isource_kw with
      | None => Np.unique (isource <$> in_read t) | Some l => l end in
    let isb_sel :=
      match isb_kw with
      | None => Np.unique (isb <$> bl_read t) | Some l => l end in
    let corrchunk_sel :=
      match corrchunk_kw with
      | None => if pseudo_cont then [0]
                else Mir.remove_zero (Np.unique (corrchunk <$> sp_read t))
      | Some l => l
      end in
    MirParser.__init__ fuel ds false false false = Ok p0 /\
    match irec_kw with
    | None => Py.item (irec <$> bl_read t) 0
    | Some r => Ok r
    end = Ok irec_sel /\
    MirParser.lookup_all
      (Mir.membership_dict (Np.unique (isource <$> in_read t)) isource_sel)
      (isource <$> in_read t) = Ok use_in' /\
    MirParser.lookup_all
      (Mir.membership_dict (Np.unique (isb <$> bl_read t)) isb_sel)
      (isb <$> bl_read t) = Ok by_isb /\
    MirParser.lookup_all
      (Mir.membership_dict (Np.unique (corrchunk <$> sp_read t))
         corrchunk_sel)
      (corrchunk <$> sp_read t) = Ok use_sp' /\
    MirParser._update_filter
      (select p0
         {| use_in := use_in';
            use_bl :=
              zip_with andb
                (zip_with andb ((fun r => irec r =? irec_sel) <$> bl_read t)
                               ((fun r => ipol r =? 0) <$> bl_read t))
                by_isb;
            use_sp := use_sp' |}) = Ok (changed, p) /\
    in_data (data p) <> [].
Proof.
  unfold Mir.read_mir. intros H.
  inv_bind H. rename x into p0, E into Hinit.
  destruct (Nat.eqb (size _) 0); [discriminate|].
  inv_bind H. rename x into irec_sel, E into Hrec.
  destruct (Nat.eqb (length _) 0); [discriminate|].
  destruct (negb _); [discriminate|].
  inv_bind H. rename x into use_in', E into Hin.
  inv_bind H. rename x into by_isb, E into Hisb.
  pose proof (lookup_all_Ok _ _ _ Hisb) as [Lisb _].
  rewrite length_fmap in Lisb.
  rewrite logical_and_fit in H by (by rewrite !length_fmap).
  cbn [mbind result_bind] in H.
  rewrite logical_and_fit in H
    by (rewrite length_zip_with, !length_fmap; lia).
  cbn [mbind result_bind] in H.
  inv_bind H. rename x into use_sp', E into Hsp.
  inv_bind H. destruct x as [changed p1].
  destruct (Nat.eqb (length (in_data (data p1))) 0) eqn:Hlen;
    [discriminate|].
  injection H as <-.
  exists p0, irec_sel, use_in', by_isb, use_sp', changed.
  cbv zeta. repeat (split; [assumption|]).
  intros Hnil. rewrite Hnil in Hlen. discriminate.
Qed.

(** X8: the parser [read_mir] hands on holds only rows that match the
    selection.  Every integration kept has one of the requested
    sources; every baseline kept has polarisation code 0, the
    requested receiver (that of the first baseline row when none is
    given) and one of the requested sidebands; every spectral record
    kept has one of the requested chunks, and when none is given it
    has a chunk other than 0, or chunk 0 under [pseudo_cont].  At
    least one integration is kept. *)
Theorem read_mir_selection fuel ds isource_kw irec_kw isb_kw corrchunk_kw
    pseudo_cont p :
  Mir.read_mir fuel ds isource_kw irec_kw isb_kw corrchunk_kw pseudo_cont
    = Ok p ->
  in_data (data p) <> [] /\
  (forall row, row ∈ in_data (data p) ->
     match isource_kw with Some l => isource row ∈ l | None => True end) /\
  (forall bl, bl ∈ bl_data (data p) ->
     ipol bl = 0 /\
     match irec_kw with
     | Some r => irec bl = r
     | None => exists first, bl_read (tabs p) !! 0%nat = Some first /\
                             irec bl = irec first
     end /\
     match isb_kw with Some l => isb bl ∈ l | None => True end) /\
  (forall sp, sp ∈ sp_data (data p) ->
     match corrchunk_kw with
     | Some l => corrchunk sp ∈ l
     | None => if pseudo_cont then corrchunk sp = 0 else corrchunk sp <> 0
     end).
Proof.
  intros H.
  apply read_mir_inv in H
    as (p0 & irec_sel & use_in' & by_isb & use_sp' & changed & Hinit & Hrec
        & Hin & Hisb & Hsp & Hupd & Hne).
  cbv zeta in *.
  destruct (init_tables _ _ _ _ _ _ Hinit) as (Hreach & _).
  set (m := {| use_in := use_in'; use_bl := _; use_sp := use_sp' |}) in Hupd.
  pose proof (lookup_all_Ok _ _ _ Hin) as [Lin _].
  pose proof (lookup_all_Ok _ _ _ Hisb) as [Lisb _].
  pose proof (lookup_all_Ok _ _ _ Hsp) as [Lsp _].
  rewrite length_fmap in Lin. rewrite length_fmap in Lisb.
  rewrite length_fmap in Lsp.
  assert (Hfit : masks_fit (tabs (select p0 m)) (sel (select p0 m))).
  { cbn [select tabs sel]. unfold masks_fit, m. cbn [use_in use_bl use_sp].
    rewrite !length_zip_with, !length_fmap. lia. }
  destruct (update_filter_views _ _ _
              (reachable_views_current _ (reach_select _ m Hreach)) Hupd)
    as (f & Hf & Hflt & Htabs & _ & Hi & Hb & Hs & _).
  cbn [select tabs sel] in Hf, Htabs, Hi, Hb, Hs.
  apply bool_index_Ok in Hi as [_ Hi], Hb as [_ Hb], Hs as [_ Hs].
  pose proof (derive_filters_inv _ _ Hfit f Hf) as D.
  destruct (derivation_below _ _ f D) as (Bin & Bbl & Bsp).
  cbn [select tabs sel] in Bin, Bbl, Bsp. unfold m in Bin, Bbl, Bsp.
  cbn [use_in use_bl use_sp] in Bin, Bbl, Bsp.
  split; [exact Hne|]. split; [|split].
  - intros row Hrow. destruct isource_kw as [l|]; [|exact I].
    rewrite Hi in Hrow. apply elem_of_compress in Hrow as (i & Hfi & Hri).
    apply Bin in Hfi.
    eapply lookup_all_membership; [exact Hin| |exact Hfi].
    by rewrite list_lookup_fmap, Hri.
  - intros bl Hbl. rewrite Hb in Hbl.
    apply elem_of_compress in Hbl as (k & Hfk & Hrk).
    apply Bbl in Hfk.
    apply zip_with_andb_true in Hfk as [Hfk Hk3].
    apply zip_with_andb_true in Hfk as [Hk1 Hk2].
    rewrite list_lookup_fmap, Hrk in Hk1, Hk2.
    cbn [fmap option_fmap option_map] in Hk1, Hk2.
    injection Hk1 as Hk1. injection Hk2 as Hk2.
    apply Z.eqb_eq in Hk1, Hk2.
    split; [exact Hk2|]. split.
    + destruct irec_kw as [r|]; [by injection Hrec as <-|].
      unfold Py.item in Hrec. rewrite list_lookup_fmap in Hrec.
      rewrite Htabs. cbn [select tabs].
      destruct (bl_read (tabs p0) !! 0%nat) as [first|]; [|discriminate].
      injection Hrec as <-. by exists first.
    + destruct isb_kw as [l|]; [|exact I].
      eapply lookup_all_membership; [exact Hisb| |exact Hk3].
      by rewrite list_lookup_fmap, Hrk.
  - intros sp Hsp'. rewrite Hs in Hsp'.
    apply elem_of_compress in Hsp' as (j & Hfj & Hrj).
    apply Bsp in Hfj.
    assert (Hmem := lookup_all_membership _ _ _ _ j (corrchunk sp) Hsp).
    rewrite list_lookup_fmap, Hrj in Hmem. specialize (Hmem eq_refl Hfj).
    destruct corrchunk_kw as [l|]; [exact Hmem|].
    destruct pseudo_cont.
    + by apply list_elem_of_singleton in Hmem.
    + apply remove_zero_elem in Hmem as [H0 _]; [exact H0|].
      apply NoDup_unique.
Qed.

Lemma read_mir_selection_witness :
  exists p,
    Mir.read_mir 10 Sample.ds (Some [1]) (Some 0) (Some [0]) (Some [2]) false
      = Ok p /\
    in_data (data p) <> [] /\
    (forall row, row ∈ in_data (data p) -> isource row ∈ [1]) /\
    (forall bl, bl ∈ bl_data (data p) ->
       ipol bl = 0 /\ irec bl = 0 /\ isb bl ∈ [0]) /\
    (forall sp, sp ∈ sp_data (data p) -> corrchunk sp ∈ [2]).
Proof.
  assert (Hruns : (fun _ => tt)
                    <$> Mir.read_mir 10 Sample.ds (Some [1]) (Some 0)
                          (Some [0]) (Some [2]) false
                  = Ok tt) by (vm_compute; reflexivity).
  destruct (Mir.read_mir 10 Sample.ds (Some [1]) (Some 0) (Some [0])
              (Some [2]) false) as [p|e|] eqn:E; [|discriminate..].
  exists p. split; [reflexivity|].
  exact (read_mir_selection _ _ _ _ _ _ _ _ E).
Defined.

Lemma unique_nil l : Np.unique l = [] <-> l = [].
Proof.
  split; [|by intros ->].
  destruct l as [|x l]; [reflexivity|]. intros H.
  assert (Hx : x ∈ Np.unique (x :: l)) by (apply elem_of_unique; by left).
  rewrite H in Hx. by apply elem_of_nil in Hx.
Qed.

(** X9: a sideband selection that is not empty and names a sideband no
    baseline row carries makes [read_mir] raise [IndexError] "isb
    values contain invalid entries", whatever else is selected,
    provided the data set opens, has an integration, and has a
    baseline when the receiver is left to default. *)
Theorem read_mir_invalid_sideband fuel ds isource_kw irec_kw
    (isb_sel : list Z) corrchunk_kw pseudo_cont p0 (x : Z) :
  MirParser.__init__ fuel ds false false false = Ok p0 ->
  MirParser.in_file ds <> [] ->
  (irec_kw = None -> MirParser.bl_file ds <> []) ->
  x ∈ isb_sel ->
  x ∉ isb <$> MirParser.bl_file ds ->
  Mir.read_mir fuel ds isource_kw irec_kw (Some isb_sel) corrchunk_kw
    pseudo_cont =
    Raise (IndexError "isb values contain invalid entries").
Proof.
  intros Hinit Hin Hbl Hx Hout. unfold Mir.read_mir. rewrite Hinit.
  cbn [mbind result_bind].
  destruct (init_tables _ _ _ _ _ _ Hinit) as (_ & Ti & _ & Tb & _).
  rewrite Ti, Tb.
  destruct (Nat.eqb (size _) 0) eqn:Hsize.
  { apply Nat.eqb_eq in Hsize.
    apply (proj1 (membership_dict_empty _ _)) in Hsize.
    apply (proj1 (unique_nil _)) in Hsize.
    by apply fmap_nil_inv in Hsize. }
  assert (Hrec : exists r,
             match irec_kw with
             | None => Py.item (irec <$> MirParser.bl_file ds) 0
             | Some r => Ok r
             end = Ok r).
  { destruct irec_kw as [r|]; [by exists r|].
    destruct (MirParser.bl_file ds) as [|b l] eqn:E; [by destruct Hbl|].
    by exists (irec b). }
  destruct Hrec as [r ->]. cbn [mbind result_bind].
  destruct (Nat.eqb (length isb_sel) 0) eqn:Hlen.
  { apply Nat.eqb_eq in Hlen. destruct isb_sel; [|discriminate].
    by apply elem_of_nil in Hx. }
  destruct (forallb _ isb_sel) eqn:Hall; [|reflexivity].
  rewrite forallb_forall in Hall.
  specialize (Hall x (proj1 (list_elem_of_In _ _) Hx)).
  apply bool_decide_eq_true in Hall.
  apply (proj1 (elem_of_unique _ _)) in Hall. contradiction.
Qed.

Lemma read_mir_invalid_sideband_witness :
  Mir.read_mir 10 Sample.ds None None (Some [0; 5]) None false =
    Raise (IndexError "isb values contain invalid entries").
Proof.
  assert (Hruns : (fun _ => tt)
                    <$> MirParser.__init__ 10 Sample.ds false false false
                  = Ok tt) by (vm_compute; reflexivity).
  destruct (MirParser.__init__ 10 Sample.ds false false false)
    as [p0|e|] eqn:E; [|discriminate..].
  apply (read_mir_invalid_sideband 10 Sample.ds None None [0; 5] None false
           p0 5 E).
  - discriminate.
  - discriminate.
  - apply (bool_decide_unpack _). vm_compute. exact I.
  - apply (bool_decide_unpack _). vm_compute. exact I.
Defined.

(** ** What construction needs *)

Lemma scan_auto_loop_nonempty fuel :
  forall file_size f data_offset last_offset nchunks marker ac_data rows',
    (forall rows, ac_data = Some rows -> rows <> []) ->
    MirParser.scan_auto_loop fuel file_size f data_offset last_offset nchunks
      marker ac_data = Ok rows' ->
    rows' <> [].
Proof.
  induction fuel as [|fuel IH];
    intros file_size f data_offset last_offset nchunks marker ac_data rows'
      Hinv H; cbn [MirParser.scan_auto_loop] in H.
  - destruct (data_offset <? file_size); [discriminate|].
    destruct ac_data as [rows|]; [|discriminate].
    injection H as <-. by apply Hinv.
  - destruct (data_offset <? file_size).
    2:{ destruct ac_data as [rows|]; [|discriminate].
        injection H as <-. by apply Hinv. }
    inv_bind H. destruct x as [auto_vals f'].
    inv_bind H. destruct x as [[nchunks' last_offset'] ac_data'].
    inv_bind H. inv_bind H. inv_bind H. inv_bind H. rename x2 into rows.
    inv_bind H. rename x2 into rows1.
    destruct (decide (marker < length rows)%nat) as [Hlt|]; [|discriminate].
    injection E5 as <-.
    apply IH in H; [exact H|].
    intros rows2 [= <-] Hnil.
    apply (f_equal length) in Hnil. rewrite length_insert in Hnil.
    cbn [length] in Hnil. lia.
Qed.

Lemma scan_auto_data_nonempty fuel bytes nchunks rows :
  MirParser.scan_auto_data fuel bytes nchunks = Ok rows ->
  bytes <> [] /\ rows <> [].
Proof.
  unfold MirParser.scan_auto_data. intros H. split.
  - intros ->. destruct fuel; discriminate.
  - eapply scan_auto_loop_nonempty; [|exact H]. discriminate.
Qed.

Lemma fresh_masks_fit ds ac index :
  masks_fit (tabs (MirParser.fresh ds ac index))
            (sel (MirParser.fresh ds ac index)).
Proof.
  unfold masks_fit.
  cbn [tabs sel MirParser.fresh use_in use_bl use_sp in_read bl_read sp_read].
  unfold Np.ones. by rewrite !length_replicate.
Qed.

(** X10: [__init__] only returns for a data set whose
    [autoCorrelations] file is not empty and indexes at least one
    record, and whose [in_read] has at least one integration: the scan
    of an empty file ends without ever binding [ac_data], and every
    auto-correlation record must find its integration. *)
Theorem init_needs_records fuel ds load_vis load_raw load_auto p :
  MirParser.__init__ fuel ds load_vis load_raw load_auto = Ok p ->
  autoCorrelations (MirParser.blobs ds) <> [] /\
  ac_read (tabs p) <> [] /\
  in_read (tabs p) <> [] /\
  forall row, row ∈ ac_read (tabs p) ->
    exists r, r ∈ in_read (tabs p) /\ in_inhid r = ac_inhid row.
Proof.
  unfold MirParser.__init__. intros H.
  inv_bind H. rename x into ac, E into Hac.
  inv_bind H. rename x into index.
  apply scan_auto_data_nonempty in Hac as [Hbytes Hrows].
  apply load_data_inv in H as (changed & st1 & c & Hu & ->).
  apply update_filter_inv in Hu as (f & v & Hf & _ & _ & ->).
  apply (derive_filters_inv _ _ (fresh_masks_fit ds ac index)) in Hf.
  destruct Hf. cbn [MirParser.with_cache tabs MirParser.fresh ac_read in_read]
    in *.
  assert (Hall : forall row, row ∈ ac ->
             exists r, r ∈ MirParser.in_file ds /\ in_inhid r = ac_inhid row).
  { intros row Hrow.
    assert (Hk : ac_inhid row ∈ ac_inhid <$> ac)
      by (apply list_elem_of_fmap; by exists row).
    eapply lookup_all_keys, dict_of_zip_key in Hk; [|exact step_ac].
    apply list_elem_of_fmap in Hk as (r & Hr & Hin). by exists r. }
  repeat split; try assumption.
  destruct ac as [|row ac]; [by destruct Hrows|].
  destruct (Hall row) as (r & Hr & _); [by left|].
  intros Hnil. rewrite Hnil in Hr. by apply elem_of_nil in Hr.
Qed.

Lemma init_needs_records_witness :
  exists p,
    MirParser.__init__ 10 Sample.ds false false false = Ok p /\
    autoCorrelations (MirParser.blobs Sample.ds) <> [] /\
    ac_read (tabs p) <> [] /\
    in_read (tabs p) <> [] /\
    forall row, row ∈ ac_read (tabs p) ->
      exists r, r ∈ in_read (tabs p) /\ in_inhid r = ac_inhid row.
Proof.
  assert (Hruns : (fun _ => tt)
                    <$> MirParser.__init__ 10 Sample.ds false false false
                  = Ok tt) by (vm_compute; reflexivity).
  destruct (MirParser.__init__ 10 Sample.ds false false false)
    as [p|e|] eqn:E; [|discriminate..].
  exists p. split; [reflexivity|].
  exact (init_needs_records _ _ _ _ _ _ E).
Defined.

(** ** More on the scan of [sch_read] *)

(** X11: a record header that declares a payload of minus eight bytes
    stops the scan of [sch_read] from advancing: the next read seeks
    back onto the same header, and the loop never ends, whatever
    follows in the file. *)
Theorem scan_int_start_stalls (fuel : nat) (id : Z) (rest : list byte) :
  MirParser.scan_int_start fuel (le_split 4 id ++ le_split 4 (-8) ++ rest)
    = OutOfFuel.
Proof.
  unfold MirParser.scan_int_start, Np.open.
  set (bytes := le_split 4 id ++ le_split 4 (-8) ++ rest).
  assert (Hsize : 0 < Z.of_nat (length bytes)).
  { unfold bytes. rewrite !length_app, !length_le_split. lia. }
  assert (Hloop : forall fuel (f : file) last_offset d,
             content f = bytes -> pos f + last_offset = 0 ->
             MirParser.scan_int_loop fuel (Z.of_nat (length bytes)) f 0
               last_offset d = OutOfFuel).
  { clear fuel. induction fuel as [|fuel IH]; intros f last_offset d Hc Hp.
    - cbn [MirParser.scan_int_loop].
      by rewrite (proj2 (Z.ltb_lt _ _) Hsize).
    - pose proof (scan_int_loop_header fuel f []
                    (le_split 4 id ++ le_split 4 (-8)) rest last_offset d)
        as Hstep.
      cbv zeta in Hstep. cbn [length app] in Hstep.
      change (Z.of_nat 0) with 0 in Hstep.
      rewrite Hc in Hstep. rewrite Hstep.
      + rewrite drop_app_length' by (by rewrite length_le_split).
        rewrite int32_of_le_split by lia.
        change (Np.wrap64 (0 + (-8 + 8))) with 0.
        apply IH; [reflexivity | reflexivity].
      + unfold bytes. by rewrite <- app_assoc.
      + by rewrite length_app, !length_le_split.
      + exact Hp. }
  by apply Hloop.
Qed.

Lemma assoc_app {V : Type} (d1 d2 : list (Z * V)) key :
  Py.assoc (d1 ++ d2) key =
  match Py.assoc d1 key with Some v => Some v | None => Py.assoc d2 key end.
Proof.
  induction d1 as [|[k v] d1 IH]; [reflexivity|].
  cbn [app Py.assoc]. by destruct (k =? key).
Qed.

Lemma assoc_setitem {V : Type} (d : list (Z * V)) k v key :
  Py.assoc (Py.setitem d k v) key =
  if k =? key then Some v else Py.assoc d key.
Proof.
  induction d as [|[k' w] d IH]; cbn [Py.setitem Py.assoc].
  - reflexivity.
  - destruct (Z.eqb_spec k' k) as [->|Hne]; cbn [Py.assoc].
    + by destruct (k =? key).
    + rewrite IH. destruct (Z.eqb_spec k' key) as [->|]; [|reflexivity].
      destruct (Z.eqb_spec k key); [congruence | reflexivity].
Qed.

Lemma setitem_keys {V : Type} (d : list (Z * V)) k v :
  (Py.setitem d k v).*1 = d.*1 /\ k ∈ d.*1 \/
  (Py.setitem d k v).*1 = d.*1 ++ [k] /\ k ∉ d.*1.
Proof.
  destruct (decide (k ∈ d.*1)) as [Hin|Hout].
  - left. split; [|exact Hin].
    induction d as [|[k' w] d IH]; [by apply elem_of_nil in Hin|].
    cbn [Py.setitem]. destruct (Z.eqb_spec k' k) as [->|Hne]; [reflexivity|].
    cbn [fmap list_fmap fst]. f_equal. apply IH.
    cbn [fmap list_fmap fst] in Hin.
    apply elem_of_cons in Hin as [->|Hin]; [congruence | exact Hin].
  - right. split; [|exact Hout]. rewrite setitem_fresh by exact Hout.
    by rewrite fmap_app.
Qed.

Lemma foldl_setitem_keys {V : Type} (entries d : list (Z * V)) :
  NoDup d.*1 ->
  let d' := foldl (fun d e => Py.setitem d e.1 e.2) d entries in
  NoDup d'.*1 /\ forall key, key ∈ d'.*1 <-> key ∈ d.*1 \/ key ∈ entries.*1.
Proof.
  cbv zeta. revert d.
  induction entries as [|[k v] entries IH]; intros d Hnd; cbn [foldl].
  - split; [exact Hnd|]. intros key. rewrite fmap_nil, elem_of_nil. tauto.
  - cbn [fst snd].
    destruct (setitem_keys d k v) as [[Hk Hin]|[Hk Hout]].
    + destruct (IH (Py.setitem d k v)) as [Hnd' Hkeys];
        [by rewrite Hk|].
      split; [exact Hnd'|]. intros key. rewrite Hkeys, Hk.
      rewrite fmap_cons, elem_of_cons. cbn [fst].
      split; [tauto|]. intros [?|[->|?]]; tauto.
    + destruct (IH (Py.setitem d k v)) as [Hnd' Hkeys].
      { rewrite Hk. apply NoDup_app. split; [exact Hnd|].
        split; [|apply NoDup_singleton].
        intros x Hx ->%list_elem_of_singleton. contradiction. }
      split; [exact Hnd'|]. intros key. rewrite Hkeys, Hk.
      rewrite fmap_cons, elem_of_cons, elem_of_app, list_elem_of_singleton.
      cbn [fst]. tauto.
Qed.

Lemma assoc_foldl_setitem {V : Type} (entries d : list (Z * V)) key :
  Py.assoc (foldl (fun d e => Py.setitem d e.1 e.2) d entries) key =
  match Py.assoc (reverse entries) key with
  | Some v => Some v
  | None => Py.assoc d key
  end.
Proof.
  revert d. induction entries as [|[k v] entries IH]; intros d; cbn [foldl].
  - reflexivity.
  - rewrite IH, reverse_cons, assoc_app, assoc_setitem. cbn [fst snd Py.assoc].
    destruct (Py.assoc (reverse entries) key); [reflexivity|].
    by destruct (k =? key).
Qed.

(** X12: when several records of [sch_read] carry the same integration
    id, the scan keeps one entry for the id and it is that of the last
    such record: the index has one entry per distinct id, and a lookup
    gives the size and offset of the last record with that id. *)
Theorem scan_int_start_last_wins (records : list (Z * list byte))
    (fuel : nat) :
  Forall Blob.record_fits records ->
  Z.of_nat (length (Blob.vis_blob records)) < 2 ^ 62 ->
  (length records <= fuel)%nat ->
  exists index,
    MirParser.scan_int_start fuel (Blob.vis_blob records) = Ok index /\
    NoDup index.*1 /\
    (forall id, id ∈ index.*1 <-> id ∈ records.*1) /\
    forall id,
      Py.assoc index id = Py.assoc (reverse (Blob.index_of records)) id.
Proof.
  intros Hfit Hsize Hfuel.
  destruct (scan_int_loop_records records (fuel - length records)
              (Np.open (Blob.vis_blob records ++ [])) [] [] 0 []
              eq_refl eq_refl Hfit) as (f' & lo' & Hc & Hp & Hrun).
  { unfold Np.open. cbn [content]. by rewrite app_nil_r. }
  unfold Np.open in *. cbn [length content] in *.
  change (Z.of_nat 0) with 0 in *. rewrite Z.add_0_l in *.
  rewrite app_nil_r in *.
  replace (length records + (fuel - length records))%nat with fuel
    in Hrun by lia.
  eexists. split.
  { unfold MirParser.scan_int_start, Np.open. rewrite Hrun.
    apply scan_int_loop_done. lia. }
  destruct (foldl_setitem_keys (Blob.index_from 0 records) [])
    as [Hnd Hkeys]; [apply NoDup_nil_2|].
  split; [exact Hnd|]. split.
  - intros id. rewrite Hkeys, index_from_keys, fmap_nil, elem_of_nil. tauto.
  - intros id. rewrite assoc_foldl_setitem. unfold Blob.index_of.
    by destruct (Py.assoc _ id).
Qed.

Lemma scan_int_start_last_wins_witness :
  exists index,
    MirParser.scan_int_start 3 (Blob.vis_blob Example.vis_records_repeated)
      = Ok index /\
    NoDup index.*1 /\
    (forall id, id ∈ index.*1 <-> id ∈ Example.vis_records_repeated.*1) /\
    forall id,
      Py.assoc index id =
      Py.assoc (reverse (Blob.index_of Example.vis_records_repeated)) id.
Proof.
  apply (scan_int_start_last_wins Example.vis_records_repeated 3).
  - repeat constructor; vm_compute; congruence.
  - vm_compute. reflexivity.
  - vm_compute. lia.
Defined.

(** ** Reading the records of [sch_read] *)

Lemma fromfile_group (f : file) (itemsize n offset : Z) :
  0 <= pos f + offset ->
  0 < itemsize ->
  0 <= n ->
  pos f + offset + n * itemsize <= Z.of_nat (length (content f)) ->
  Np.fromfile f itemsize n offset =
    Ok (Np.chunks (Z.to_nat itemsize) (Z.to_nat n)
          (drop (Z.to_nat (pos f + offset)) (content f)),
        {| content := content f; pos := pos f + offset + n * itemsize |}).
Proof.
  intros Hstart Hitem Hn Hend. unfold Np.fromfile.
  set (start := pos f + offset) in *.
  destruct (Z.ltb_spec start 0) as [?|_]; [lia|].
  set (size := Z.of_nat (length (content f))) in *.
  assert (Hwhole : n <= Z.max 0 (size - start) / itemsize).
  { apply Z.div_le_lower_bound; lia. }
  destruct (Z.ltb_spec n 0) as [?|_]; [lia|].
  rewrite Z.min_l by exact Hwhole.
  destruct (Z.leb_spec 0 n) as [_|?]; [|lia].
  destruct (Z.ltb_spec n n) as [?|_]; [lia|].
  reflexivity.
Qed.

Lemma chunks_lookup {A : Type} (size n : nat) (l : list A) j :
  (j < n)%nat ->
  Np.chunks size n l !! j = Some (take size (drop (j * size) l)).
Proof.
  revert l j. induction n as [|n IH]; intros l j Hj; [lia|].
  cbn [Np.chunks]. destruct j as [|j]; [reflexivity|].
  rewrite lookup_cons. rewrite IH by lia. by rewrite drop_drop.
Qed.

Lemma length_chunks {A : Type} (size n : nat) (l : list A) :
  length (Np.chunks size n l) = n.
Proof.
  revert l. induction n as [|n IH]; intros l; cbn [Np.chunks length];
    [reflexivity | by rewrite IH].
Qed.

Lemma register_dtypes_lookup (sizes : list Z) (d : gmap Z Z) :
  (forall s, s ∈ sizes -> 8 <= s) ->
  exists d',
    for_loop (fun d in_size =>
                let npack := (in_size - 8) / 2 in
                if npack <? 0 then Raise ValueError
                else Ok (<[in_size := npack]> d))
             d sizes = Ok d' /\
    forall s, d' !! s = if decide (s ∈ sizes) then Some ((s - 8) / 2)
                        else d !! s.
Proof.
  revert d. induction sizes as [|x sizes IH]; intros d Hs.
  - exists d. split; [reflexivity|]. intros s.
    destruct (decide (s ∈ [])) as [H|_]; [by apply elem_of_nil in H|].
    reflexivity.
  - cbn [for_loop]. cbv zeta.
    assert (Hx : 0 <= (x - 8) / 2).
    { apply Z.div_pos; [|lia]. specialize (Hs x (list_elem_of_here _ _)). lia. }
    destruct (Z.ltb_spec ((x - 8) / 2) 0) as [?|_]; [lia|].
    cbn [mbind result_bind].
    destruct (IH (<[x := (x - 8) / 2]> d)) as (d' & Hrun & Hd').
    { intros s Hin. apply Hs. by right. }
    exists d'. split; [exact Hrun|]. intros s. rewrite Hd'.
    destruct (decide (s ∈ sizes)) as [Hin|Hout].
    + rewrite decide_True by (by right). reflexivity.
    + destruct (decide (s = x)) as [->|Hne].
      * rewrite decide_True by (by left). by rewrite lookup_insert_eq.
      * rewrite decide_False.
        -- by rewrite lookup_insert_ne.
        -- intros [?|?]%elem_of_cons; contradiction.
Qed.

Lemma dict_update_fmap_lookup {V : Type} (d : gmap Z V) (keys : list Z)
    (g : Z -> V) key :
  Py.dict_update d (zip keys (g <$> keys)) !! key =
  if decide (key ∈ keys) then Some (g key) else d !! key.
Proof.
  revert d. induction keys as [|k keys IH]; intros d.
  - destruct (decide (key ∈ [])) as [H|_]; [by apply elem_of_nil in H|].
    reflexivity.
  - rewrite fmap_cons. cbn [zip zip_with]. unfold Py.dict_update.
    cbn [foldl fst snd]. fold (Py.dict_update (<[k := g k]> d)
                                 (zip keys (g <$> keys))).
    rewrite IH.
    destruct (decide (key ∈ keys)) as [Hin|Hout].
    + rewrite decide_True by (by right). reflexivity.
    + destruct (decide (key = k)) as [->|Hne].
      * rewrite decide_True by (by left). by rewrite lookup_insert_eq.
      * rewrite decide_False.
        -- by rewrite lookup_insert_ne.
        -- intros [?|?]%elem_of_cons; contradiction.
Qed.

Lemma elem_of_insert_sorted x y l :
  x ∈ Py.insert_sorted y l <-> x = y \/ x ∈ l.
Proof.
  induction l as [|z l IH]; cbn [Py.insert_sorted].
  - rewrite list_elem_of_singleton, elem_of_nil. tauto.
  - destruct (y <=? z).
    + by rewrite elem_of_cons.
    + rewrite !elem_of_cons, IH. tauto.
Qed.

Lemma elem_of_sorted x l : x ∈ Py.sorted l <-> x ∈ l.
Proof.
  induction l as [|y l IH]; [reflexivity|].
  unfold Py.sorted in *. cbn [foldr].
  by rewrite elem_of_insert_sorted, IH, elem_of_cons.
Qed.

Lemma assoc_elem {V : Type} (d : list (Z * V)) key v :
  Py.assoc d key = Some v -> (key, v) ∈ d.
Proof.
  induction d as [|[k w] d IH]; [discriminate|]. cbn [Py.assoc].
  destruct (Z.eqb_spec k key) as [->|_].
  - intros [= ->]. by left.
  - intros H. right. by apply IH.
Qed.

Lemma assoc_is_Some {V : Type} (d : list (Z * V)) key :
  key ∈ d.*1 -> is_Some (Py.assoc d key).
Proof.
  intros H. destruct (Py.assoc d key) eqn:E; [by eexists|].
  by apply assoc_None in E.
Qed.

Section ReadVisData.

Variable sch : list byte.
Variable index : list (Z * (Z * Z)).
Variable dtypes : gmap Z Z.
Hypothesis Hfits : Forall (entry_fits sch) index.
Hypothesis Hsmall : Z.of_nat (length sch) < 2 ^ 62.
Hypothesis Hdtypes :
  forall key size start,
    Py.assoc index key = Some (size, start) ->
    dtypes !! size = Some ((size - 8) / 2).

Lemma assoc_fits key size start :
  Py.assoc index key = Some (size, start) ->
  8 <= size /\ size mod 2 = 0 /\ 0 <= start /\
  start + size <= Z.of_nat (length sch).
Proof using Hfits.
  intros H. apply assoc_elem in H.
  rewrite Forall_forall in Hfits. exact (Hfits _ H).
Qed.

Lemma pending_bounds flushed pend r :
  reader_inv sch index flushed pend r ->
  pend <> [] ->
  8 <= MirParser.rd_last_size r /\
  MirParser.rd_last_size r mod 2 = 0 /\
  0 <= MirParser.rd_last_offset r /\
  MirParser.rd_last_offset r
    + Z.of_nat (length pend) * MirParser.rd_last_size r
    <= Z.of_nat (length sch).
Proof using Hfits.
  intros (_ & _ & _ & _ & _ & Hpend & _) Hne.
  destruct pend as [|key0 pend]; [contradiction|].
  destruct (assoc_fits _ _ _ (Hpend 0%nat key0 eq_refl)) as (H8 & Hev & H0 & _).
  destruct (lookup_lt_is_Some_2 (key0 :: pend) (length pend)) as [kl Hkl];
    [cbn [length]; lia|].
  destruct (assoc_fits _ _ _ (Hpend _ kl Hkl)) as (_ & _ & _ & Hend).
  cbn [length]. repeat split; try assumption; lia.
Qed.

Lemma even_item size : 8 <= size -> size mod 2 = 0 ->
  0 <= (size - 8) / 2 /\ 8 + 2 * ((size - 8) / 2) = size.
Proof.
  intros H8 Hev. split; [apply Z.div_pos; lia|].
  assert (Hm : (size - 8) mod 2 = 0).
  { rewrite Zminus_mod, Hev. reflexivity. }
  pose proof (Z.div_mod (size - 8) 2). lia.
Qed.

(** Reading the pending group puts its records into the dictionary. *)
Lemma read_group_flush flushed pend r :
  reader_inv sch index flushed pend r ->
  pend <> [] ->
  exists r',
    MirParser.read_group dtypes r = Ok r' /\
    content (MirParser.visibilities_file r') = sch /\
    pos (MirParser.visibilities_file r')
      = MirParser.rd_last_offset r
        + Z.of_nat (length pend) * MirParser.rd_last_size r /\
    forall k, MirParser.in_data_dict r' !! k =
              if decide (k ∈ flushed ++ pend) then record_at sch index k
              else None.
Proof using Hfits Hsmall Hdtypes.
  intros Hinv Hne.
  destruct (pending_bounds _ _ _ Hinv Hne) as (H8 & Hev & H0 & Hend).
  destruct Hinv as (Hc & Hl & Hn & Hp & _ & Hpend & Hd).
  destruct (even_item _ H8 Hev) as [Hnp Hitem].
  set (size := MirParser.rd_last_size r) in *.
  set (lo := MirParser.rd_last_offset r) in *.
  assert (Hdt : dtypes !! size = Some ((size - 8) / 2)).
  { destruct pend as [|key0 pend]; [contradiction|].
    exact (Hdtypes _ _ _ (Hpend 0%nat key0 eq_refl)). }
  unfold MirParser.read_group. fold size.
  rewrite (getitem_Some _ _ _ Hdt). cbn [mbind result_bind].
  rewrite Hitem, Hn.
  rewrite fromfile_group; rewrite ?Hp, ?Hc; try lia.
  cbn [mbind result_bind]. eexists. split; [reflexivity|].
  cbn [MirParser.visibilities_file MirParser.in_data_dict content pos].
  split; [reflexivity|]. split; [reflexivity|].
  set (g := fun key =>
              MirParser.decode_vis_record
                (take (Z.to_nat (default (0, 0) (Py.assoc index key)).1)
                   (drop (Z.to_nat (default (0, 0) (Py.assoc index key)).2)
                      sch))).
  assert (Hg : forall key, key ∈ pend -> record_at sch index key = Some (g key)).
  { intros key [j Hj]%list_elem_of_lookup_1. unfold record_at, g.
    by rewrite (Hpend j key Hj). }
  assert (Hitems :
            MirParser.decode_vis_record
              <$> Np.chunks (Z.to_nat size) (Z.to_nat (Z.of_nat (length pend)))
                    (drop (Z.to_nat lo) sch)
            = g <$> pend).
  { apply list_eq. intros j. rewrite !list_lookup_fmap, Nat2Z.id.
    destruct (pend !! j) as [key|] eqn:Hj.
    - rewrite chunks_lookup by (by eapply lookup_lt_Some).
      cbn [fmap option_fmap option_map]. f_equal. unfold g.
      rewrite (Hpend j key Hj). cbn [default from_option id fst snd].
      rewrite drop_drop. do 3 f_equal. nia.
    - rewrite lookup_ge_None_2; [reflexivity|].
      rewrite length_chunks. by apply lookup_ge_None_1. }
  intros k. rewrite Hl, Hitems, dict_update_fmap_lookup, Hd.
  destruct (decide (k ∈ pend)) as [Hin|Hout].
  - rewrite decide_True by (apply elem_of_app; by right).
    symmetry. by apply Hg.
  - destruct (decide (k ∈ flushed)) as [Hf|Hnf].
    + rewrite decide_True by (apply elem_of_app; by left). reflexivity.
    + rewrite decide_False; [reflexivity|].
      intros [?|?]%elem_of_app; contradiction.
Qed.

(** One pass of the loop. *)
Lemma read_vis_step_inv flushed pend r key :
  reader_inv sch index flushed pend r ->
  key ∈ index.*1 ->
  exists r' flushed' pend',
    MirParser.read_vis_step index dtypes r key = Ok r' /\
    reader_inv sch index flushed' pend' r' /\
    flushed' ++ pend' = flushed ++ pend ++ [key] /\
    pend' <> [].
Proof using Hfits Hsmall Hdtypes.
  intros Hinv Hkey.
  destruct (assoc_is_Some _ _ Hkey) as [[in_size in_start] Hassoc].
  destruct (assoc_fits _ _ _ Hassoc) as (K8 & Kev & K0 & Kend).
  unfold MirParser.read_vis_step, Py.getitem_ordered. rewrite Hassoc.
  cbn [mbind result_bind].
  pose proof Hinv as (Hc & Hl & Hn & Hp & Hinit & Hpend & Hd).
  set (size := MirParser.rd_last_size r) in *.
  set (lo := MirParser.rd_last_offset r) in *.
  assert (Hb : pend = [] /\ size = 0 /\ lo = 0
                 /\ pos (MirParser.visibilities_file r) = 0 \/
               pend <> [] /\ 8 <= size /\ size mod 2 = 0 /\ 0 <= lo /\
               lo + Z.of_nat (length pend) * size <= Z.of_nat (length sch)).
  { destruct pend as [|k0 pend0] eqn:E.
    - left. destruct (Hinit eq_refl) as (? & ? & ?). auto.
    - right. split; [discriminate|].
      rewrite <- E in Hinv. subst pend.
      apply (pending_bounds _ _ _ Hinv). discriminate. }
  assert (Hw : Np.wrap64 (lo + Np.wrap64 (size * MirParser.rd_num_vals r))
               = lo + Z.of_nat (length pend) * size).
  { rewrite Hn, (Z.mul_comm size).
    destruct Hb as [(-> & -> & -> & _)|(_ & ? & _ & ? & ?)].
    - reflexivity.
    - assert (0 <= Z.of_nat (length pend) * size) by nia.
      rewrite (wrap64_small (Z.of_nat (length pend) * size)) by lia.
      rewrite wrap64_small by lia. lia. }
  assert (Hw' : Np.wrap64
                  (in_start
                   - Np.wrap64 (lo + Np.wrap64 (MirParser.rd_num_vals r * size)))
                = in_start - (lo + Z.of_nat (length pend) * size)).
  { rewrite Hn.
    destruct Hb as [(-> & -> & -> & _)|(_ & ? & _ & ? & ?)].
    - cbn [length]. change (Z.of_nat 0 * 0) with 0.
      change (Np.wrap64 0) with 0. change (0 + 0) with 0.
      change (Np.wrap64 0) with 0. rewrite wrap64_small by lia. lia.
    - assert (0 <= Z.of_nat (length pend) * size) by nia.
      rewrite (wrap64_small (Z.of_nat (length pend) * size)) by lia.
      rewrite (wrap64_small (lo + Z.of_nat (length pend) * size)) by lia.
      rewrite wrap64_small by lia. lia. }
  rewrite Hw.
  destruct (negb (in_size =? size)
            || negb (lo + Z.of_nat (length pend) * size =? in_start)) eqn:Hcond.
  - (* a new group starts *)
    assert (Hflush :
              exists r1,
                (if negb (MirParser.rd_num_vals r =? 0) && negb (size =? 0)
                 then MirParser.read_group dtypes r else Ok r) = Ok r1 /\
                content (MirParser.visibilities_file r1) = sch /\
                pos (MirParser.visibilities_file r1)
                  = lo + Z.of_nat (length pend) * size /\
                forall k, MirParser.in_data_dict r1 !! k =
                          if decide (k ∈ flushed ++ pend)
                          then record_at sch index k else None).
    { destruct Hb as [(-> & Hs0 & Hl0 & Hp0)|(Hne & H8 & _)].
      - exists r. rewrite Hn. cbn [length]. change (Z.of_nat 0 =? 0) with true.
        cbn [negb andb]. split; [reflexivity|]. split; [exact Hc|].
        split; [lia|]. intros k. rewrite Hd, app_nil_r. reflexivity.
      - destruct (read_group_flush _ _ _ Hinv Hne) as (r1 & Hr1 & ? & ? & ?).
        exists r1. rewrite Hn.
        destruct (Z.eqb_spec (Z.of_nat (length pend)) 0) as [Hz|_].
        { destruct pend; [contradiction | discriminate]. }
        destruct (Z.eqb_spec size 0) as [?|_]; [lia|].
        cbn [negb andb]. auto. }
    destruct Hflush as (r1 & -> & Hc1 & Hp1 & Hd1).
    cbn [mbind result_bind MirParser.visibilities_file MirParser.rd_last_offset
         MirParser.rd_last_size MirParser.rd_num_vals MirParser.rd_del_offset
         MirParser.inhid_list MirParser.in_data_dict app].
    eexists _, (flushed ++ pend), [key]. split; [reflexivity|].
    split; [|split; [by rewrite <- app_assoc | discriminate]].
    unfold reader_inv.
    cbn [MirParser.visibilities_file MirParser.rd_last_offset
         MirParser.rd_last_size MirParser.rd_num_vals MirParser.rd_del_offset
         MirParser.inhid_list MirParser.in_data_dict].
    split; [exact Hc1|]. split; [reflexivity|]. split; [reflexivity|].
    split; [rewrite Hw', Hp1; lia|]. split; [discriminate|].
    split; [|exact Hd1].
    intros j k Hj. destruct j as [|j]; [|by destruct j].
    injection Hj as <-. rewrite Hassoc. do 2 f_equal. lia.
  - (* the record continues the pending group *)
    apply orb_false_iff in Hcond as [Hsz Hst].
    apply negb_false_iff, Z.eqb_eq in Hsz, Hst. subst in_size.
    destruct Hb as [(_ & Hs0 & _)|(Hne & _)]; [lia|].
    cbn [mbind result_bind MirParser.visibilities_file MirParser.rd_last_offset
         MirParser.rd_last_size MirParser.rd_num_vals MirParser.rd_del_offset
         MirParser.inhid_list MirParser.in_data_dict].
    eexists _, flushed, (pend ++ [key]). split; [reflexivity|].
    split; [|split; [reflexivity | by destruct pend]].
    unfold reader_inv.
    cbn [MirParser.visibilities_file MirParser.rd_last_offset
         MirParser.rd_last_size MirParser.rd_num_vals MirParser.rd_del_offset
         MirParser.inhid_list MirParser.in_data_dict].
    split; [exact Hc|]. split; [by rewrite Hl|].
    split; [rewrite Hn, length_app; cbn [length]; lia|].
    split; [exact Hp|]. split; [by destruct pend|].
    split; [|exact Hd].
    intros j k Hj. fold size lo.
    destruct (decide (j < length pend)%nat) as [Hlt|Hge].
    + rewrite lookup_app_l in Hj by exact Hlt. by apply Hpend.
    + rewrite lookup_app_r in Hj by lia.
      destruct (j - length pend)%nat as [|j'] eqn:Ej; [|by destruct j'].
      injection Hj as <-. rewrite Hassoc. do 2 f_equal.
      assert (j = length pend) as -> by lia. lia.
Qed.

Lemma read_vis_loop_inv keys :
  forall flushed pend r,
    reader_inv sch index flushed pend r ->
    (forall key, key ∈ keys -> key ∈ index.*1) ->
    exists r' flushed' pend',
      for_loop (MirParser.read_vis_step index dtypes) r keys = Ok r' /\
      reader_inv sch index flushed' pend' r' /\
      flushed' ++ pend' = flushed ++ pend ++ keys /\
      (pend' = [] -> pend = [] /\ keys = []).
Proof using Hfits Hsmall Hdtypes.
  induction keys as [|key keys IH]; intros flushed pend r Hinv Hkeys.
  - exists r, flushed, pend. split; [reflexivity|]. split; [exact Hinv|].
    rewrite app_nil_r. auto.
  - destruct (read_vis_step_inv _ _ _ key Hinv) as
      (r1 & flushed1 & pend1 & Hstep & Hinv1 & Happ & Hne);
      [apply Hkeys; by left|].
    destruct (IH _ _ _ Hinv1) as (r' & flushed' & pend' & Hrun & Hinv' & Happ'
                                   & Hempty);
      [intros k Hk; apply Hkeys; by right|].
    exists r', flushed', pend'. cbn [for_loop]. rewrite Hstep.
    cbn [mbind result_bind]. split; [exact Hrun|]. split; [exact Hinv'|].
    split.
    + rewrite Happ', app_assoc, Happ, <- !app_assoc. reflexivity.
    + intros Hp. destruct (Hempty Hp) as [? _]. contradiction.
Qed.

End ReadVisData.

Lemma register_dtypes_ok (sizes : list Z) :
  (forall s, s ∈ sizes -> 8 <= s) ->
  exists d,
    MirParser.register_dtypes sizes = Ok d /\
    forall s, d !! s = if decide (s ∈ sizes) then Some ((s - 8) / 2)
                       else None.
Proof.
  intros Hs. destruct (register_dtypes_lookup sizes ∅ Hs) as (d & Hrun & Hd).
  exists d. split; [exact Hrun|]. intros s. rewrite Hd.
  destruct (decide (s ∈ sizes)); [reflexivity | apply lookup_empty].
Qed.

(** X13: [read_vis_data] returns, for every integration of the offset
    index, the record the index points at, decoded, and nothing else,
    whenever every entry of the index lies inside the file and has an
    even size of at least the 8-byte header: however the entries are
    laid out, and however the loop groups consecutive records of one
    size into a single read. *)
Theorem read_vis_data_records (sch : list byte)
    (index : list (Z * (Z * Z))) :
  Forall (entry_fits sch) index ->
  Z.of_nat (length sch) < 2 ^ 62 ->
  exists d,
    MirParser.read_vis_data sch index = Ok d /\
    forall k, d !! k = record_at sch index k.
Proof.
  intros Hfits Hsmall. unfold MirParser.read_vis_data. cbv zeta.
  destruct (register_dtypes_ok (Np.unique ((fun e => e.2.1) <$> index)))
    as (dtypes & Hreg & Hdt).
  { intros s Hs. apply (proj1 (elem_of_unique _ _)) in Hs.
    apply list_elem_of_fmap in Hs as (e & -> & He).
    rewrite Forall_forall in Hfits. by destruct (Hfits e He). }
  rewrite Hreg. cbn [mbind result_bind].
  assert (Hdtypes : forall key size start,
             Py.assoc index key = Some (size, start) ->
             dtypes !! size = Some ((size - 8) / 2)).
  { intros key size start H. rewrite Hdt, decide_True; [reflexivity|].
    apply elem_of_unique, list_elem_of_fmap.
    exists (key, (size, start)). split; [reflexivity | by apply assoc_elem]. }
  set (r0 := {| MirParser.visibilities_file := Np.open sch |}).
  assert (Hinv0 : reader_inv sch index [] [] r0).
  { unfold reader_inv, r0, Np.open.
    cbn [MirParser.visibilities_file MirParser.rd_last_offset
         MirParser.rd_last_size MirParser.rd_num_vals MirParser.rd_del_offset
         MirParser.inhid_list MirParser.in_data_dict content pos length].
    repeat split; try reflexivity.
    intros j key Hj. by rewrite lookup_nil in Hj. }
  destruct (read_vis_loop_inv sch index dtypes Hfits Hsmall Hdtypes
              (Py.sorted index.*1) [] [] r0 Hinv0)
    as (r & flushed & pend & Hrun & Hinv & Happ & Hempty).
  { intros key. apply elem_of_sorted. }
  rewrite Hrun. cbn [mbind result_bind].
  cbn [app] in Happ.
  assert (Hkeys : forall k, k ∉ Py.sorted index.*1 ->
                            record_at sch index k = None).
  { intros k Hk. unfold record_at.
    rewrite (proj2 (assoc_None index k)); [reflexivity|].
    intros Hin. by apply Hk, elem_of_sorted. }
  pose proof Hinv as (_ & _ & Hn & _ & _ & _ & Hd).
  destruct pend as [|key0 pend0] eqn:Epend.
  - rewrite Hn. cbn [length]. change (Z.of_nat 0 =? 0) with true.
    cbn [negb mbind result_bind]. eexists. split; [reflexivity|].
    intros k. rewrite Hd. destruct (Hempty eq_refl) as [_ Hnil].
    rewrite Hnil in Hkeys.
    destruct (decide (k ∈ flushed)); [reflexivity|].
    symmetry. apply Hkeys, not_elem_of_nil.
  - rewrite <- Epend in *. clear Hd.
    assert (Hne : pend <> []) by (rewrite Epend; discriminate).
    destruct (read_group_flush sch index dtypes Hfits Hsmall Hdtypes
                _ _ _ Hinv Hne) as (r' & Hr' & _ & _ & Hd').
    rewrite Hn.
    destruct (Z.eqb_spec (Z.of_nat (length pend)) 0) as [Hz|_].
    { destruct pend; [contradiction | discriminate]. }
    cbn [negb]. rewrite Hr'. cbn [mbind result_bind].
    eexists. split; [reflexivity|].
    intros k. rewrite Hd', Happ.
    destruct (decide (k ∈ Py.sorted index.*1)) as [_|Hout]; [reflexivity|].
    symmetry. by apply Hkeys.
Qed.

Lemma read_vis_data_records_witness :
  exists d,
    MirParser.read_vis_data (Blob.vis_blob Sample.vis_records) Sample.index
      = Ok d /\
    forall k, d !! k
              = record_at (Blob.vis_blob Sample.vis_records) Sample.index k.
Proof.
  apply (read_vis_data_records (Blob.vis_blob Sample.vis_records)
           Sample.index).
  - repeat constructor; vm_compute; congruence.
  - vm_compute. reflexivity.
Defined.

Lemma length_vis_record_bytes (r : Z * list byte) :
  length (Blob.vis_record_bytes r) = (8 + length r.2)%nat.
Proof.
  unfold Blob.vis_record_bytes. rewrite !length_app, !length_le_split. lia.
Qed.

(** Where the index of a blob points, the record lies. *)
Lemma index_from_at (records : list (Z * list byte)) :
  forall (pre : list byte) i r,
    records !! i = Some r ->
    exists start,
      Blob.index_from (Z.of_nat (length pre)) records !! i
        = Some (r.1, (Z.of_nat (length r.2) + 8, start)) /\
      0 <= start /\
      start + (Z.of_nat (length r.2) + 8)
        <= Z.of_nat (length (pre ++ Blob.vis_blob records)) /\
      take (Z.to_nat (Z.of_nat (length r.2) + 8))
           (drop (Z.to_nat start) (pre ++ Blob.vis_blob records))
        = Blob.vis_record_bytes r.
Proof.
  induction records as [|r0 records IH]; intros pre i r Hi;
    [by rewrite lookup_nil in Hi|].
  assert (Hblob : Blob.vis_blob (r0 :: records)
                  = Blob.vis_record_bytes r0 ++ Blob.vis_blob records)
    by reflexivity.
  destruct i as [|i].
  - injection Hi as ->. exists (Z.of_nat (length pre)).
    cbn [Blob.index_from lookup list_lookup].
    split; [reflexivity|]. split; [lia|]. rewrite Hblob. split.
    + rewrite !length_app, length_vis_record_bytes. lia.
    + rewrite Nat2Z.id, drop_app_length.
      replace (Z.to_nat (Z.of_nat (length r.2) + 8))
        with (length (Blob.vis_record_bytes r))
        by (rewrite length_vis_record_bytes; lia).
      by rewrite take_app_length.
  - cbn [Blob.index_from]. rewrite lookup_cons.
    destruct (IH (pre ++ Blob.vis_record_bytes r0) i r Hi)
      as (start & Hidx & H0 & Hend & Hbytes).
    exists start. rewrite Hblob, app_assoc.
    split; [|split; [exact H0 | split; [exact Hend | exact Hbytes]]].
    rewrite <- Hidx. do 2 f_equal.
    rewrite length_app, length_vis_record_bytes. lia.
Qed.

Lemma decode_vis_record_bytes (r : Z * list byte) :
  Blob.record_fits r ->
  MirParser.decode_vis_record (Blob.vis_record_bytes r) =
    {| MirParser.rec_inhid := r.1;
       MirParser.nbyt := Z.of_nat (length r.2);
       MirParser.packdata :=
         Np.int16_of <$> Np.chunks 2 (Nat.div (length r.2) 2) r.2 |}.
Proof.
  intros [Hid Hlen]. unfold MirParser.decode_vis_record.
  rewrite length_vis_record_bytes. unfold Blob.vis_record_bytes.
  f_equal.
  - rewrite take_app_length' by (by rewrite length_le_split).
    by apply int32_of_le_split.
  - rewrite drop_app_length' by (by rewrite length_le_split).
    rewrite take_app_length' by (by rewrite length_le_split).
    apply int32_of_le_split. lia.
  - replace (8 + length r.2 - 8)%nat with (length r.2) by lia.
    rewrite app_assoc, drop_app_length'; [reflexivity|].
    by rewrite length_app, !length_le_split.
Qed.

Lemma assoc_NoDup {V : Type} (d : list (Z * V)) key v :
  NoDup d.*1 -> (key, v) ∈ d -> Py.assoc d key = Some v.
Proof.
  induction d as [|[k w] d IH]; intros Hnd Hin;
    [by apply elem_of_nil in Hin|].
  cbn [fmap list_fmap fst] in Hnd. apply NoDup_cons in Hnd as [Hk Hnd].
  cbn [Py.assoc]. apply elem_of_cons in Hin as [[= -> ->]|Hin].
  - by rewrite Z.eqb_refl.
  - destruct (Z.eqb_spec k key) as [->|_]; [|by apply IH].
    destruct Hk. apply list_elem_of_fmap. by exists (key, v).
Qed.

(** X14: scanning a blob of whole records with distinct ids and
    payloads of an even number of bytes, and reading it back through
    the index the scan returned, gives for each id the record that was
    written: its id, the size of its payload, and its payload as int16
    elements; ids that were not written are not in the result. *)
Theorem sch_read_round_trip (records : list (Z * list byte)) (fuel : nat) :
  NoDup records.*1 ->
  Forall Blob.record_fits records ->
  Forall (fun r => Z.of_nat (length r.2) mod 2 = 0) records ->
  Z.of_nat (length (Blob.vis_blob records)) < 2 ^ 62 ->
  (length records <= fuel)%nat ->
  exists index d,
    MirParser.scan_int_start fuel (Blob.vis_blob records) = Ok index /\
    MirParser.read_vis_data (Blob.vis_blob records) index = Ok d /\
    (forall r, r ∈ records ->
       d !! r.1 =
         Some {| MirParser.rec_inhid := r.1;
                 MirParser.nbyt := Z.of_nat (length r.2);
                 MirParser.packdata :=
                   Np.int16_of
                     <$> Np.chunks 2 (Nat.div (length r.2) 2) r.2 |}) /\
    (forall id, is_Some (d !! id) -> id ∈ records.*1).
Proof.
  intros Hnd Hfit Heven Hsize Hfuel.
  set (blob := Blob.vis_blob records) in *.
  exists (Blob.index_of records).
  assert (Hscan : MirParser.scan_int_start fuel blob
                  = Ok (Blob.index_of records)).
  { destruct (scan_int_start_prefix records [] (fuel - length records)
                Hnd Hfit) as (f' & lo' & _ & _ & Hrun).
    { by rewrite app_nil_r. }
    rewrite app_nil_r in Hrun.
    replace (length records + (fuel - length records))%nat with fuel
      in Hrun by lia.
    fold blob in Hrun. rewrite Hrun. apply scan_int_loop_done. lia. }
  assert (Hat : forall i r, records !! i = Some r ->
            exists start,
              Blob.index_of records !! i
                = Some (r.1, (Z.of_nat (length r.2) + 8, start)) /\
              0 <= start /\
              start + (Z.of_nat (length r.2) + 8) <= Z.of_nat (length blob) /\
              take (Z.to_nat (Z.of_nat (length r.2) + 8))
                   (drop (Z.to_nat start) blob)
                = Blob.vis_record_bytes r).
  { intros i r Hi. exact (index_from_at records [] i r Hi). }
  destruct (read_vis_data_records blob (Blob.index_of records))
    as (d & Hread & Hd); [|exact Hsize|].
  { apply Forall_forall. intros e [i Hi]%list_elem_of_lookup_1.
    destruct (lookup_lt_is_Some_2 records i) as [r Hr].
    { apply lookup_lt_Some in Hi. unfold Blob.index_of in Hi.
      by rewrite length_index_from in Hi. }
    destruct (Hat i r Hr) as (start & Hidx & H0 & Hend & _).
    rewrite Hidx in Hi. injection Hi as <-.
    rewrite Forall_forall in Heven.
    specialize (Heven r (list_elem_of_lookup_2 _ _ _ Hr)).
    unfold entry_fits. cbn [fst snd].
    split; [lia|]. split; [|split; [exact H0 | exact Hend]].
    rewrite Z.add_mod, Heven by lia. reflexivity. }
  exists d. split; [exact Hscan|]. split; [exact Hread|]. split.
  - intros r [i Hr]%list_elem_of_lookup_1.
    destruct (Hat i r Hr) as (start & Hidx & _ & _ & Hbytes).
    rewrite Hd. unfold record_at.
    rewrite (assoc_NoDup _ r.1 (Z.of_nat (length r.2) + 8, start)).
    + rewrite Hbytes. f_equal. apply decode_vis_record_bytes.
      rewrite Forall_forall in Hfit. apply Hfit.
      by eapply list_elem_of_lookup_2.
    + unfold Blob.index_of. by rewrite index_from_keys.
    + by eapply list_elem_of_lookup_2.
  - intros id [v Hv]. rewrite Hd in Hv. unfold record_at in Hv.
    destruct (Py.assoc (Blob.index_of records) id) as [e|] eqn:E;
      [|discriminate].
    apply assoc_elem in E.
    assert (Hk : id ∈ (Blob.index_of records).*1)
      by (apply list_elem_of_fmap; by exists (id, e)).
    unfold Blob.index_of in Hk. by rewrite index_from_keys in Hk.
Qed.

Lemma sch_read_round_trip_witness :
  exists index d,
    MirParser.scan_int_start 2 (Blob.vis_blob Sample.vis_records)
      = Ok index /\
    MirParser.read_vis_data (Blob.vis_blob Sample.vis_records) index = Ok d /\
    (forall r, r ∈ Sample.vis_records ->
       d !! r.1 =
         Some {| MirParser.rec_inhid := r.1;
                 MirParser.nbyt := Z.of_nat (length r.2);
                 MirParser.packdata :=
                   Np.int16_of
                     <$> Np.chunks 2 (Nat.div (length r.2) 2) r.2 |}) /\
    (forall id, is_Some (d !! id) -> id ∈ Sample.vis_records.*1).
Proof.
  apply (sch_read_round_trip Sample.vis_records 2).
  - apply (bool_decide_unpack _). vm_compute. exact I.
  - repeat constructor; vm_compute; congruence.
  - repeat constructor.
  - vm_compute. reflexivity.
  - vm_compute. lia.
Defined.

(** ** The order of the raw records *)

Lemma groups_perm (ids : list Z) (rows : list sp_row) :
  NoDup ids ->
  (forall r, r ∈ rows -> sp_inhid r ∈ ids) ->
  ids ≫= (fun i => filter (fun r => sp_inhid r = i) rows) ≡ₚ rows.
Proof.
  revert rows. induction ids as [|i ids IH]; intros rows Hnd Hin.
  - destruct rows as [|r rows]; [reflexivity|].
    specialize (Hin r (list_elem_of_here _ _)). by apply elem_of_nil in Hin.
  - apply NoDup_cons in Hnd as [Hi Hnd]. rewrite bind_cons.
    etrans; [|apply (filter_app_complement (fun r => sp_inhid r = i))].
    apply Permutation_app; [reflexivity|].
    rewrite (bind_ext_in _
               (fun j => filter (fun r => sp_inhid r = j)
                           (filter (fun r => sp_inhid r <> i) rows))).
    + apply IH; [exact Hnd|].
      intros r [Hne Hr]%list_elem_of_filter.
      specialize (Hin r Hr). apply elem_of_cons in Hin as [?|?];
        [contradiction | assumption].
    + intros j Hj. rewrite list_filter_filter. apply list_filter_iff.
      intros r. split; [|tauto]. intros ->. split; [reflexivity|].
      intros ->. contradiction.
Qed.

(** X15: [parse_raw_data] returns the raw mantissas and the scale
    factors of the spectral records grouped by integration, in
    ascending integration id, and within an integration in the order
    of the table: each record of the table once, but in the order of
    the table only when the table is in ascending integration id. *)
Theorem parse_raw_data_order (sch : list byte)
    (index : list (Z * (Z * Z))) (table : list sp_row) :
  Z.of_nat (length sch) < 2 ^ 62 ->
  (forall r, r ∈ table ->
     exists block, block_at sch index (sp_inhid r) block /\ placed block r) ->
  (forall r, r ∈ table -> nch r < 2 ^ 14) ->
  raw_order table ≡ₚ table /\
  MirParser.parse_raw_data sch index table =
    Ok ((fun r => take (2 * Z.to_nat (nch r))
                    (drop (S (first_element r))
                       (block_of sch index (sp_inhid r))))
          <$> raw_order table,
        (fun r => default 0 (block_of sch index (sp_inhid r)
                               !! first_element r))
          <$> raw_order table).
Proof.
  intros Hsize Hrows Hnch. split.
  - apply groups_perm; [apply NoDup_unique|].
    intros r Hr. apply elem_of_unique, list_elem_of_fmap. by exists r.
  - unfold MirParser.parse_raw_data.
    rewrite (parse_raw_blocks sch index table); [reflexivity|].
    intros inhid Hin. apply (proj1 (elem_of_unique _ _)) in Hin.
    apply list_elem_of_fmap in Hin as (r0 & -> & Hin0).
    destruct (Hrows _ Hin0) as (block & Hb & _).
    exists block. split; [by apply read_packdata_block|].
    intros r Hr Hid. split; [|by apply Hnch].
    destruct (Hrows _ Hr) as (block' & Hb' & Hp).
    rewrite Hid in Hb'.
    apply (read_packdata_block _ _ _ _ Hsize) in Hb, Hb'.
    congruence.
Qed.

Lemma parse_raw_data_order_witness :
  let sch := Blob.vis_blob Sample.vis_records in
  let table := Sample.sp_rows_swapped in
  raw_order table ≡ₚ table /\
  MirParser.parse_raw_data sch Sample.index table =
    Ok ((fun r => take (2 * Z.to_nat (nch r))
                    (drop (S (first_element r))
                       (block_of sch Sample.index (sp_inhid r))))
          <$> raw_order table,
        (fun r => default 0 (block_of sch Sample.index (sp_inhid r)
                               !! first_element r))
          <$> raw_order table).
Proof.
  apply (parse_raw_data_order (Blob.vis_blob Sample.vis_records)
           Sample.index Sample.sp_rows_swapped).
  - vm_compute. reflexivity.
  - intros r Hr. unfold Sample.sp_rows_swapped, Sample.sp_rows in Hr.
    cbn [drop take app] in Hr.
    repeat (apply elem_of_cons in Hr as [->|Hr]);
      [| | | |by apply elem_of_nil in Hr];
      (eexists; split;
       [ do 2 eexists; split; [reflexivity|];
         split; [|split; [|split; [|reflexivity]]]; vm_compute; congruence
       | split; [|split]; vm_compute; congruence ]).
  - intros r Hr. unfold Sample.sp_rows_swapped, Sample.sp_rows in Hr.
    cbn [drop take app] in Hr.
    repeat (apply elem_of_cons in Hr as [->|Hr]);
      [| | | |by apply elem_of_nil in Hr]; vm_compute; reflexivity.
Defined.

Lemma raw_matches_vis_when_grouped_witness :
  exists raw fac vis,
    MirParser.parse_raw_data (Blob.vis_blob Sample.vis_records) Sample.index
      Sample.sp_rows = Ok (raw, fac) /\
    MirParser.parse_vis_data (Blob.vis_blob Sample.vis_records) Sample.index
      Sample.sp_rows = Ok vis /\
    length raw = length Sample.sp_rows /\
    rescale raw fac = vis.
Proof.
  apply (raw_matches_vis_when_grouped (Blob.vis_blob Sample.vis_records)
           Sample.index Sample.sp_rows).
  - vm_compute. reflexivity.
  - intros r Hr. unfold Sample.sp_rows in Hr.
    repeat (apply elem_of_cons in Hr as [->|Hr]);
      [| | | |by apply elem_of_nil in Hr];
      (eexists; split;
       [ do 2 eexists; split; [reflexivity|];
         split; [|split; [|split; [|reflexivity]]]; vm_compute; congruence
       | split; [|split]; vm_compute; congruence ]).
  - intros r Hr. unfold Sample.sp_rows in Hr.
    repeat (apply elem_of_cons in Hr as [->|Hr]);
      [| | | |by apply elem_of_nil in Hr]; vm_compute; reflexivity.
  - repeat constructor; vm_compute; congruence.
Defined.

(** ** Spectral records without a payload block *)

Lemma first_missing (keys ids : list Z) x :
  x ∈ ids -> (x ∉ keys) ->
  exists pre y post,
    ids = pre ++ y :: post /\ (y ∉ keys) /\ forall z, z ∈ pre -> z ∈ keys.
Proof.
  induction ids as [|i ids IH]; intros Hx Hout;
    [by apply elem_of_nil in Hx|].
  destruct (decide (i ∈ keys)) as [Hi|Hi].
  - apply elem_of_cons in Hx as [->|Hx]; [contradiction|].
    destruct (IH Hx Hout) as (pre & y & post & -> & Hy & Hpre).
    exists (i :: pre), y, post. split; [reflexivity|]. split; [exact Hy|].
    intros z [->|Hz]%elem_of_cons; auto.
  - exists [], i, ids. split; [reflexivity|]. split; [exact Hi|].
    intros z Hz. by apply elem_of_nil in Hz.
Qed.

Lemma read_packdata_missing sch (index : list (Z * (Z * Z))) inhid :
  inhid ∉ index.*1 ->
  MirParser.read_packdata sch index inhid = Raise KeyError.
Proof.
  intros H. apply assoc_None in H.
  unfold MirParser.read_packdata, Py.getitem_ordered. by rewrite H.
Qed.

(** X17: when some spectral record that is asked for belongs to an
    integration the offset index has no entry for, and the records of
    the integrations it has entries for lie inside their blocks,
    [parse_vis_data] raises [KeyError]: it returns no partial result. *)
Theorem parse_vis_data_missing_block (sch : list byte)
    (index : list (Z * (Z * Z))) (table : list sp_row) (stray : sp_row) :
  Z.of_nat (length sch) < 2 ^ 62 ->
  (forall r, r ∈ table -> sp_inhid r ∈ index.*1 ->
     exists block, block_at sch index (sp_inhid r) block /\ placed block r) ->
  stray ∈ table ->
  sp_inhid stray ∉ index.*1 ->
  MirParser.parse_vis_data sch index table = Raise KeyError.
Proof.
  intros Hsize Hrows Hstray Hout. unfold MirParser.parse_vis_data.
  destruct (indexed_columns table) as [Hc1 Hc2].
  set (rows := indexed table) in *.
  assert (Hcol : forall (C : Type) (f : sp_row -> C),
             f <$> table = (fun ir => f ir.2) <$> rows).
  { intros C f. rewrite <- Hc2. by rewrite <- list_fmap_compose. }
  rewrite (Hcol _ sp_inhid), (Hcol _ nch), (Hcol _ (fun r => dataoff r / 2)).
  replace (Py.range (length ((fun ir => dataoff ir.2 / 2) <$> rows)))
    with (rows.*1).
  2:{ rewrite Hc1. unfold Py.range. f_equal. rewrite length_fmap.
      unfold rows, indexed. rewrite length_zip_with, length_seq. lia. }
  destruct (first_missing index.*1
              (Np.unique ((fun ir => sp_inhid ir.2) <$> rows))
              (sp_inhid stray))
    as (pre & y & post & Hids & Hy & Hpre).
  { apply elem_of_unique. rewrite <- (Hcol _ sp_inhid).
    apply list_elem_of_fmap. by exists stray. }
  { exact Hout. }
  rewrite Hids, for_loop_app.
  rewrite (parse_vis_blocks sch index rows).
  2:{ intros inhid Hin.
      assert (Hin' : inhid ∈ Np.unique ((fun ir => sp_inhid ir.2) <$> rows))
        by (rewrite Hids; apply elem_of_app; by left).
      apply (proj1 (elem_of_unique _ _)) in Hin'.
      apply list_elem_of_fmap in Hin' as (ir0 & -> & Hin0).
      assert (Hr0 : ir0.2 ∈ table).
      { rewrite <- Hc2. apply list_elem_of_fmap. by exists ir0. }
      destruct (Hrows _ Hr0 (Hpre _ Hin)) as (block & Hb & _).
      exists block. split; [by apply read_packdata_block|].
      intros ir Hir Hid.
      assert (Hr : ir.2 ∈ table).
      { rewrite <- Hc2. apply list_elem_of_fmap. by exists ir. }
      destruct (Hrows _ Hr) as (block' & Hb' & Hp).
      { rewrite Hid. by apply Hpre. }
      rewrite Hid in Hb'.
      apply (read_packdata_block _ _ _ _ Hsize) in Hb, Hb'.
      congruence. }
  cbn [mbind result_bind for_loop]. unfold MirParser.parse_vis_block.
  rewrite read_packdata_missing by exact Hy. reflexivity.
Qed.

Lemma parse_vis_data_missing_block_witness :
  MirParser.parse_vis_data (Blob.vis_blob Sample.vis_records)
    [(1, (28, 0))] Sample.sp_rows = Raise KeyError.
Proof.
  apply (parse_vis_data_missing_block (Blob.vis_blob Sample.vis_records)
           [(1, (28, 0))] Sample.sp_rows
           {| sphid := 3; sp_blhid := 2; sp_inhid := 2; nch := 2;
              dataoff := 0; corrchunk := 1; sp_columns := [] |}).
  - vm_compute. reflexivity.
  - intros r Hr Hin. unfold Sample.sp_rows in Hr.
    repeat (apply elem_of_cons in Hr as [->|Hr]);
      [| | | |by apply elem_of_nil in Hr];
      try (exfalso; revert Hin; apply (bool_decide_unpack _);
           vm_compute; exact I);
      (eexists; split;
       [ do 2 eexists; split; [reflexivity|];
         split; [|split; [|split; [|reflexivity]]]; vm_compute; congruence
       | split; [|split]; vm_compute; congruence ]).
  - unfold Sample.sp_rows. do 2 apply list_elem_of_further.
    apply list_elem_of_here.
  - apply (bool_decide_unpack _). vm_compute. exact I.
Defined.
